(** * Fossilize replayer: the staged replay scheduler of [cli/fossilize_replay.cpp]

    A shallow embedding of [ThreadedReplayer] and of [main]: the enqueue
    facade, the work queue with its two counters, the worker loop, the
    pipeline-cache header validator and the phase driver.  Threads are
    interleaved at the granularity of the critical sections that
    [pipeline_work_queue_mutex] protects. *)

From Stdlib Require Import ZArith Lia List Bool Strings.Byte Strings.String.
From Stdlib Require Floats.SpecFloat.
From stdpp Require Import base option list gmap sets.

Local Open Scope Z_scope.

(** ** Machine integers *)

(** [unsigned] and [std::atomic_uint] are 32 bits wide, [uint64_t] and
    [std::atomic_uint64_t] 64 bits; arithmetic on them wraps. *)
Definition wrap32 (z : Z) : Z := z mod 2 ^ 32.
Definition wrap64 (z : Z) : Z := z mod 2 ^ 64.

(** ** Vulkan and Fossilize vocabulary *)

(** [Fossilize::Hash] is a [uint64_t]; Vulkan handles are 64-bit values and
    [VK_NULL_HANDLE] is zero. *)
Abbreviation Hash := Z (only parsing).
Abbreviation Handle := Z (only parsing).
Definition VK_NULL_HANDLE : Z := 0.

(** Constants of [vulkan_core.h]. *)
Definition VK_UUID_SIZE : Z := 16.
Definition VK_PIPELINE_CACHE_HEADER_VERSION_ONE : Z := 1.

Definition EXIT_SUCCESS : Z := 0.
Definition EXIT_FAILURE : Z := 1.

(** [Fossilize::ResourceTag] of [fossilize.hpp]. *)
Inductive ResourceTag :=
  | RESOURCE_APPLICATION_INFO
  | RESOURCE_SAMPLER
  | RESOURCE_DESCRIPTOR_SET_LAYOUT
  | RESOURCE_PIPELINE_LAYOUT
  | RESOURCE_SHADER_MODULE
  | RESOURCE_RENDER_PASS
  | RESOURCE_GRAPHICS_PIPELINE
  | RESOURCE_COMPUTE_PIPELINE
  | RESOURCE_COUNT.

Global Instance ResourceTag_eq_dec : EqDecision ResourceTag.
Proof. solve_decision. Defined.

(** What a [vkCreate*] call answers: [VK_SUCCESS] with the handle it stored
    through the output pointer, or an error. *)
Inductive VkOutcome :=
  | VkSuccess (h : Z)
  | VkError.

(** A create call timed by the worker: the outcome together with the
    nanoseconds that [steady_clock] measured around it. *)
Inductive CreateResult :=
  | Created (h : Z) (duration_ns : Z)
  | CreateFailed.

Definition succeeded (r : CreateResult) : bool :=
  match r with Created _ _ => true | CreateFailed => false end.

(** Calls into the Vulkan driver, in the order they are made: the inline
    creates of the main thread, the timed creates and the destroys of the
    workers, and the creation of the pipeline cache. *)
Inductive VkCall :=
  | VkCreate (category : ResourceTag) (create_info : Z) (result : VkOutcome)
  | VkCreateTimed (category : ResourceTag) (create_info : Z) (result : CreateResult)
  | VkDestroy (category : ResourceTag) (h : Z)
  | VkCreatePipelineCache (initial_data : list byte) (result : VkOutcome).

(** Lines written through [LOGE] and [LOGI]. *)
Inductive LogEntry :=
  | LogWorkerCreateFailed (category : ResourceTag) (h : Z)
  | LogTrivialCreateFailed (category : ResourceTag) (index : Z)
  | LogHeaderTooSmall
  | LogHeaderLength
  | LogHeaderVersion
  | LogHeaderVendor
  | LogHeaderDevice
  | LogHeaderUUID
  | LogBlankCache
  | LogCacheRetryBlank
  | LogCacheFailed
  | LogDeviceFailed
  | LogParseException (category : ResourceTag) (h : Z)
  | LogReadFailed
  | LogHashListFailed
  | LogPrepareFailed.

(** [VkPhysicalDeviceProperties], the fields the replayer reads. *)
Record VkPhysicalDeviceProperties := {
  vendorID : Z;
  deviceID : Z;
  pipelineCacheUUID : list byte
}.

(** ** The pipeline-cache header validator *)

Definition byte_val (b : byte) : Z := Z.of_N (Byte.to_N b).

(** [blob[i]] for an index the size check has admitted. *)
Definition blob_at (blob : list byte) (i : nat) : byte := nth i blob "000"%byte.

(** The [read_le] lambda: four bytes widened to [uint32_t], shifted and
    or-ed together. *)
Definition read_le (blob : list byte) (offset : nat) : Z :=
  Z.lor (wrap32 (byte_val (blob_at blob (offset + 0)%nat)))
    (Z.lor (wrap32 (Z.shiftl (byte_val (blob_at blob (offset + 1)%nat)) 8))
       (Z.lor (wrap32 (Z.shiftl (byte_val (blob_at blob (offset + 2)%nat)) 16))
              (wrap32 (Z.shiftl (byte_val (blob_at blob (offset + 3)%nat)) 24)))).

(** [memcmp(a, b, n)]: zero when the first [n] bytes agree, otherwise the
    difference of the first pair that differs. *)
Fixpoint memcmp (a b : list byte) (n : nat) {struct n} : Z :=
  match n with
  | O => 0
  | S n' =>
      match a, b with
      | x :: a', y :: b' =>
          if Byte.eqb x y then memcmp a' b' n' else byte_val x - byte_val y
      | _, _ => 0
      end
  end.

(** [ThreadedReplayer::validate_pipeline_cache_header]; [props] is what
    [vkGetPhysicalDeviceProperties] fills in.  The result carries the line
    that was logged on rejection. *)
Definition validate_pipeline_cache_header
    (props : VkPhysicalDeviceProperties) (blob : list byte) : bool * list LogEntry :=
  if Z.of_nat (length blob) <? 16 + VK_UUID_SIZE then (false, [LogHeaderTooSmall])
  else
    let length_ := read_le blob 0 in
    if negb (length_ =? 16 + VK_UUID_SIZE) then (false, [LogHeaderLength])
    else
      let version := read_le blob 4 in
      if negb (version =? VK_PIPELINE_CACHE_HEADER_VERSION_ONE) then (false, [LogHeaderVersion])
      else if negb (vendorID props =? read_le blob 8) then (false, [LogHeaderVendor])
      else if negb (deviceID props =? read_le blob 12) then (false, [LogHeaderDevice])
      else if negb (memcmp (pipelineCacheUUID props) (skipn 16 blob) (Z.to_nat VK_UUID_SIZE) =? 0)
           then (false, [LogHeaderUUID])
      else (true, []).

(** The header as the format describes it: a little-endian 32-bit field at
    a byte offset, and the 16 bytes after the four fields. *)
Definition le_u32 (blob : list byte) (offset : nat) : Z :=
  byte_val (blob_at blob offset)
  + 2 ^ 8 * byte_val (blob_at blob (offset + 1))
  + 2 ^ 16 * byte_val (blob_at blob (offset + 2))
  + 2 ^ 24 * byte_val (blob_at blob (offset + 3)).

Definition header_uuid (blob : list byte) : list byte :=
  firstn (Z.to_nat VK_UUID_SIZE) (skipn 16 blob).

(** ** The replayer object *)

Module Options.
(** [ThreadedReplayer::Options]. *)
Record t := {
  pipeline_cache : bool;
  on_disk_pipeline_cache_path : string;
  num_threads : Z;
  loop_count : Z
}.

(** The default member initialisers; [hardware_concurrency] is what
    [thread::hardware_concurrency()] answers. *)
Definition default (hardware_concurrency : Z) : t :=
  {| pipeline_cache := false;
     on_disk_pipeline_cache_path := EmptyString;
     num_threads := hardware_concurrency;
     loop_count := 1 |}.

Definition set_pipeline_cache (v : bool) (o : t) : t :=
  {| pipeline_cache := v;
     on_disk_pipeline_cache_path := on_disk_pipeline_cache_path o;
     num_threads := num_threads o;
     loop_count := loop_count o |}.

Definition set_on_disk_pipeline_cache_path (v : string) (o : t) : t :=
  {| pipeline_cache := pipeline_cache o;
     on_disk_pipeline_cache_path := v;
     num_threads := num_threads o;
     loop_count := loop_count o |}.

Definition set_num_threads (v : Z) (o : t) : t :=
  {| pipeline_cache := pipeline_cache o;
     on_disk_pipeline_cache_path := on_disk_pipeline_cache_path o;
     num_threads := v;
     loop_count := loop_count o |}.

Definition set_loop_count (v : Z) (o : t) : t :=
  {| pipeline_cache := pipeline_cache o;
     on_disk_pipeline_cache_path := on_disk_pipeline_cache_path o;
     num_threads := num_threads o;
     loop_count := v |}.
End Options.

(** [PipelineWorkItem].  The three unions are read through the member that
    [tag] selects.  [create_info] and [output] are addresses owned by the
    deserializer; [hash_map_entry] is the address of a value inside one of
    the replayer's [unordered_map]s, which stays put while the map grows: the
    map and the key stand for the pointer. *)
Record PipelineWorkItem := {
  hash : Z;
  tag : ResourceTag;
  create_info : Z;
  output : Z;
  hash_map_entry : ResourceTag * Z
}.

(** Where a thread of [thread_pool] is in [worker_thread]. *)
Inductive Worker :=
  | Waiting
  | Popped (item : PipelineWorkItem)
  | Executed (item : PipelineWorkItem)
  | Exited.

(** The members of [ThreadedReplayer].  [registry] holds the seven
    [unordered_map]s, one per category ([samplers], [layouts], ... below),
    [stat_ns] and [stat_count] the six atomics. *)
Record ThreadedReplayer := {
  opts : Options.t;
  filter_graphics : gset Z;
  filter_compute : gset Z;
  registry : ResourceTag -> gmap Z Z;
  pipeline_cache : Z;
  num_worker_threads : Z;
  loop_count : Z;
  queued_count : Z;
  completed_count : Z;
  thread_pool : list Worker;
  pipeline_work_queue : list PipelineWorkItem;
  stat_ns : ResourceTag -> Z;
  stat_count : ResourceTag -> Z;
  shutting_down : bool;
  device_was_init : bool
}.

Definition samplers (r : ThreadedReplayer) := registry r RESOURCE_SAMPLER.
Definition layouts (r : ThreadedReplayer) := registry r RESOURCE_DESCRIPTOR_SET_LAYOUT.
Definition pipeline_layouts (r : ThreadedReplayer) := registry r RESOURCE_PIPELINE_LAYOUT.
Definition shader_modules (r : ThreadedReplayer) := registry r RESOURCE_SHADER_MODULE.
Definition render_passes (r : ThreadedReplayer) := registry r RESOURCE_RENDER_PASS.
Definition compute_pipelines (r : ThreadedReplayer) := registry r RESOURCE_COMPUTE_PIPELINE.
Definition graphics_pipelines (r : ThreadedReplayer) := registry r RESOURCE_GRAPHICS_PIPELINE.

Definition graphics_pipeline_ns (r : ThreadedReplayer) := stat_ns r RESOURCE_GRAPHICS_PIPELINE.
Definition compute_pipeline_ns (r : ThreadedReplayer) := stat_ns r RESOURCE_COMPUTE_PIPELINE.
Definition shader_module_ns (r : ThreadedReplayer) := stat_ns r RESOURCE_SHADER_MODULE.
Definition graphics_pipeline_count (r : ThreadedReplayer) := stat_count r RESOURCE_GRAPHICS_PIPELINE.
Definition compute_pipeline_count (r : ThreadedReplayer) := stat_count r RESOURCE_COMPUTE_PIPELINE.
Definition shader_module_count (r : ThreadedReplayer) := stat_count r RESOURCE_SHADER_MODULE.

(** A function updated at one point: one map, or one atomic, of the bank. *)
Definition upd {A} (f : ResourceTag -> A) (c : ResourceTag) (v : A) : ResourceTag -> A :=
  fun c' => if decide (c' = c) then v else f c'.

Definition set_registry v r :=
  Build_ThreadedReplayer (opts r) (filter_graphics r) (filter_compute r) v (pipeline_cache r)
    (num_worker_threads r) (loop_count r) (queued_count r) (completed_count r) (thread_pool r)
    (pipeline_work_queue r) (stat_ns r) (stat_count r) (shutting_down r) (device_was_init r).
Definition set_pipeline_cache v r :=
  Build_ThreadedReplayer (opts r) (filter_graphics r) (filter_compute r) (registry r) v
    (num_worker_threads r) (loop_count r) (queued_count r) (completed_count r) (thread_pool r)
    (pipeline_work_queue r) (stat_ns r) (stat_count r) (shutting_down r) (device_was_init r).
Definition set_queued_count v r :=
  Build_ThreadedReplayer (opts r) (filter_graphics r) (filter_compute r) (registry r) (pipeline_cache r)
    (num_worker_threads r) (loop_count r) v (completed_count r) (thread_pool r)
    (pipeline_work_queue r) (stat_ns r) (stat_count r) (shutting_down r) (device_was_init r).
Definition set_completed_count v r :=
  Build_ThreadedReplayer (opts r) (filter_graphics r) (filter_compute r) (registry r) (pipeline_cache r)
    (num_worker_threads r) (loop_count r) (queued_count r) v (thread_pool r)
    (pipeline_work_queue r) (stat_ns r) (stat_count r) (shutting_down r) (device_was_init r).
Definition set_thread_pool v r :=
  Build_ThreadedReplayer (opts r) (filter_graphics r) (filter_compute r) (registry r) (pipeline_cache r)
    (num_worker_threads r) (loop_count r) (queued_count r) (completed_count r) v
    (pipeline_work_queue r) (stat_ns r) (stat_count r) (shutting_down r) (device_was_init r).
Definition set_pipeline_work_queue v r :=
  Build_ThreadedReplayer (opts r) (filter_graphics r) (filter_compute r) (registry r) (pipeline_cache r)
    (num_worker_threads r) (loop_count r) (queued_count r) (completed_count r) (thread_pool r)
    v (stat_ns r) (stat_count r) (shutting_down r) (device_was_init r).
Definition set_stat_ns v r :=
  Build_ThreadedReplayer (opts r) (filter_graphics r) (filter_compute r) (registry r) (pipeline_cache r)
    (num_worker_threads r) (loop_count r) (queued_count r) (completed_count r) (thread_pool r)
    (pipeline_work_queue r) v (stat_count r) (shutting_down r) (device_was_init r).
Definition set_stat_count v r :=
  Build_ThreadedReplayer (opts r) (filter_graphics r) (filter_compute r) (registry r) (pipeline_cache r)
    (num_worker_threads r) (loop_count r) (queued_count r) (completed_count r) (thread_pool r)
    (pipeline_work_queue r) (stat_ns r) v (shutting_down r) (device_was_init r).
Definition set_shutting_down v r :=
  Build_ThreadedReplayer (opts r) (filter_graphics r) (filter_compute r) (registry r) (pipeline_cache r)
    (num_worker_threads r) (loop_count r) (queued_count r) (completed_count r) (thread_pool r)
    (pipeline_work_queue r) (stat_ns r) (stat_count r) v (device_was_init r).
Definition set_device_was_init v r :=
  Build_ThreadedReplayer (opts r) (filter_graphics r) (filter_compute r) (registry r) (pipeline_cache r)
    (num_worker_threads r) (loop_count r) (queued_count r) (completed_count r) (thread_pool r)
    (pipeline_work_queue r) (stat_ns r) (stat_count r) (shutting_down r) v.

(** The constructor: the atomics are stored zero and [num_worker_threads]
    threads are started, each entering [worker_thread]. *)
Definition ThreadedReplayer_new (opts_ : Options.t) (graphics compute : gset Z) : ThreadedReplayer :=
  {| opts := opts_;
     filter_graphics := graphics;
     filter_compute := compute;
     registry := fun _ => ∅;
     pipeline_cache := VK_NULL_HANDLE;
     num_worker_threads := Options.num_threads opts_;
     loop_count := Options.loop_count opts_;
     queued_count := 0;
     completed_count := 0;
     thread_pool := repeat Waiting (Z.to_nat (Options.num_threads opts_));
     pipeline_work_queue := [];
     stat_ns := fun _ => 0;
     stat_count := fun _ => 0;
     shutting_down := false;
     device_was_init := false |}.

(** ** The database and what [main] still has to do *)

(** Modelled from the spec: the descriptor deserializer [StateReplayer::parse]
    of [fossilize.cpp] is not among these sources; it "consumes a blob and
    invokes the scheduler's enqueue operations".  A blob is what it makes of
    the bytes: it throws, or it calls the callback of the record's category
    with the record's hash, a create-info and an output slot. *)
Inductive Blob :=
  | BlobMalformed
  | BlobRecord (create_info : Z) (output : Z).

(** The archive behind [create_database]: the answers of [prepare],
    [get_hash_list_for_resource_tag] and [read_entry]. *)
Record Database := {
  prepare : bool;
  get_hash_list_for_resource_tag : ResourceTag -> option (list Z);
  read_entry : ResourceTag -> Z -> option Blob
}.

(** The statements of [main] after the replayer is constructed, unrolled
    over the archive. *)
Inductive DriverOp :=
  | OpParse (tag_ : ResourceTag) (h : Z) (blob : Blob)
  | OpSync
  | OpLog (e : LogEntry)
  | OpReport
  | OpShutdown
  | OpJoin (code : Z).

(** The [double] of the target: IEEE 754 binary64, whose conversions and
    products round to nearest, ties to even. *)
Abbreviation double := SpecFloat.spec_float (only parsing).

(** The conversion of a [uint64_t] to [double]. *)
Definition double_of_uint64 (n : Z) : double := SpecFloat.binary_normalize 53 1024 n 0 false.

(** The literal [1e-9]: [0x1.12e0be826d695p-30], the double nearest to
    10^-9. *)
Definition double_1e_9 : double := SpecFloat.S754_finite false 4835703278458517 (-82).

(** [ns.load() * 1e-9]. *)
Definition seconds (ns : Z) : double := SpecFloat.SFmul 53 1024 (double_of_uint64 ns) double_1e_9.

(** [num / den] rounded to the nearest integer, ties to the even one. *)
Definition round_half_even (num den : Z) : Z :=
  let q := num / den in
  let r := num mod den in
  if 2 * r <? den then q
  else if den <? 2 * r then q + 1
  else if Z.even q then q else q + 1.

(** What the conversion [%.3f] prints of a [double]: the sign and the
    thousandths of the decimal, which is the exact value of the double
    rounded to three places, to nearest and ties to even, as the C library
    of the target rounds it; or "inf", or "nan". *)
Inductive Printed :=
  | Decimal3 (negative : bool) (thousandths : Z)
  | PrintedInf (negative : bool)
  | PrintedNan.

Definition printf_3f (x : double) : Printed :=
  match x with
  | SpecFloat.S754_zero s => Decimal3 s 0
  | SpecFloat.S754_infinity s => PrintedInf s
  | SpecFloat.S754_nan => PrintedNan
  | SpecFloat.S754_finite s m e =>
      Decimal3 s (if 0 <=? e then Z.pos m * 1000 * 2 ^ e
                  else round_half_even (Z.pos m * 1000) (2 ^ (- e)))
  end.

(** What the three "Playing back" lines load from the atomics:
    [<c>_count.load()], which is printed as it is with [%u], and
    [<c>_ns.load()], which is not printed. *)
Record Report := {
  report_count : ResourceTag -> Z;
  loaded_ns : ResourceTag -> Z
}.


(** The running program: the replayer, the output slots that the
    deserializer owns, the driver calls and log lines so far, what [main]
    still has to execute, the report once it is printed and the exit code
    once the process has ended. *)
Record Process := {
  replayer : ThreadedReplayer;
  outputs : gmap Z Z;
  vk_trace : list VkCall;
  log : list LogEntry;
  script : list DriverOp;
  reported : option Report;
  exited : option Z
}.

Definition set_replayer v p :=
  Build_Process v (outputs p) (vk_trace p) (log p) (script p) (reported p) (exited p).
Definition set_outputs v p :=
  Build_Process (replayer p) v (vk_trace p) (log p) (script p) (reported p) (exited p).
Definition set_vk_trace v p :=
  Build_Process (replayer p) (outputs p) v (log p) (script p) (reported p) (exited p).
Definition set_log v p :=
  Build_Process (replayer p) (outputs p) (vk_trace p) v (script p) (reported p) (exited p).
Definition set_script v p :=
  Build_Process (replayer p) (outputs p) (vk_trace p) (log p) v (reported p) (exited p).
Definition set_reported v p :=
  Build_Process (replayer p) (outputs p) (vk_trace p) (log p) (script p) v (exited p).
Definition set_exited v p :=
  Build_Process (replayer p) (outputs p) (vk_trace p) (log p) (script p) (reported p) v.

Definition upd_replayer (f : ThreadedReplayer -> ThreadedReplayer) (p : Process) : Process :=
  set_replayer (f (replayer p)) p.

Definition vk_call (c : VkCall) (p : Process) : Process := set_vk_trace (vk_trace p ++ [c]) p.
Definition log_line (e : LogEntry) (p : Process) : Process := set_log (log p ++ [e]) p.

(** [*slot = h] and [*slot] for an output slot of the deserializer. *)
Definition write_output (slot h : Z) (p : Process) : Process :=
  set_outputs (<[slot := h]> (outputs p)) p.
Definition read_output (slot : Z) (p : Process) : Z :=
  default VK_NULL_HANDLE (outputs p !! slot).

(** [&map[key]]: [operator[]] value-initialises the entry when the key is
    absent, and answers the address of the value. *)
Definition map_entry (c : ResourceTag) (key : Z) (p : Process) : Process :=
  match registry (replayer p) c !! key with
  | Some _ => p
  | None => upd_replayer (fun r => set_registry (upd (registry r) c (<[key := VK_NULL_HANDLE]> (registry r c))) r) p
  end.

(** [*entry] and [*entry = h] through such an address. *)
Definition entry_read (entry : ResourceTag * Z) (p : Process) : Z :=
  default VK_NULL_HANDLE (registry (replayer p) entry.1 !! entry.2).
Definition entry_write (entry : ResourceTag * Z) (h : Z) (p : Process) : Process :=
  upd_replayer (fun r => set_registry (upd (registry r) entry.1 (<[entry.2 := h]> (registry r entry.1))) r) p.

(** ** The enqueue facade *)

(** The body shared by [enqueue_create_sampler],
    [enqueue_create_descriptor_set_layout], [enqueue_create_pipeline_layout]
    and [enqueue_create_render_pass]: the object is created in place; on
    failure the index is logged and the answer is [false], otherwise
    [map[index] = *out] and the answer is [true]. *)
Definition enqueue_create_inline (c : ResourceTag) (index info out : Z)
    (result : VkOutcome) (p : Process) : Process * bool :=
  match result with
  | VkError =>
      (log_line (LogTrivialCreateFailed c index) (vk_call (VkCreate c info VkError) p), false)
  | VkSuccess h =>
      let p1 := write_output out h (vk_call (VkCreate c info (VkSuccess h)) p) in
      (entry_write (c, index) (read_output out p1) p1, true)
  end.

Definition enqueue_create_sampler := enqueue_create_inline RESOURCE_SAMPLER.
Definition enqueue_create_descriptor_set_layout := enqueue_create_inline RESOURCE_DESCRIPTOR_SET_LAYOUT.
Definition enqueue_create_pipeline_layout := enqueue_create_inline RESOURCE_PIPELINE_LAYOUT.
Definition enqueue_create_render_pass := enqueue_create_inline RESOURCE_RENDER_PASS.

(** The block under [lock_guard]: [push], [notify_one], [queued_count++]. *)
Definition push_work_item (item : PipelineWorkItem) (p : Process) : Process :=
  upd_replayer (fun r =>
    set_queued_count (wrap32 (queued_count r + 1))
      (set_pipeline_work_queue (pipeline_work_queue r ++ [item]) r)) p.

Definition enqueue_create_shader_module (hash_ info module : Z) (p : Process) : Process * bool :=
  let work_item :=
    {| hash := hash_;
       tag := RESOURCE_SHADER_MODULE;
       create_info := info;
       output := module;
       hash_map_entry := (RESOURCE_SHADER_MODULE, hash_) |} in
  (push_work_item work_item (map_entry RESOURCE_SHADER_MODULE hash_ p), true).

(** The conditions of the two [if]s. *)
Definition compute_selected (r : ThreadedReplayer) (hash_ : Z) : bool :=
  (bool_decide (filter_compute r = ∅) && bool_decide (filter_graphics r = ∅))
  || bool_decide (hash_ ∈ filter_compute r).
Definition graphics_selected (r : ThreadedReplayer) (hash_ : Z) : bool :=
  (bool_decide (filter_graphics r = ∅) && bool_decide (filter_compute r = ∅))
  || bool_decide (hash_ ∈ filter_graphics r).

Definition enqueue_create_compute_pipeline (hash_ info pipeline : Z) (p : Process) : Process * bool :=
  if compute_selected (replayer p) hash_ then
    let work_item :=
      {| hash := hash_;
         tag := RESOURCE_COMPUTE_PIPELINE;
         create_info := info;
         output := pipeline;
         hash_map_entry := (RESOURCE_COMPUTE_PIPELINE, hash_) |} in
    (push_work_item work_item (map_entry RESOURCE_COMPUTE_PIPELINE hash_ p), true)
  else (write_output pipeline VK_NULL_HANDLE p, true).

Definition enqueue_create_graphics_pipeline (hash_ info pipeline : Z) (p : Process) : Process * bool :=
  if graphics_selected (replayer p) hash_ then
    let work_item :=
      {| hash := hash_;
         tag := RESOURCE_GRAPHICS_PIPELINE;
         create_info := info;
         output := pipeline;
         hash_map_entry := (RESOURCE_GRAPHICS_PIPELINE, hash_) |} in
    (push_work_item work_item (map_entry RESOURCE_GRAPHICS_PIPELINE hash_ p), true)
  else (write_output pipeline VK_NULL_HANDLE p, true).

(** ** The worker *)

Definition is_deferred (c : ResourceTag) : bool :=
  match c with
  | RESOURCE_SHADER_MODULE | RESOURCE_GRAPHICS_PIPELINE | RESOURCE_COMPUTE_PIPELINE => true
  | _ => false
  end.

(** [<c>_ns += duration_ns; <c>_count++] on the atomics of category [c]. *)
Definition account (c : ResourceTag) (duration_ns : Z) (p : Process) : Process :=
  upd_replayer (fun r =>
    set_stat_count (upd (stat_count r) c (wrap32 (stat_count r c + 1)))
      (set_stat_ns (upd (stat_ns r) c (wrap64 (stat_ns r c + duration_ns))) r)) p.

(** The body of the [for] loop, the same in the three [case]s up to the
    create and destroy entry points of the category: destroy what the slot
    holds, null it, time the create; on success account for it and copy
    [*output] into the slot, otherwise log the hash. *)
Definition replay_once (item : PipelineWorkItem) (result : CreateResult) (p : Process) : Process :=
  let c := tag item in
  let p1 :=
    if bool_decide (entry_read (hash_map_entry item) p ≠ VK_NULL_HANDLE)
    then vk_call (VkDestroy c (entry_read (hash_map_entry item) p)) p
    else p in
  let p2 := entry_write (hash_map_entry item) VK_NULL_HANDLE p1 in
  match result with
  | Created h duration_ns =>
      let p3 := write_output (output item) h (vk_call (VkCreateTimed c (create_info item) result) p2) in
      let p4 := account c duration_ns p3 in
      entry_write (hash_map_entry item) (read_output (output item) p4) p4
  | CreateFailed =>
      log_line (LogWorkerCreateFailed c (hash item))
        (vk_call (VkCreateTimed c (create_info item) CreateFailed) p2)
  end.

(** [for (unsigned i = 0; i < loop_count; i++)]: [n] iterations are left and
    [i] is the index of the next one; [results i] is what the driver answers
    to the create of iteration [i]. *)
Fixpoint replay_loop (n : nat) (i : nat) (item : PipelineWorkItem)
    (results : nat -> CreateResult) (p : Process) : Process :=
  match n with
  | O => p
  | S n' => replay_loop n' (S i) item results (replay_once item (results i) p)
  end.

(** The [switch (work_item.tag)]. *)
Definition run_work_item (item : PipelineWorkItem) (results : nat -> CreateResult)
    (p : Process) : Process :=
  match tag item with
  | RESOURCE_SHADER_MODULE
  | RESOURCE_GRAPHICS_PIPELINE
  | RESOURCE_COMPUTE_PIPELINE =>
      replay_loop (Z.to_nat (loop_count (replayer p))) 0 item results p
  | _ => p
  end.

Definition set_worker (w : nat) (st : Worker) (p : Process) : Process :=
  upd_replayer (fun r => set_thread_pool (<[w := st]> (thread_pool r)) r) p.

(** The six [fetch_add]s after the loop.  The locals they add
    ([graphics_count], [graphics_ns], ...) are never written and hold zero. *)
Definition flush_locals (p : Process) : Process :=
  upd_replayer (fun r =>
    let add32 f c := upd f c (wrap32 (f c + 0)) in
    let add64 f c := upd f c (wrap64 (f c + 0)) in
    set_stat_ns
      (add64 (add64 (add64 (stat_ns r) RESOURCE_GRAPHICS_PIPELINE) RESOURCE_COMPUTE_PIPELINE)
         RESOURCE_SHADER_MODULE)
      (set_stat_count
         (add32 (add32 (add32 (stat_count r) RESOURCE_GRAPHICS_PIPELINE) RESOURCE_COMPUTE_PIPELINE)
            RESOURCE_SHADER_MODULE) r)) p.

(** The first critical section of the loop: the wait returns once
    [shutting_down] or the queue is not empty; on shutdown the thread leaves
    the loop, otherwise it takes the front item.  [None]: still waiting. *)
Definition worker_pop (w : nat) (p : Process) : option Process :=
  match thread_pool (replayer p) !! w with
  | Some Waiting =>
      if shutting_down (replayer p) then Some (set_worker w Exited (flush_locals p))
      else
        match pipeline_work_queue (replayer p) with
        | [] => None
        | work_item :: rest =>
            Some (set_worker w (Popped work_item)
                    (upd_replayer (set_pipeline_work_queue rest) p))
        end
  | _ => None
  end.

(** The [switch], outside any lock, taken as one move.  Its iterations read
    and write the registry slot and the output slot of the work item, the
    atomics and the driver.  Two work items have the same registry slot only
    when a list of hashes of the archive names a hash twice; while no two
    items in flight share a slot, the iterations of different workers commute
    and one move stands for their interleavings.  When two workers hold items
    of one slot, the program can interleave their iterations in ways this
    move does not show, and a handle that one of them stores can be
    overwritten by the other: the balance of creates and destroys is
    therefore stated for archives with [distinct_hashes] only. *)
Definition worker_exec (w : nat) (results : nat -> CreateResult) (p : Process) : option Process :=
  match thread_pool (replayer p) !! w with
  | Some (Popped work_item) =>
      Some (set_worker w (Executed work_item) (run_work_item work_item results p))
  | _ => None
  end.

(** The second critical section: [completed_count++], and the main thread
    is signalled when the counters meet. *)
Definition worker_done (w : nat) (p : Process) : option Process :=
  match thread_pool (replayer p) !! w with
  | Some (Executed _) =>
      Some (set_worker w Waiting
              (upd_replayer (fun r => set_completed_count (wrap32 (completed_count r + 1)) r) p))
  | _ => None
  end.

(** ** Device and pipeline-cache set-up *)

(** What the outside world answers during [set_application_info]:
    [init_device], the device properties, the bytes of the cache file
    ([None] when [fopen] fails), whether [fread] delivers them all, and the
    results of the first and the second [vkCreatePipelineCache]. *)
Record DeviceEnv := {
  init_device : bool;
  props : VkPhysicalDeviceProperties;
  cache_file : option (list byte);
  fread_complete : bool;
  create_cache_first : VkOutcome;
  create_cache_retry : VkOutcome
}.

(** The initial data [set_application_info] hands to the first
    [vkCreatePipelineCache], with the lines logged on the way. *)
Definition load_on_disk_cache (o : Options.t) (env : DeviceEnv) : list byte * list LogEntry :=
  if negb (String.eqb (Options.on_disk_pipeline_cache_path o) EmptyString) then
    match cache_file env with
    | Some bytes =>
        if negb (length bytes =? 0)%nat then
          if fread_complete env then
            let (valid, lines) := validate_pipeline_cache_header (props env) bytes in
            if valid then (bytes, lines) else ([], lines ++ [LogBlankCache])
          else ([], [])
        else ([], [])
    | None => ([], [])
    end
  else ([], []).

Definition set_application_info (env : DeviceEnv) (p : Process) : Process :=
  if negb (device_was_init (replayer p)) then
    let p1 := upd_replayer (set_device_was_init true) p in
    if negb (init_device env) then
      set_exited (Some EXIT_FAILURE) (log_line LogDeviceFailed p1)
    else if Options.pipeline_cache (opts (replayer p1)) then
      let (initial_data, lines) := load_on_disk_cache (opts (replayer p1)) env in
      let p2 := set_log (log p1 ++ lines) p1 in
      let p3 := vk_call (VkCreatePipelineCache initial_data (create_cache_first env)) p2 in
      match create_cache_first env with
      | VkSuccess h => upd_replayer (set_pipeline_cache h) p3
      | VkError =>
          let p4 := vk_call (VkCreatePipelineCache [] (create_cache_retry env))
                      (log_line LogCacheRetryBlank p3) in
          match create_cache_retry env with
          | VkSuccess h => upd_replayer (set_pipeline_cache h) p4
          | VkError => upd_replayer (set_pipeline_cache VK_NULL_HANDLE) (log_line LogCacheFailed p4)
          end
      end
    else p1
  else p.

(** ** The main thread *)

(** What the outside world answers while the main thread executes one
    statement: the result of an inline create and the device set-up. *)
Record MainEnv := {
  inline_result : VkOutcome;
  device_env : DeviceEnv
}.

(** Modelled from the spec: [StateReplayer::parse] on one blob, inside the
    [try] of [main].  A malformed blob throws and [main] logs the category
    and the hash; a record calls the callback of its category. *)
Definition parse (env : MainEnv) (c : ResourceTag) (h : Z) (blob : Blob) (p : Process) : Process :=
  match blob with
  | BlobMalformed => log_line (LogParseException c h) p
  | BlobRecord info out =>
      match c with
      | RESOURCE_APPLICATION_INFO => set_application_info (device_env env) p
      | RESOURCE_SAMPLER => (enqueue_create_sampler h info out (inline_result env) p).1
      | RESOURCE_DESCRIPTOR_SET_LAYOUT =>
          (enqueue_create_descriptor_set_layout h info out (inline_result env) p).1
      | RESOURCE_PIPELINE_LAYOUT => (enqueue_create_pipeline_layout h info out (inline_result env) p).1
      | RESOURCE_RENDER_PASS => (enqueue_create_render_pass h info out (inline_result env) p).1
      | RESOURCE_SHADER_MODULE => (enqueue_create_shader_module h info out p).1
      | RESOURCE_GRAPHICS_PIPELINE => (enqueue_create_graphics_pipeline h info out p).1
      | RESOURCE_COMPUTE_PIPELINE => (enqueue_create_compute_pipeline h info out p).1
      | RESOURCE_COUNT => p
      end
  end.

Definition playback_order : list ResourceTag :=
  [ RESOURCE_APPLICATION_INFO;
    RESOURCE_SHADER_MODULE;
    RESOURCE_SAMPLER;
    RESOURCE_DESCRIPTOR_SET_LAYOUT;
    RESOURCE_PIPELINE_LAYOUT;
    RESOURCE_RENDER_PASS;
    RESOURCE_GRAPHICS_PIPELINE;
    RESOURCE_COMPUTE_PIPELINE ].

(** The inner [for] over the hashes of one category: the statements it
    executes, and whether it ran to the end ([false]: [read_entry] failed and
    [main] returns [EXIT_FAILURE]). *)
Fixpoint play_hashes (db : Database) (c : ResourceTag) (hashes : list Z) : list DriverOp * bool :=
  match hashes with
  | [] => ([], true)
  | h :: rest =>
      match read_entry db c h with
      | None => ([OpLog LogReadFailed], false)
      | Some blob =>
          let (ops, ok) := play_hashes db c rest in
          (OpParse c h blob :: ops, ok)
      end
  end.

(** The outer [for] over [playback_order], with the barrier after the
    render passes. *)
Fixpoint play_tags (db : Database) (tags : list ResourceTag) : list DriverOp * bool :=
  match tags with
  | [] => ([], true)
  | c :: rest =>
      match get_hash_list_for_resource_tag db c with
      | None => ([OpLog LogHashListFailed], false)
      | Some resource_hashes =>
          let (ops, ok) := play_hashes db c resource_hashes in
          if ok then
            let barrier := if decide (c = RESOURCE_RENDER_PASS) then [OpSync] else [] in
            let (ops', ok') := play_tags db rest in
            (ops ++ barrier ++ ops', ok')
          else (ops, false)
      end
  end.

(** [main] from [create_database] on.  Every [return] runs
    [~ThreadedReplayer], which raises [shutting_down] and joins the pool. *)
Definition main_script (db : Database) : list DriverOp :=
  if prepare db then
    let (ops, ok) := play_tags db playback_order in
    if ok then ops ++ [OpSync; OpReport; OpShutdown; OpJoin EXIT_SUCCESS]
    else ops ++ [OpShutdown; OpJoin EXIT_FAILURE]
  else [OpLog LogPrepareFailed; OpShutdown; OpJoin EXIT_FAILURE].

Definition make_report (r : ThreadedReplayer) : Report :=
  {| report_count := stat_count r; loaded_ns := stat_ns r |}.

Definition all_exited (pool : list Worker) : bool :=
  forallb (fun st => match st with Exited => true | _ => false end) pool.

(** One statement of the main thread.  [None]: it is blocked, in
    [sync_worker_threads] while the counters differ or in [join] while a
    worker is still running, or it has nothing left to do. *)
Definition main_step (env : MainEnv) (p : Process) : option Process :=
  match script p with
  | [] => None
  | op :: rest =>
      match op with
      | OpParse c h blob => Some (set_script rest (parse env c h blob p))
      | OpSync =>
          if queued_count (replayer p) =? completed_count (replayer p)
          then Some (set_script rest p) else None
      | OpLog e => Some (set_script rest (log_line e p))
      | OpReport => Some (set_script rest (set_reported (Some (make_report (replayer p))) p))
      | OpShutdown => Some (set_script rest (upd_replayer (set_shutting_down true) p))
      | OpJoin code =>
          if all_exited (thread_pool (replayer p))
          then Some (set_script rest (set_exited (Some code) p)) else None
      end
  end.

(** ** Interleavings *)

(** Which thread moves next, with the answers of the outside world to it. *)
Inductive Label :=
  | LMain (env : MainEnv)
  | LPop (w : nat)
  | LExec (w : nat) (results : nat -> CreateResult)
  | LDone (w : nat).

(** One move; nothing moves once the process has ended. *)
Definition step (l : Label) (p : Process) : option Process :=
  match exited p with
  | Some _ => None
  | None =>
      match l with
      | LMain env => main_step env p
      | LPop w => worker_pop w p
      | LExec w results => worker_exec w results p
      | LDone w => worker_done w p
      end
  end.

(** A schedule, executed from left to right. *)
Fixpoint run (ls : list Label) (p : Process) : option Process :=
  match ls with
  | [] => Some p
  | l :: ls' =>
      match step l p with
      | Some p' => run ls' p'
      | None => None
      end
  end.

(** ** [main] up to the construction of the replayer *)

(** The variables of [main] that the command line fills in. *)
Record MainVars := {
  json_path : string;
  device_index : Z;
  enable_validation : bool;
  replayer_opts : Options.t;
  main_filter_graphics : gset Z;
  main_filter_compute : gset Z;
  ended : bool
}.

(** The callbacks registered in [cbs], as [CLIParser] invokes them. *)
Inductive CliCallback :=
  | CbDefault (arg : string)
  | CbHelp
  | CbDeviceIndex (n : Z)
  | CbEnableValidation
  | CbPipelineCache
  | CbOnDiskPipelineCache (path : string)
  | CbFilterCompute (n : Z)
  | CbFilterGraphics (n : Z)
  | CbNumThreads (n : Z)
  | CbLoop (n : Z).

Definition main_vars_init (hardware_concurrency : Z) : MainVars :=
  {| json_path := EmptyString;
     device_index := 0;
     enable_validation := false;
     replayer_opts := Options.default hardware_concurrency;
     main_filter_graphics := ∅;
     main_filter_compute := ∅;
     ended := false |}.

Definition call_back (v : MainVars) (cb : CliCallback) : MainVars :=
  let with_opts o :=
    Build_MainVars (json_path v) (device_index v) (enable_validation v) o
      (main_filter_graphics v) (main_filter_compute v) (ended v) in
  match cb with
  | CbDefault arg =>
      Build_MainVars arg (device_index v) (enable_validation v) (replayer_opts v)
        (main_filter_graphics v) (main_filter_compute v) (ended v)
  | CbHelp =>
      Build_MainVars (json_path v) (device_index v) (enable_validation v) (replayer_opts v)
        (main_filter_graphics v) (main_filter_compute v) true
  | CbDeviceIndex n =>
      Build_MainVars (json_path v) n (enable_validation v) (replayer_opts v)
        (main_filter_graphics v) (main_filter_compute v) (ended v)
  | CbEnableValidation =>
      Build_MainVars (json_path v) (device_index v) true (replayer_opts v)
        (main_filter_graphics v) (main_filter_compute v) (ended v)
  | CbPipelineCache => with_opts (Options.set_pipeline_cache true (replayer_opts v))
  | CbOnDiskPipelineCache path =>
      with_opts (Options.set_on_disk_pipeline_cache_path path (replayer_opts v))
  | CbFilterCompute n =>
      Build_MainVars (json_path v) (device_index v) (enable_validation v) (replayer_opts v)
        (main_filter_graphics v) ({[ n ]} ∪ main_filter_compute v) (ended v)
  | CbFilterGraphics n =>
      Build_MainVars (json_path v) (device_index v) (enable_validation v) (replayer_opts v)
        ({[ n ]} ∪ main_filter_graphics v) (main_filter_compute v) (ended v)
  | CbNumThreads n => with_opts (Options.set_num_threads n (replayer_opts v))
  | CbLoop n => with_opts (Options.set_loop_count n (replayer_opts v))
  end.

(** What [CLIParser::parse] does with [argv]: the callbacks it invokes, in
    order, and its answer. *)
Record CommandLine := {
  callbacks : list CliCallback;
  parse_succeeds : bool
}.

(** The two adjustments of the options before the replayer is built. *)
Definition adjust_options (o : Options.t) : Options.t :=
  let o1 := if Options.num_threads o <? 1 then Options.set_num_threads 1 o else o in
  if negb (String.eqb (Options.on_disk_pipeline_cache_path o1) EmptyString)
  then Options.set_pipeline_cache true o1 else o1.

(** [main]: either it returns a code before any replayer exists, or the
    replayer is constructed and the rest of [main] is left to execute. *)
Definition main (hardware_concurrency : Z) (argv : CommandLine) (db : Database) : Z + Process :=
  let v := fold_left call_back (callbacks argv) (main_vars_init hardware_concurrency) in
  if negb (parse_succeeds argv) then inl EXIT_FAILURE
  else if ended v then inl EXIT_SUCCESS
  else if String.eqb (json_path v) EmptyString then inl EXIT_FAILURE
  else
    let o := adjust_options (replayer_opts v) in
    inr {| replayer := ThreadedReplayer_new o (main_filter_graphics v) (main_filter_compute v);
           outputs := ∅;
           vk_trace := [];
           log := [];
           script := main_script db;
           reported := None;
           exited := None |}.

(** The worker threads an invocation starts. *)
Definition threads_started (result : Z + Process) : nat :=
  match result with
  | inl _ => O
  | inr p => length (thread_pool (replayer p))
  end.

(** ** Vocabulary of the properties *)

(** Counting the calls of a trace that satisfy a test. *)
Fixpoint count_calls (f : VkCall -> bool) (tr : list VkCall) : nat :=
  match tr with
  | [] => O
  | call :: tr' => ((if f call then 1 else 0) + count_calls f tr')%nat
  end.

Definition is_create (c : ResourceTag) (call : VkCall) : bool :=
  match call with
  | VkCreateTimed c' _ _ => bool_decide (c' = c)
  | _ => false
  end.

Definition is_success (c : ResourceTag) (call : VkCall) : bool :=
  match call with
  | VkCreateTimed c' _ (Created _ _) => bool_decide (c' = c)
  | _ => false
  end.

Definition is_destroy (c : ResourceTag) (call : VkCall) : bool :=
  match call with
  | VkDestroy c' _ => bool_decide (c' = c)
  | _ => false
  end.

(** The create calls, the successful create calls and the destroy calls of
    a deferred category, and the nanoseconds measured around the successful
    ones. *)
Definition creates (c : ResourceTag) (tr : list VkCall) : nat := count_calls (is_create c) tr.
Definition successes (c : ResourceTag) (tr : list VkCall) : nat := count_calls (is_success c) tr.
Definition destroys (c : ResourceTag) (tr : list VkCall) : nat := count_calls (is_destroy c) tr.

Fixpoint measured_ns (c : ResourceTag) (tr : list VkCall) : Z :=
  match tr with
  | [] => 0
  | VkCreateTimed c' _ (Created _ duration_ns) :: tr' =>
      (if bool_decide (c' = c) then duration_ns else 0) + measured_ns c tr'
  | _ :: tr' => measured_ns c tr'
  end.

(** The pipeline-cache creations of a trace all start from no data. *)
Definition cache_created_blank (tr : list VkCall) : Prop :=
  forall data result, VkCreatePipelineCache data result ∈ tr -> data = [].

(** The item a worker has taken and not yet counted as completed. *)
Definition held (st : Worker) : option PipelineWorkItem :=
  match st with
  | Popped item | Executed item => Some item
  | Waiting | Exited => None
  end.

(** The work items that are enqueued and not completed: those in the queue
    and those held by workers. *)
Definition pending_items (p : Process) : list PipelineWorkItem :=
  pipeline_work_queue (replayer p) ++ omap held (thread_pool (replayer p)).

Definition is_shader_item (item : PipelineWorkItem) : bool :=
  bool_decide (tag item = RESOURCE_SHADER_MODULE).
Definition is_pipeline_item (item : PipelineWorkItem) : bool :=
  bool_decide (tag item = RESOURCE_GRAPHICS_PIPELINE) || bool_decide (tag item = RESOURCE_COMPUTE_PIPELINE).

(** Statements of [main] by the category they parse. *)
Definition parses (c : ResourceTag) (op : DriverOp) : bool :=
  match op with
  | OpParse c' _ _ => bool_decide (c' = c)
  | _ => false
  end.
Definition parses_pipeline (op : DriverOp) : bool :=
  parses RESOURCE_GRAPHICS_PIPELINE op || parses RESOURCE_COMPUTE_PIPELINE op.

(** Whether a statement of [main] pushes a work item, given the filters. *)
Definition op_pushes (graphics compute : gset Z) (op : DriverOp) : bool :=
  match op with
  | OpParse c h (BlobRecord _ _) =>
      match c with
      | RESOURCE_SHADER_MODULE => true
      | RESOURCE_GRAPHICS_PIPELINE =>
          (bool_decide (graphics = ∅) && bool_decide (compute = ∅)) || bool_decide (h ∈ graphics)
      | RESOURCE_COMPUTE_PIPELINE =>
          (bool_decide (compute = ∅) && bool_decide (graphics = ∅)) || bool_decide (h ∈ compute)
      | _ => false
      end
  | _ => false
  end.

(** The work items a list of statements pushes, and those the statements
    still to execute will push. *)
Definition pushes_in (graphics compute : gset Z) (ops : list DriverOp) : nat :=
  length (List.filter (op_pushes graphics compute) ops).

Definition pushes_left (p : Process) : nat :=
  pushes_in (filter_graphics (replayer p)) (filter_compute (replayer p)) (script p).

(** Whether a move is a push by the main thread. *)
Definition issues_push (l : Label) (p : Process) : bool :=
  match l, script p with
  | LMain _, op :: _ => op_pushes (filter_graphics (replayer p)) (filter_compute (replayer p)) op
  | _, _ => false
  end.

(** A schedule during which the main thread pushes nothing. *)
Fixpoint quiet (ls : list Label) (p : Process) : bool :=
  match ls with
  | [] => true
  | l :: ls' =>
      negb (issues_push l p)
      && match step l p with
         | Some p' => quiet ls' p'
         | None => true
         end
  end.

(** The driver calls of one iteration of the worker's loop: the destroy of
    what the slot holds, when it holds something, and the create. *)
Definition iteration_calls (item : PipelineWorkItem) (result : CreateResult) (p : Process) : list VkCall :=
  (if bool_decide (entry_read (hash_map_entry item) p ≠ VK_NULL_HANDLE)
   then [VkDestroy (tag item) (entry_read (hash_map_entry item) p)] else [])
  ++ [VkCreateTimed (tag item) (create_info item) result].

Definition handle_of (r : CreateResult) : Z :=
  match r with Created h _ => h | CreateFailed => VK_NULL_HANDLE end.

(** Two states that differ at most in the registries, the statistics, the
    output slots, the driver calls and the log. *)
Definition same_schedule (p q : Process) : Prop :=
  script q = script p /\ exited q = exited p /\ reported q = reported p
  /\ pipeline_work_queue (replayer q) = pipeline_work_queue (replayer p)
  /\ thread_pool (replayer q) = thread_pool (replayer p)
  /\ queued_count (replayer q) = queued_count (replayer p)
  /\ completed_count (replayer q) = completed_count (replayer p)
  /\ shutting_down (replayer q) = shutting_down (replayer p)
  /\ filter_graphics (replayer q) = filter_graphics (replayer p)
  /\ filter_compute (replayer q) = filter_compute (replayer p)
  /\ loop_count (replayer q) = loop_count (replayer p).

(** The part of the state that [parse] cannot change; it may end the
    process, when the device cannot be created. *)
Definition parse_frame (p q : Process) : Prop :=
  script q = script p /\ reported q = reported p
  /\ thread_pool (replayer q) = thread_pool (replayer p)
  /\ completed_count (replayer q) = completed_count (replayer p)
  /\ shutting_down (replayer q) = shutting_down (replayer p)
  /\ filter_graphics (replayer q) = filter_graphics (replayer p)
  /\ filter_compute (replayer q) = filter_compute (replayer p)
  /\ loop_count (replayer q) = loop_count (replayer p)
  /\ stat_count (replayer q) = stat_count (replayer p)
  /\ stat_ns (replayer q) = stat_ns (replayer p)
  /\ (forall c, successes c (vk_trace q) = successes c (vk_trace p)
                /\ measured_ns c (vk_trace q) = measured_ns c (vk_trace p))
  /\ (exited q = exited p \/ exited q = Some EXIT_FAILURE).

(** The atomics agree with the driver calls made so far, up to the width of
    the atomics. *)
Definition stats_tally (p : Process) : Prop :=
  forall c,
    stat_count (replayer p) c = wrap32 (Z.of_nat (successes c (vk_trace p)))
    /\ stat_ns (replayer p) c = wrap64 (measured_ns c (vk_trace p)).

(** Where [main] is in its script: before the barrier that follows the
    render passes, between that barrier and the final one, between the final
    barrier and the report, and winding down. *)
Inductive Phase :=
  | BeforeBarrier
  | AfterBarrier
  | Drained
  | Closing.

Definition is_pipeline_tag (c : ResourceTag) : bool :=
  match c with
  | RESOURCE_GRAPHICS_PIPELINE | RESOURCE_COMPUTE_PIPELINE => true
  | _ => false
  end.

(** The statement [op] is one that [main] may execute in phase [ph]; the
    answer is the phase it leads to. *)
Definition phase_next (ph : Phase) (op : DriverOp) : option Phase :=
  match ph, op with
  | BeforeBarrier, OpParse c _ _ => if is_pipeline_tag c then None else Some BeforeBarrier
  | BeforeBarrier, OpSync => Some AfterBarrier
  | AfterBarrier, OpParse c _ _ => if is_pipeline_tag c then Some AfterBarrier else None
  | AfterBarrier, OpSync => Some Drained
  | Drained, OpReport => Some Closing
  | Drained, _ => None
  | _, OpLog _ | _, OpShutdown | _, OpJoin _ => Some Closing
  | Closing, _ => None
  | _, OpReport => None
  end.

Fixpoint well_phased (ph : Phase) (ops : list DriverOp) : bool :=
  match ops with
  | [] => true
  | op :: rest =>
      match phase_next ph op with
      | Some ph' => well_phased ph' rest
      | None => false
      end
  end.

(** The phase in which the categories [tags] are played, [ph] being the
    phase when the first of them starts. *)
Fixpoint tags_in_phase (ph : Phase) (tags : list ResourceTag) : Prop :=
  match tags with
  | [] => ph = AfterBarrier
  | c :: rest =>
      if decide (c = RESOURCE_RENDER_PASS)
      then ph = BeforeBarrier /\ tags_in_phase AfterBarrier rest
      else phase_next ph (OpParse c 0 BlobMalformed) = Some ph /\ tags_in_phase ph rest
  end.

(** How [main] ends after the loop over the categories. *)
Definition epilogue (ok : bool) : list DriverOp :=
  if ok then [OpSync; OpReport; OpShutdown; OpJoin EXIT_SUCCESS]
  else [OpShutdown; OpJoin EXIT_FAILURE].

(** What holds of the pending work items in each phase. *)
Definition phase_holds (ph : Phase) (p : Process) : Prop :=
  match ph with
  | BeforeBarrier => Forall (fun item => is_pipeline_item item = false) (pending_items p)
  | AfterBarrier => Forall (fun item => is_shader_item item = false) (pending_items p)
  | Drained => pending_items p = []
  | Closing =>
      (is_Some (reported p) -> pending_items p = [])
      /\ (Forall (fun item => is_pipeline_item item = false) (pending_items p)
          \/ Forall (fun item => is_shader_item item = false) (pending_items p))
  end.

(** The invariant of a run in which [total] work items are pushed in all,
    [total] being less than 2^32: the counters are exact, the phase of the
    script bounds what is pending, and a report that was printed still shows
    the value of the atomics. *)
Definition run_invariant (total : Z) (p : Process) : Prop :=
  Z.of_nat (pushes_left p) + queued_count (replayer p) = total
  /\ queued_count (replayer p) = completed_count (replayer p) + Z.of_nat (length (pending_items p))
  /\ 0 <= completed_count (replayer p)
  /\ (exists ph, well_phased ph (script p) = true /\ phase_holds ph p
                 /\ (is_Some (reported p) -> ph = Closing))
  /\ (forall r, reported p = Some r ->
        forall c, report_count r c = stat_count (replayer p) c
                  /\ loaded_ns r c = stat_ns (replayer p) c).

(** ** Archives, command lines and runs used below *)

(** The statements [main] executes for one category. *)
Definition category_ops (db : Database) (c : ResourceTag) : list DriverOp :=
  (play_hashes db c (default [] (get_hash_list_for_resource_tag db c))).1.

(** An archive in which every entry reads and parses, with the given shader
    modules and graphics pipelines and nothing else; the create-info and the
    output slot of a record are named after its hash. *)
Definition archive (shaders graphics : list Z) : Database :=
  {| prepare := true;
     get_hash_list_for_resource_tag := fun c =>
       if decide (c = RESOURCE_SHADER_MODULE) then Some shaders
       else if decide (c = RESOURCE_GRAPHICS_PIPELINE) then Some graphics
       else Some [];
     read_entry := fun _ h => Some (BlobRecord h h) |}.

Definition record_op (c : ResourceTag) (h : Z) : DriverOp := OpParse c h (BlobRecord h h).

(** What a run is followed by: the schedule of a live process without
    filters, and the successful shader-module creates so far. *)
Definition observes (p : Process) (loops : Z) (sc : list DriverOp)
    (queue : list PipelineWorkItem) (pool : list Worker) (nq nc : Z) (k : nat) : Prop :=
  exited p = None /\ stats_tally p
  /\ filter_graphics (replayer p) = ∅ /\ filter_compute (replayer p) = ∅
  /\ loop_count (replayer p) = loops
  /\ shutting_down (replayer p) = false
  /\ script p = sc
  /\ pipeline_work_queue (replayer p) = queue
  /\ thread_pool (replayer p) = pool
  /\ queued_count (replayer p) = wrap32 nq
  /\ completed_count (replayer p) = wrap32 nc
  /\ successes RESOURCE_SHADER_MODULE (vk_trace p) = k.

Definition reaches (p p' : Process) : Prop := exists ls, run ls p = Some p'.

Definition env0 : MainEnv :=
  {| inline_result := VkSuccess 1;
     device_env := {| init_device := true;
                      props := {| vendorID := 0; deviceID := 0; pipelineCacheUUID := [] |};
                      cache_file := None;
                      fread_complete := true;
                      create_cache_first := VkSuccess 1;
                      create_cache_retry := VkSuccess 1 |} |}.

Definition always_created : nat -> CreateResult := fun _ => Created 1 1.

(** The process [main] starts when the arguments parse and name a
    database. *)
Definition started (o : Options.t) (graphics compute : gset Z) (db : Database) : Process :=
  {| replayer := ThreadedReplayer_new o graphics compute;
     outputs := ∅;
     vk_trace := [];
     log := [];
     script := main_script db;
     reported := None;
     exited := None |}.

Definition overflow_shaders : list Z :=
  map Z.of_nat (seq 0 (Z.to_nat (2 ^ 32 - 1))) ++ [2 ^ 32 - 1].

Definition overflow_archive : Database := archive overflow_shaders [0].

Definition argv_two_threads : CommandLine :=
  {| callbacks := [CbNumThreads 2; CbDefault "archive.foz"]; parse_succeeds := true |}.

Definition options_two_threads : Options.t :=
  {| Options.pipeline_cache := false;
     Options.on_disk_pipeline_cache_path := EmptyString;
     Options.num_threads := 2;
     Options.loop_count := 1 |}.



Definition argv_no_loop : CommandLine :=
  {| callbacks := [CbLoop 0; CbDefault "archive.foz"]; parse_succeeds := true |}.

Definition options_no_loop : Options.t :=
  {| Options.pipeline_cache := false;
     Options.on_disk_pipeline_cache_path := EmptyString;
     Options.num_threads := 8;
     Options.loop_count := 0 |}.

Definition shader_item (h : Z) : PipelineWorkItem :=
  {| hash := h; tag := RESOURCE_SHADER_MODULE; create_info := h; output := h;
     hash_map_entry := (RESOURCE_SHADER_MODULE, h) |}.

(** The thread count the command line asks for: the value of the last
    [--num-threads], or the hardware concurrency when there is none. *)
Definition configured_threads (hardware_concurrency : Z) (cbs : list CliCallback) : Z :=
  fold_left (fun n cb => match cb with CbNumThreads m => m | _ => n end) cbs hardware_concurrency.

Definition argv_empty : CommandLine := {| callbacks := []; parse_succeeds := true |}.

Definition argv_one_thread : CommandLine :=
  {| callbacks := [CbNumThreads 0; CbDefault "archive.foz"]; parse_succeeds := true |}.

Definition options_one_thread : Options.t :=
  {| Options.pipeline_cache := false;
     Options.on_disk_pipeline_cache_path := EmptyString;
     Options.num_threads := 1;
     Options.loop_count := 1 |}.

(** A small archive, one shader module and one graphics pipeline, and the
    process [main] starts on it. *)
Definition small_archive : Database := archive [1] [2].
Definition small_start : Process := started options_one_thread ∅ ∅ small_archive.

Definition graphics_item (h : Z) : PipelineWorkItem :=
  {| hash := h; tag := RESOURCE_GRAPHICS_PIPELINE; create_info := h; output := h;
     hash_map_entry := (RESOURCE_GRAPHICS_PIPELINE, h) |}.

(** The shader module is pushed and taken by the worker. *)
Definition schedule_taken : list Label := [LMain env0; LPop 0].

(** The shader module is built, the barrier passes, the pipeline is
    pushed. *)
Definition schedule_pushed : list Label :=
  [LMain env0; LPop 0; LExec 0 always_created; LDone 0; LMain env0; LMain env0].

(** The pipeline is built too, the final barrier passes and the report is
    printed. *)
Definition schedule_reported : list Label :=
  schedule_pushed ++ [LPop 0; LExec 0 always_created; LDone 0; LMain env0; LMain env0].

(** The state a schedule leads to. *)
Definition after (ls : list Label) (p : Process) : Process := default p (run ls p).

Definition never_created : nat -> CreateResult := fun _ => CreateFailed.

(** A device and a cache file written by it. *)
Definition device0 : VkPhysicalDeviceProperties :=
  {| vendorID := 4318; deviceID := 7040;
     pipelineCacheUUID := [x01; x02; x03; x04; x05; x06; x07; x08;
                           x09; x0a; x0b; x0c; x0d; x0e; x0f; x10] |}.

Definition blob0 : list byte :=
  [x20; x00; x00; x00; x01; x00; x00; x00; xde; x10; x00; x00; x80; x1b; x00; x00;
   x01; x02; x03; x04; x05; x06; x07; x08; x09; x0a; x0b; x0c; x0d; x0e; x0f; x10;
   xff; xff].

(** ** The end of [~ThreadedReplayer] *)

(** What the outside world answers while the pipeline cache is saved: the
    size the first [vkGetPipelineCacheData] reports and the bytes the second
    one delivers ([None]: not [VK_SUCCESS]), whether [fopen] opens the file,
    and the count [fwrite] returns. *)
Record SaveEnv := {
  cache_size_result : option nat;
  cache_data_result : option (list byte);
  fopen_wb : bool;
  fwrite_result : nat
}.

(** What the destructor does once the pool is joined, in order. *)
Inductive TeardownCall :=
  | GetPipelineCacheSize (result : option nat)
  | GetPipelineCacheData (capacity : nat) (result : option (list byte))
  | OpenCacheFile (path : string) (opened : bool)
  | WriteCacheFile (buffer : list byte) (written : nat)
  | LogCacheWriteFailed
  | CloseCacheFile
  | DestroyPipelineCache (h : Z)
  | DestroyObject (category : ResourceTag) (h : Z).

(** The block under [if (!opts.on_disk_pipeline_cache_path.empty())].
    [pipeline_buffer] is a vector of the reported size, zero-filled, into
    which the driver stores its data; [fwrite] is asked for all of it. *)
Definition save_pipeline_cache (env : SaveEnv) (path : string) : list TeardownCall :=
  GetPipelineCacheSize (cache_size_result env)
  :: match cache_size_result env with
     | Some pipeline_cache_size =>
         GetPipelineCacheData pipeline_cache_size (cache_data_result env)
         :: match cache_data_result env with
            | Some data =>
                let pipeline_buffer := resize pipeline_cache_size "000"%byte data in
                OpenCacheFile path (fopen_wb env)
                :: (if fopen_wb env then
                      WriteCacheFile pipeline_buffer (fwrite_result env)
                      :: (if negb (fwrite_result env =? length pipeline_buffer)%nat
                          then [LogCacheWriteFailed] else [])
                      ++ [CloseCacheFile]
                    else [LogCacheWriteFailed])
            | None => []
            end
     | None => []
     end.

(** One of the seven loops [for (auto &x : map) if (x.second) vkDestroy...]:
    the entries are visited in the order the container keeps them. *)
Definition destroy_all (c : ResourceTag) (m : gmap Z Z) : list TeardownCall :=
  omap (fun entry : Z * Z =>
          if bool_decide (entry.2 ≠ VK_NULL_HANDLE) then Some (DestroyObject c entry.2) else None)
    (map_to_list m).

(** [~ThreadedReplayer] after the threads are joined ([OpShutdown] and
    [OpJoin] are its beginning). *)
Definition ThreadedReplayer_delete (env : SaveEnv) (r : ThreadedReplayer) : list TeardownCall :=
  (if bool_decide (pipeline_cache r ≠ VK_NULL_HANDLE) then
     (if negb (String.eqb (Options.on_disk_pipeline_cache_path (opts r)) EmptyString)
      then save_pipeline_cache env (Options.on_disk_pipeline_cache_path (opts r)) else [])
     ++ [DestroyPipelineCache (pipeline_cache r)]
   else [])
  ++ destroy_all RESOURCE_SAMPLER (samplers r)
  ++ destroy_all RESOURCE_DESCRIPTOR_SET_LAYOUT (layouts r)
  ++ destroy_all RESOURCE_PIPELINE_LAYOUT (pipeline_layouts r)
  ++ destroy_all RESOURCE_SHADER_MODULE (shader_modules r)
  ++ destroy_all RESOURCE_RENDER_PASS (render_passes r)
  ++ destroy_all RESOURCE_COMPUTE_PIPELINE (compute_pipelines r)
  ++ destroy_all RESOURCE_GRAPHICS_PIPELINE (graphics_pipelines r).

(** [total_size] of [main]: the entries of the seven maps. *)
Definition total_size (r : ThreadedReplayer) : nat :=
  (size (samplers r) + size (layouts r) + size (pipeline_layouts r) + size (shader_modules r)
   + size (render_passes r) + size (compute_pipelines r) + size (graphics_pipelines r))%nat.

(** ** Vocabulary of the further properties *)

(** The destroys of a category among the calls of the destructor. *)
Definition teardown_destroys (c : ResourceTag) (calls : list TeardownCall) : nat :=
  length (List.filter (fun call => match call with
                                   | DestroyObject c' _ => bool_decide (c' = c)
                                   | _ => false
                                   end) calls).

(** The entries of a map that hold a handle. *)
Definition live_handles (m : gmap Z Z) : nat :=
  length (List.filter (fun entry : Z * Z => bool_decide (entry.2 ≠ VK_NULL_HANDLE)) (map_to_list m)).

(** The item a move takes from the queue, seen in the state it leads to. *)
Definition took (l : Label) (p' : Process) : list PipelineWorkItem :=
  match l with
  | LPop w =>
      match thread_pool (replayer p') !! w with
      | Some (Popped item) => [item]
      | _ => []
      end
  | _ => []
  end.

(** The items the workers take during a schedule, in the order they take
    them. *)
Fixpoint taken (ls : list Label) (p : Process) : list PipelineWorkItem :=
  match ls with
  | [] => []
  | l :: ls' =>
      match step l p with
      | Some p' => took l p' ++ taken ls' p'
      | None => []
      end
  end.

(** The category and the hash of the work item a statement of [main]
    pushes, if it pushes one. *)
Definition push_of (graphics compute : gset Z) (op : DriverOp) : option (ResourceTag * Z) :=
  match op with
  | OpParse c h _ => if op_pushes graphics compute op then Some (c, h) else None
  | _ => None
  end.

Definition item_key (item : PipelineWorkItem) : ResourceTag * Z := (tag item, hash item).

(** The creates of a schedule that succeed deliver a handle, as Vulkan
    requires of [VK_SUCCESS]. *)
Definition delivers_handles (l : Label) : Prop :=
  match l with
  | LMain env => forall h, inline_result env = VkSuccess h -> h <> VK_NULL_HANDLE
  | LExec _ results => forall i h ns, results i = Created h ns -> h <> VK_NULL_HANDLE
  | _ => True
  end.

(** The moves of a schedule are answered by one driver. *)
Definition answered_by (env : MainEnv) (results : nat -> CreateResult) (l : Label) : Prop :=
  match l with
  | LMain env' => env' = env
  | LExec _ results' => results' = results
  | _ => True
  end.

(** Statements of [main] before the destructor. *)
Definition is_plain (op : DriverOp) : bool :=
  match op with
  | OpShutdown | OpJoin _ => false
  | _ => true
  end.

(** How the script ends: the destructor is still to come while
    [shutting_down] is not raised, and no worker has left its loop; once it
    is raised only the join is left. *)
Definition closes (p : Process) : Prop :=
  (1 <= length (thread_pool (replayer p)))%nat
  /\ if shutting_down (replayer p)
     then exited p = None -> exists code, script p = [OpJoin code]
     else Forall (fun st => st <> Exited) (thread_pool (replayer p))
          /\ exists ops code, script p = ops ++ [OpShutdown; OpJoin code]
                              /\ forallb is_plain ops = true.

(** The work items in flight are those the facade builds. *)
Definition facade_item (item : PipelineWorkItem) : Prop :=
  is_deferred (tag item) = true /\ hash_map_entry item = (tag item, hash item).

(** What a command line asks for, read off the callbacks: the hashes given
    to [--filter-graphics] and to [--filter-compute], the last [--loop], the
    last [--on-disk-pipeline-cache], and whether [--pipeline-cache] occurs. *)
Definition graphics_asked (cbs : list CliCallback) : gset Z :=
  list_to_set (omap (fun cb => match cb with CbFilterGraphics n => Some n | _ => None end) cbs).
Definition compute_asked (cbs : list CliCallback) : gset Z :=
  list_to_set (omap (fun cb => match cb with CbFilterCompute n => Some n | _ => None end) cbs).
Definition loop_asked (cbs : list CliCallback) (initial : Z) : Z :=
  fold_left (fun n cb => match cb with CbLoop m => m | _ => n end) cbs initial.
Definition path_asked (cbs : list CliCallback) (initial : string) : string :=
  fold_left (fun s cb => match cb with CbOnDiskPipelineCache path => path | _ => s end) cbs initial.
Definition cache_asked (cbs : list CliCallback) : bool :=
  existsb (fun cb => match cb with CbPipelineCache => true | _ => false end) cbs.

(** The moves of [step], case by case. *)
Inductive step_spec : Label -> Process -> Process -> Prop :=
  | StepParse env c h blob rest p :
      script p = OpParse c h blob :: rest ->
      step_spec (LMain env) p (set_script rest (parse env c h blob p))
  | StepSync env rest p :
      script p = OpSync :: rest ->
      queued_count (replayer p) = completed_count (replayer p) ->
      step_spec (LMain env) p (set_script rest p)
  | StepLog env e rest p :
      script p = OpLog e :: rest ->
      step_spec (LMain env) p (set_script rest (log_line e p))
  | StepReport env rest p :
      script p = OpReport :: rest ->
      step_spec (LMain env) p (set_script rest (set_reported (Some (make_report (replayer p))) p))
  | StepShutdown env rest p :
      script p = OpShutdown :: rest ->
      step_spec (LMain env) p (set_script rest (upd_replayer (set_shutting_down true) p))
  | StepJoin env code rest p :
      script p = OpJoin code :: rest ->
      all_exited (thread_pool (replayer p)) = true ->
      step_spec (LMain env) p (set_script rest (set_exited (Some code) p))
  | StepLeave w p :
      thread_pool (replayer p) !! w = Some Waiting ->
      shutting_down (replayer p) = true ->
      step_spec (LPop w) p (set_worker w Exited (flush_locals p))
  | StepPop w item rest p :
      thread_pool (replayer p) !! w = Some Waiting ->
      shutting_down (replayer p) = false ->
      pipeline_work_queue (replayer p) = item :: rest ->
      step_spec (LPop w) p
        (set_worker w (Popped item) (upd_replayer (set_pipeline_work_queue rest) p))
  | StepExec w results item p :
      thread_pool (replayer p) !! w = Some (Popped item) ->
      step_spec (LExec w results) p (set_worker w (Executed item) (run_work_item item results p))
  | StepDone w item p :
      thread_pool (replayer p) !! w = Some (Executed item) ->
      step_spec (LDone w) p
        (set_worker w Waiting
           (upd_replayer (fun r => set_completed_count (wrap32 (completed_count r + 1)) r) p)).

(** The successful creates of a deferred category are accounted for: each
    handle has been destroyed or is held by the registry. *)
Definition balanced (c : ResourceTag) (p : Process) : Prop :=
  successes c (vk_trace p)
  = (destroys c (vk_trace p) + live_handles (registry (replayer p) c))%nat.

(** What a statement of the main thread leaves of the deferred categories:
    it destroys nothing, the handles held stay, and the registry gains the
    key of the work item that is pushed, if one is. *)
Definition main_ledger (p q : Process) (pushed : option (ResourceTag * Z)) : Prop :=
  (forall c, destroys c (vk_trace q) = destroys c (vk_trace p))
  /\ (forall c, is_deferred c = true ->
        live_handles (registry (replayer q) c) = live_handles (registry (replayer p) c)
        /\ dom (registry (replayer q) c)
           = dom (registry (replayer p) c)
             ∪ match pushed with
               | Some key => if decide (key.1 = c) then {[ key.2 ]} else ∅
               | None => ∅
               end)
  /\ match pushed with
     | Some key =>
         exists item,
           pipeline_work_queue (replayer q) = pipeline_work_queue (replayer p) ++ [item]
           /\ item_key item = key /\ facade_item item
     | None => pipeline_work_queue (replayer q) = pipeline_work_queue (replayer p)
     end.

(** The keys of the work items of category [c] among the keys pushed. *)
Definition pushed_hashes (c : ResourceTag) (keys : list (ResourceTag * Z)) : gset Z :=
  list_to_set (map snd (List.filter (fun key : ResourceTag * Z => bool_decide (key.1 = c)) keys)).

(** What a run from [p0] has done when it is in [p], [pre] being the
    statements [main] has executed: the items taken and those still queued
    are the items pushed, in the order of the pushes; the items in flight
    are those the facade builds, with their registry entries; and the
    registries of the deferred categories hold the hashes pushed. *)
Definition history (db : Database) (p0 : Process) (ls : list Label) (p : Process) : Prop :=
  filter_graphics (replayer p) = filter_graphics (replayer p0)
  /\ filter_compute (replayer p) = filter_compute (replayer p0)
  /\ exists pre,
       main_script db = pre ++ script p
       /\ map item_key (taken ls p0 ++ pipeline_work_queue (replayer p))
          = omap (push_of (filter_graphics (replayer p0)) (filter_compute (replayer p0))) pre
       /\ Forall (fun item => facade_item item
                              /\ hash item ∈ dom (registry (replayer p) (tag item)))
            (pending_items p)
       /\ (forall c, is_deferred c = true ->
             dom (registry (replayer p) c)
             = pushed_hashes c
                 (omap (push_of (filter_graphics (replayer p0)) (filter_compute (replayer p0)))
                    pre)).

(** One of the reasons for which the process ends with [EXIT_FAILURE] is in
    the log. *)
Definition failure_logged (p : Process) : Prop :=
  LogDeviceFailed ∈ log p \/ LogPrepareFailed ∈ log p
  \/ LogHashListFailed ∈ log p \/ LogReadFailed ∈ log p.

(** How far [main] has come, [pre] being the statements it has executed:
    their log lines and the report are there; the process has ended either
    in [set_application_info], which logs that the device could not be
    created, or by the last [return] of [main], with the pool joined. *)
Definition outcome (db : Database) (p : Process) : Prop :=
  exists pre,
    main_script db = pre ++ script p
    /\ (forall e, OpLog e ∈ pre -> e ∈ log p)
    /\ (OpReport ∈ pre -> is_Some (reported p))
    /\ match exited p with
       | None => (LogDeviceFailed ∉ log p) /\ forall code, OpJoin code ∉ pre
       | Some code =>
           (code = EXIT_FAILURE /\ LogDeviceFailed ∈ log p)
           \/ ((LogDeviceFailed ∉ log p) /\ OpJoin code ∈ pre /\ script p = []
               /\ all_exited (thread_pool (replayer p)) = true)
       end.

(** ** Further archives and runs *)

(** The complete run of the small archive, to the end of the process. *)
Definition schedule_exited : list Label :=
  schedule_reported ++ [LMain env0; LPop 0; LMain env0].

(** An archive with two shader modules, the second of which cannot be
    read. *)
Definition broken_archive : Database :=
  {| prepare := true;
     get_hash_list_for_resource_tag := fun c =>
       if decide (c = RESOURCE_SHADER_MODULE) then Some [1; 2] else Some [];
     read_entry := fun _ h => if h =? 2 then None else Some (BlobRecord h h) |}.

Definition broken_start : Process := started options_one_thread ∅ ∅ broken_archive.

(** The first shader module is pushed, the read of the second fails, and
    the destructor raises [shutting_down] before the worker has moved. *)
Definition schedule_broken : list Label := [LMain env0; LMain env0; LMain env0].

(** A cache file with the header of [blob0] and other data behind it. *)
Definition blob1 : list byte := take 32 blob0 ++ ["000"%byte].




(** A driver and a file system with which the cache is saved. *)
Definition env_saved : SaveEnv :=
  {| cache_size_result := Some 2%nat;
     cache_data_result := Some ["001"; "002"]%byte;
     fopen_wb := true;
     fwrite_result := 2%nat |}.

(** The calls the main thread makes: inline creates and the creation of the
    pipeline cache. *)
Definition is_inline_call (call : VkCall) : bool :=
  match call with
  | VkCreate _ _ _ | VkCreatePipelineCache _ _ => true
  | _ => false
  end.

(** The number of work items of a category among the keys of work items. *)
Definition pushes_of (c : ResourceTag) (keys : list (ResourceTag * Z)) : nat :=
  length (List.filter (fun key : ResourceTag * Z => bool_decide (key.1 = c)) keys).

(** The workers that have taken a work item of category [c] and not yet
    replayed it. *)
Definition is_awaiting (c : ResourceTag) (st : Worker) : bool :=
  match st with
  | Popped item => bool_decide (tag item = c)
  | _ => false
  end.

Definition awaiting (c : ResourceTag) (pool : list Worker) : nat :=
  length (List.filter (is_awaiting c) pool).



(** Every work item taken so far has been replayed [loop_count] times,
    those apart that a worker has taken and not yet replayed. *)
Definition attempts (c : ResourceTag) (p0 : Process) (ls : list Label) (p : Process) : Prop :=
  loop_count (replayer p) = loop_count (replayer p0)
  /\ (creates c (vk_trace p)
      + Z.to_nat (loop_count (replayer p0)) * awaiting c (thread_pool (replayer p)))%nat
     = (Z.to_nat (loop_count (replayer p0)) * pushes_of c (map item_key (taken ls p0)))%nat.

(** The timed creates of shader modules and of pipelines. *)
Definition is_shader_create (call : VkCall) : bool :=
  match call with
  | VkCreateTimed c _ _ => bool_decide (c = RESOURCE_SHADER_MODULE)
  | _ => false
  end.

Definition is_pipeline_create (call : VkCall) : bool :=
  match call with
  | VkCreateTimed c _ _ => is_pipeline_tag c
  | _ => false
  end.

(** No create of a shader module follows a create of a pipeline. *)
Fixpoint shaders_first (tr : list VkCall) : bool :=
  match tr with
  | [] => true
  | call :: tr' =>
      (if is_pipeline_create call then forallb (fun call' => negb (is_shader_create call')) tr'
       else true)
      && shaders_first tr'
  end.

(** The calls of the driver are in that order, and once a pipeline has been
    created no shader module is in flight or still to be parsed. *)
Definition creates_ordered (p : Process) : Prop :=
  shaders_first (vk_trace p) = true
  /\ (existsb is_pipeline_create (vk_trace p) = true ->
      Forall (fun item => is_shader_item item = false) (pending_items p)
      /\ Forall (fun op => parses RESOURCE_SHADER_MODULE op = false) (script p)).

(** A call a worker makes for a work item of category [c]. *)
Definition is_worker_call (c : ResourceTag) (call : VkCall) : bool :=
  match call with
  | VkCreateTimed c' _ _ | VkDestroy c' _ => bool_decide (c' = c)
  | _ => false
  end.

(** The categories [main] creates in place, and their successful creates. *)
Definition is_inline (c : ResourceTag) : bool :=
  match c with
  | RESOURCE_SAMPLER | RESOURCE_DESCRIPTOR_SET_LAYOUT | RESOURCE_PIPELINE_LAYOUT
  | RESOURCE_RENDER_PASS => true
  | _ => false
  end.

Definition is_inline_success (c : ResourceTag) (call : VkCall) : bool :=
  match call with
  | VkCreate c' _ (VkSuccess _) => bool_decide (c' = c)
  | _ => false
  end.

Definition inline_successes (c : ResourceTag) (tr : list VkCall) : nat :=
  count_calls (is_inline_success c) tr.

(** The hashes of the records of category [c] that a list of statements
    parses. *)
Definition parse_hashes (c : ResourceTag) (ops : list DriverOp) : list Z :=
  omap (fun op => match op with
                  | OpParse c' h _ => if decide (c' = c) then Some h else None
                  | _ => None
                  end) ops.

(** No list of hashes of the archive names a hash twice. *)
Definition distinct_hashes (db : Database) : Prop :=
  forall c hashes, get_hash_list_for_resource_tag db c = Some hashes -> NoDup hashes.

(** The objects of an inline category are accounted for, [pre] being the
    statements [main] has executed: each successful create has its handle
    in the registry, under the hash of a record that was parsed. *)
Definition inline_balanced (c : ResourceTag) (pre : list DriverOp) (p : Process) : Prop :=
  inline_successes c (vk_trace p) = live_handles (registry (replayer p) c)
  /\ (forall h, h ∈ dom (registry (replayer p) c) -> h ∈ parse_hashes c pre).

(** An archive with one sampler, and its complete run. *)
Definition sampler_archive : Database :=
  {| prepare := true;
     get_hash_list_for_resource_tag := fun c =>
       if decide (c = RESOURCE_SAMPLER) then Some [5] else Some [];
     read_entry := fun _ h => Some (BlobRecord h h) |}.

Definition sampler_start : Process := started options_one_thread ∅ ∅ sampler_archive.

Definition schedule_sampler : list Label :=
  [LMain env0; LMain env0; LMain env0; LMain env0; LMain env0; LPop 0; LMain env0].

(** ** Filtered runs, the device and long creates *)

(** The hashes of the work items of category [c] that the workers take
    during a schedule. *)
Definition reaching_worker (c : ResourceTag) (ls : list Label) (p : Process) : gset Z :=
  pushed_hashes c (map item_key (taken ls p)).

(** The hashes the archive lists for category [c], and those among them
    whose entry reads and parses as a record. *)
Definition archive_hashes (db : Database) (c : ResourceTag) : gset Z :=
  list_to_set (default [] (get_hash_list_for_resource_tag db c)).

Definition is_record (db : Database) (c : ResourceTag) (h : Z) : bool :=
  match read_entry db c h with
  | Some (BlobRecord _ _) => true
  | _ => false
  end.

Definition archive_records (db : Database) (c : ResourceTag) : gset Z :=
  list_to_set (List.filter (is_record db c) (default [] (get_hash_list_for_resource_tag db c))).

(** Two archives with the graphics pipelines 2 and 3: in the first the blob
    of 2 does not parse, in the second the entry of 3 cannot be read. *)
Definition malformed_archive : Database :=
  {| prepare := true;
     get_hash_list_for_resource_tag := fun c =>
       if decide (c = RESOURCE_GRAPHICS_PIPELINE) then Some [2; 3] else Some [];
     read_entry := fun _ h => if h =? 2 then Some BlobMalformed else Some (BlobRecord h h) |}.

Definition unread_archive : Database :=
  {| prepare := true;
     get_hash_list_for_resource_tag := fun c =>
       if decide (c = RESOURCE_GRAPHICS_PIPELINE) then Some [2; 3] else Some [];
     read_entry := fun _ h => if h =? 3 then None else Some (BlobRecord h h) |}.

(** [--filter-graphics 2 --filter-graphics 3 --num-threads 1]. *)
Definition argv_filtered : CommandLine :=
  {| callbacks := [CbFilterGraphics 2; CbFilterGraphics 3; CbNumThreads 1; CbDefault "archive.foz"];
     parse_succeeds := true |}.

Definition malformed_start : Process := started options_one_thread {[ 2; 3 ]} ∅ malformed_archive.
Definition unread_start : Process := started options_one_thread {[ 2; 3 ]} ∅ unread_archive.

(** The complete run of the first archive: the barrier, the blob of 2 is
    skipped, 3 is pushed and replayed, the report, the destructor. *)
Definition schedule_malformed : list Label :=
  [LMain env0; LMain env0; LMain env0; LPop 0; LExec 0 always_created; LDone 0;
   LMain env0; LMain env0; LMain env0; LPop 0; LMain env0].

(** The complete run of the second: 2 is pushed and replayed, the read of 3
    fails, the destructor. *)
Definition schedule_unread : list Label :=
  [LMain env0; LMain env0; LPop 0; LExec 0 always_created; LDone 0;
   LMain env0; LMain env0; LPop 0; LMain env0].

(** Whether [--help] is among the callbacks of a command line. *)
Definition help_asked (cbs : list CliCallback) : bool :=
  existsb (fun cb => match cb with CbHelp => true | _ => false end) cbs.

(** The move is the call of [set_application_info] that sets the device up,
    and [init_device] fails. *)
Definition refuses_device (l : Label) (p : Process) : bool :=
  match l, script p with
  | LMain env, OpParse RESOURCE_APPLICATION_INFO _ (BlobRecord _ _) :: _ =>
      negb (device_was_init (replayer p)) && negb (init_device (device_env env))
  | _, _ => false
  end.

(** The device could not be created during a schedule. *)
Fixpoint device_refused (ls : list Label) (p : Process) : bool :=
  match ls with
  | [] => false
  | l :: ls' =>
      refuses_device l p
      || match step l p with
         | Some p' => device_refused ls' p'
         | None => false
         end
  end.

(** An archive with an application info, and a driver on which no device
    can be created. *)
Definition app_archive : Database :=
  {| prepare := true;
     get_hash_list_for_resource_tag := fun c =>
       if decide (c = RESOURCE_APPLICATION_INFO) then Some [7] else Some [];
     read_entry := fun _ h => Some (BlobRecord h h) |}.

Definition app_start : Process := started options_one_thread ∅ ∅ app_archive.

Definition env_no_device : MainEnv :=
  {| inline_result := VkSuccess 1;
     device_env := {| init_device := false;
                      props := device0;
                      cache_file := None;
                      fread_complete := true;
                      create_cache_first := VkSuccess 1;
                      create_cache_retry := VkSuccess 1 |} |}.

Definition argv_help : CommandLine :=
  {| callbacks := [CbNumThreads 2; CbHelp]; parse_succeeds := true |}.






(** * Lemmas *)

(** ** The header validator *)

Lemma byte_val_range b : 0 <= byte_val b < 2 ^ 8.
Proof.
  unfold byte_val. pose proof (Byte.to_N_bounded b) as H.
  change (2 ^ 8) with 256. lia.
Qed.

Lemma lor_shiftl_add a b k :
  0 <= k -> 0 <= a < 2 ^ k -> Z.lor a (Z.shiftl b k) = a + 2 ^ k * b.
Proof.
  intros Hk Ha.
  assert (Hland : Z.land a (Z.shiftl b k) = 0).
  { apply Z.bits_inj'. intros n Hn. rewrite Z.land_spec, Z.bits_0.
    destruct (Z.lt_ge_cases n k) as [Hlt | Hge].
    - rewrite Z.shiftl_spec_low by lia. apply andb_false_r.
    - assert (Z.testbit a n = false) as ->; [| reflexivity].
      destruct (Z.eq_dec a 0) as [-> | Hne]; [apply Z.bits_0 |].
      apply Z.bits_above_log2; [lia |].
      apply Z.log2_lt_pow2; [lia |].
      apply Z.lt_le_trans with (2 ^ k); [lia |].
      apply Z.pow_le_mono_r; lia. }
  rewrite <- Z.lxor_lor, <- Z.add_nocarry_lxor by exact Hland.
  rewrite Z.shiftl_mul_pow2 by lia. lia.
Qed.

Lemma wrap32_small z : 0 <= z < 2 ^ 32 -> wrap32 z = z.
Proof. intros. unfold wrap32. apply Z.mod_small. lia. Qed.

Lemma read_le_le_u32 blob offset : read_le blob offset = le_u32 blob offset.
Proof.
  unfold read_le, le_u32.
  rewrite Nat.add_0_r.
  pose proof (byte_val_range (blob_at blob offset)) as H0.
  pose proof (byte_val_range (blob_at blob (offset + 1))) as H1.
  pose proof (byte_val_range (blob_at blob (offset + 2))) as H2.
  pose proof (byte_val_range (blob_at blob (offset + 3))) as H3.
  set (b0 := byte_val (blob_at blob offset)) in *.
  set (b1 := byte_val (blob_at blob (offset + 1))) in *.
  set (b2 := byte_val (blob_at blob (offset + 2))) in *.
  set (b3 := byte_val (blob_at blob (offset + 3))) in *.
  rewrite !Z.shiftl_mul_pow2 by lia.
  rewrite !wrap32_small by lia.
  rewrite <- !Z.shiftl_mul_pow2 by lia.
  replace (Z.shiftl b2 16) with (Z.shiftl (Z.shiftl b2 8) 8) by (rewrite Z.shiftl_shiftl by lia; reflexivity).
  replace (Z.shiftl b3 24) with (Z.shiftl (Z.shiftl (Z.shiftl b3 8) 8) 8)
    by (rewrite !Z.shiftl_shiftl by lia; reflexivity).
  rewrite <- !Z.shiftl_lor.
  rewrite (lor_shiftl_add b2 b3 8) by lia.
  rewrite (lor_shiftl_add b1 _ 8) by lia.
  rewrite (lor_shiftl_add b0 _ 8) by lia.
  lia.
Qed.

Lemma memcmp_zero_iff a b n :
  (n <= length a)%nat -> (n <= length b)%nat ->
  memcmp a b n = 0 <-> firstn n a = firstn n b.
Proof.
  revert a b. induction n as [| n IH]; intros a b Ha Hb; simpl.
  - split; intros _; reflexivity.
  - destruct a as [| x a]; [simpl in Ha; lia |].
    destruct b as [| y b]; [simpl in Hb; lia |].
    simpl in Ha, Hb. simpl.
    destruct (Byte.eqb x y) eqn:E.
    + apply Byte.byte_dec_bl in E. subst y.
      rewrite IH by lia. split; [intros ->; reflexivity | intros [=]; assumption].
    + apply Byte.eqb_false in E. split.
      * intros Hsub. exfalso. apply E.
        assert (Byte.to_N x = Byte.to_N y) as HN by (unfold byte_val in Hsub; lia).
        apply (f_equal Byte.of_N) in HN. rewrite !Byte.of_to_N in HN. congruence.
      * intros [=]. contradiction.
Qed.

Lemma validate_true_iff props blob :
  length (pipelineCacheUUID props) = Z.to_nat VK_UUID_SIZE ->
  (validate_pipeline_cache_header props blob).1 = true <->
  16 + VK_UUID_SIZE <= Z.of_nat (length blob)
  /\ le_u32 blob 0 = 16 + VK_UUID_SIZE
  /\ le_u32 blob 4 = 1
  /\ le_u32 blob 8 = vendorID props
  /\ le_u32 blob 12 = deviceID props
  /\ header_uuid blob = pipelineCacheUUID props.
Proof.
  intros Hlen. unfold validate_pipeline_cache_header, header_uuid.
  rewrite !read_le_le_u32.
  change VK_PIPELINE_CACHE_HEADER_VERSION_ONE with 1.
  destruct (Z.ltb_spec (Z.of_nat (length blob)) (16 + VK_UUID_SIZE)) as [Hs | Hs]; simpl.
  { split; [discriminate | lia]. }
  assert (Hcmp : memcmp (pipelineCacheUUID props) (skipn 16 blob) (Z.to_nat VK_UUID_SIZE) = 0
                 <-> firstn (Z.to_nat VK_UUID_SIZE) (skipn 16 blob) = pipelineCacheUUID props).
  { rewrite memcmp_zero_iff.
    - rewrite <- Hlen at 1. rewrite firstn_all. split; congruence.
    - lia.
    - rewrite length_skipn. unfold VK_UUID_SIZE in *. lia. }
  repeat match goal with
  | |- context [?a =? ?b] => destruct (Z.eqb_spec a b); simpl
  end; split; try discriminate; try tauto; intuition (try lia; try congruence).
Qed.

(** ** The enqueue facade *)

Lemma upd_same {A} (f : ResourceTag -> A) c v : upd f c v c = v.
Proof. unfold upd. rewrite decide_True; done. Qed.

Lemma upd_other {A} (f : ResourceTag -> A) c c' v : c' <> c -> upd f c v c' = f c'.
Proof. intros. unfold upd. rewrite decide_False; done. Qed.

Lemma graphics_selected_iff r h :
  graphics_selected r h = true <->
  (filter_graphics r = ∅ /\ filter_compute r = ∅) \/ h ∈ filter_graphics r.
Proof.
  unfold graphics_selected.
  rewrite orb_true_iff, andb_true_iff, !bool_decide_eq_true. tauto.
Qed.

Lemma compute_selected_iff r h :
  compute_selected r h = true <->
  (filter_compute r = ∅ /\ filter_graphics r = ∅) \/ h ∈ filter_compute r.
Proof.
  unfold compute_selected.
  rewrite orb_true_iff, andb_true_iff, !bool_decide_eq_true. tauto.
Qed.

Lemma map_entry_queue c k p :
  pipeline_work_queue (replayer (map_entry c k p)) = pipeline_work_queue (replayer p).
Proof. unfold map_entry. destruct (_ !! _); reflexivity. Qed.

Lemma map_entry_queued_count c k p :
  queued_count (replayer (map_entry c k p)) = queued_count (replayer p).
Proof. unfold map_entry. destruct (_ !! _); reflexivity. Qed.

Lemma map_entry_filters c k p :
  filter_graphics (replayer (map_entry c k p)) = filter_graphics (replayer p)
  /\ filter_compute (replayer (map_entry c k p)) = filter_compute (replayer p).
Proof. unfold map_entry. destruct (_ !! _); split; reflexivity. Qed.

Lemma app_singleton_neq {A} (l : list A) x : l ++ [x] <> l.
Proof.
  intros H. apply (f_equal (@length A)) in H. rewrite length_app in H. simpl in H. lia.
Qed.

(* graphics enqueue: queue afterwards *)
Lemma enqueue_graphics_queue h info out p :
  pipeline_work_queue (replayer (enqueue_create_graphics_pipeline h info out p).1) =
  if graphics_selected (replayer p) h
  then pipeline_work_queue (replayer p) ++
       [{| hash := h; tag := RESOURCE_GRAPHICS_PIPELINE; create_info := info; output := out;
           hash_map_entry := (RESOURCE_GRAPHICS_PIPELINE, h) |}]
  else pipeline_work_queue (replayer p).
Proof.
  unfold enqueue_create_graphics_pipeline.
  destruct (graphics_selected _ _); cbn; [| reflexivity].
  rewrite map_entry_queue. reflexivity.
Qed.

(** ** The worker's loop *)

Lemma count_calls_app f tr1 tr2 :
  count_calls f (tr1 ++ tr2) = (count_calls f tr1 + count_calls f tr2)%nat.
Proof. induction tr1 as [| c tr1 IH]; simpl; [reflexivity | rewrite IH; lia]. Qed.

Lemma measured_ns_app c tr1 tr2 :
  measured_ns c (tr1 ++ tr2) = measured_ns c tr1 + measured_ns c tr2.
Proof.
  induction tr1 as [| call tr1 IH]; simpl; [reflexivity |].
  destruct call as [| ? ? [] | |]; rewrite IH; lia.
Qed.

Lemma entry_read_write e h p : entry_read e (entry_write e h p) = h.
Proof.
  unfold entry_read, entry_write. cbn. rewrite upd_same, lookup_insert_eq. reflexivity.
Qed.

Lemma replay_once_trace item result p :
  vk_trace (replay_once item result p) = vk_trace p ++ iteration_calls item result p.
Proof.
  unfold replay_once, iteration_calls.
  destruct result; destruct (bool_decide _); cbn; rewrite <- ?app_assoc; reflexivity.
Qed.

Lemma replay_once_slot item result p :
  entry_read (hash_map_entry item) (replay_once item result p) =
  match result with Created h _ => h | CreateFailed => VK_NULL_HANDLE end.
Proof.
  unfold replay_once. destruct result.
  - rewrite entry_read_write. unfold read_output. cbn. rewrite lookup_insert_eq. reflexivity.
  - destruct (bool_decide _); unfold entry_read; cbn; rewrite upd_same, lookup_insert_eq; reflexivity.
Qed.

Lemma replay_once_output item h ns p :
  read_output (output item) (replay_once item (Created h ns) p) = h.
Proof.
  unfold replay_once, read_output. destruct (bool_decide _); cbn; rewrite lookup_insert_eq; reflexivity.
Qed.

Lemma replay_once_log item result p :
  log (replay_once item result p) =
  log p ++ match result with
           | Created _ _ => []
           | CreateFailed => [LogWorkerCreateFailed (tag item) (hash item)]
           end.
Proof.
  unfold replay_once. destruct result; destruct (bool_decide _); cbn; rewrite ?app_nil_r; reflexivity.
Qed.

Lemma same_schedule_refl p : same_schedule p p.
Proof. repeat split. Qed.

Lemma same_schedule_trans p q r : same_schedule p q -> same_schedule q r -> same_schedule p r.
Proof. unfold same_schedule. intros. destruct_and!. repeat split; congruence. Qed.

Lemma replay_once_schedule item result p : same_schedule p (replay_once item result p).
Proof.
  unfold replay_once. destruct result; destruct (bool_decide _); repeat split.
Qed.

Lemma replay_loop_fold n : forall i item results p,
  replay_loop n i item results p =
  fold_left (fun q j => replay_once item (results j) q) (seq i n) p.
Proof.
  induction n as [| n IH]; intros; simpl; [reflexivity | apply IH].
Qed.

Lemma replay_loop_schedule n : forall i item results p,
  same_schedule p (replay_loop n i item results p).
Proof.
  induction n as [| n IH]; intros; simpl; [apply same_schedule_refl |].
  eapply same_schedule_trans; [apply replay_once_schedule | apply IH].
Qed.

Lemma run_work_item_schedule item results p : same_schedule p (run_work_item item results p).
Proof.
  unfold run_work_item. destruct (tag item); try apply same_schedule_refl; apply replay_loop_schedule.
Qed.

Lemma run_work_item_deferred item results p :
  is_deferred (tag item) = true ->
  run_work_item item results p =
  fold_left (fun q j => replay_once item (results j) q)
    (seq 0 (Z.to_nat (loop_count (replayer p)))) p.
Proof.
  intros Hd. unfold run_work_item.
  destruct (tag item); try discriminate; apply replay_loop_fold.
Qed.

Lemma creates_iteration item result p :
  creates (tag item) (iteration_calls item result p) = 1%nat.
Proof.
  unfold creates, iteration_calls. rewrite count_calls_app.
  destruct (bool_decide _); simpl; rewrite bool_decide_eq_true_2 by reflexivity; reflexivity.
Qed.

Lemma replay_loop_creates n : forall i item results p,
  creates (tag item) (vk_trace (replay_loop n i item results p)) =
  (creates (tag item) (vk_trace p) + n)%nat.
Proof.
  induction n as [| n IH]; intros; simpl; [lia |].
  rewrite IH, replay_once_trace. unfold creates at 1. rewrite count_calls_app.
  fold (creates (tag item) (vk_trace p)). fold (creates (tag item) (iteration_calls item (results i) p)).
  rewrite creates_iteration. lia.
Qed.

Lemma replay_loop_slot n : forall i item results p,
  entry_read (hash_map_entry item) (replay_loop (S n) i item results p) =
  handle_of (results (i + n)%nat).
Proof.
  induction n as [| n IH]; intros.
  - simpl. rewrite replay_once_slot, Nat.add_0_r. reflexivity.
  - change (replay_loop (S (S n)) i item results p)
      with (replay_loop (S n) (S i) item results (replay_once item (results i) p)).
    rewrite IH. f_equal. f_equal. lia.
Qed.

Lemma destroys_iteration item result p :
  destroys (tag item) (iteration_calls item result p) =
  if bool_decide (entry_read (hash_map_entry item) p ≠ VK_NULL_HANDLE) then 1%nat else 0%nat.
Proof.
  unfold destroys, iteration_calls. rewrite count_calls_app.
  destruct (bool_decide _); simpl; rewrite ?bool_decide_eq_true_2 by reflexivity; reflexivity.
Qed.

(** When every create of the loop succeeds with a handle that is not null,
    every iteration but possibly the first destroys the handle of the one
    before. *)
Lemma replay_loop_destroys n : forall i item results p,
  (forall j, (i <= j < i + n)%nat -> exists h ns, results j = Created h ns /\ h <> VK_NULL_HANDLE) ->
  destroys (tag item) (vk_trace (replay_loop n i item results p)) =
  (destroys (tag item) (vk_trace p)
   + match n with
     | O => 0
     | S n' => (if bool_decide (entry_read (hash_map_entry item) p ≠ VK_NULL_HANDLE) then 1 else 0) + n'
     end)%nat.
Proof.
  induction n as [| n IH]; intros i item results p Hall; [simpl; lia |].
  simpl replay_loop. rewrite IH by (intros j Hj; apply Hall; lia).
  rewrite replay_once_trace. unfold destroys at 1. rewrite count_calls_app.
  fold (destroys (tag item) (vk_trace p)).
  fold (destroys (tag item) (iteration_calls item (results i) p)).
  rewrite destroys_iteration.
  destruct n as [| n]; [lia |].
  rewrite replay_once_slot.
  destruct (Hall i ltac:(lia)) as (h & ns & -> & Hh).
  rewrite (bool_decide_eq_true_2 (h ≠ VK_NULL_HANDLE)) by exact Hh. lia.
Qed.

(** ** What [parse] leaves alone *)

Lemma successes_snoc_other c tr call :
  is_success c call = false -> successes c (tr ++ [call]) = successes c tr.
Proof. intros H. unfold successes. rewrite count_calls_app. simpl. rewrite H. lia. Qed.

Lemma measured_snoc_untimed c tr call :
  (forall c' i r, call <> VkCreateTimed c' i r) -> measured_ns c (tr ++ [call]) = measured_ns c tr.
Proof.
  intros H. rewrite measured_ns_app. simpl.
  destruct call as [| c' i r | |]; try lia. exfalso. by eapply H.
Qed.

Lemma map_entry_frame c k p :
  parse_frame p (map_entry c k p)
  /\ exited (map_entry c k p) = exited p
  /\ pipeline_work_queue (replayer (map_entry c k p)) = pipeline_work_queue (replayer p)
  /\ queued_count (replayer (map_entry c k p)) = queued_count (replayer p).
Proof. unfold map_entry, parse_frame. destruct (_ !! _); cbn; intuition. Qed.

Ltac frame_solve :=
  unfold parse_frame, successes; cbn;
  repeat match goal with
  | |- _ /\ _ => split
  | |- forall _, _ => intro
  end;
  try reflexivity; try (left; reflexivity);
  rewrite ?count_calls_app, ?measured_ns_app; cbn; try lia.

Lemma enqueue_inline_effect c index info out result p :
  let q := (enqueue_create_inline c index info out result p).1 in
  parse_frame p q /\ exited q = exited p
  /\ pipeline_work_queue (replayer q) = pipeline_work_queue (replayer p)
  /\ queued_count (replayer q) = queued_count (replayer p).
Proof.
  unfold enqueue_create_inline. destruct result; frame_solve.
Qed.

Lemma set_application_info_effect env p :
  let q := set_application_info env p in
  parse_frame p q
  /\ pipeline_work_queue (replayer q) = pipeline_work_queue (replayer p)
  /\ queued_count (replayer q) = queued_count (replayer p).
Proof.
  unfold set_application_info.
  destruct (negb (device_was_init (replayer p))); [| frame_solve].
  destruct (negb (init_device env)); [frame_solve; right; reflexivity |].
  cbn. destruct (Options.pipeline_cache _); [| frame_solve].
  destruct (load_on_disk_cache _ _) as [data lines].
  destruct (create_cache_first env); [frame_solve |].
  destruct (create_cache_retry env); frame_solve.
Qed.

Lemma push_after_entry_effect item c k p :
  let q := push_work_item item (map_entry c k p) in
  parse_frame p q /\ exited q = exited p
  /\ pipeline_work_queue (replayer q) = pipeline_work_queue (replayer p) ++ [item]
  /\ queued_count (replayer q) = wrap32 (queued_count (replayer p) + 1).
Proof.
  destruct (map_entry_frame c k p) as (F & E & Q & N).
  unfold parse_frame in *. cbn. rewrite Q, N. intuition.
Qed.

(** What [parse] does to the schedule: a push when the statement is a
    pushing one, nothing otherwise. *)
Lemma parse_effect env c h blob p :
  let q := parse env c h blob p in
  parse_frame p q
  /\ if op_pushes (filter_graphics (replayer p)) (filter_compute (replayer p)) (OpParse c h blob)
     then exited q = exited p
          /\ exists item, tag item = c /\ hash item = h
             /\ pipeline_work_queue (replayer q) = pipeline_work_queue (replayer p) ++ [item]
             /\ queued_count (replayer q) = wrap32 (queued_count (replayer p) + 1)
     else pipeline_work_queue (replayer q) = pipeline_work_queue (replayer p)
          /\ queued_count (replayer q) = queued_count (replayer p).
Proof.
  destruct blob as [| info out].
  { cbn. split; [frame_solve | done]. }
  destruct c; cbn [parse op_pushes].
  - destruct (set_application_info_effect (device_env env) p) as (F & Q); done.
  - destruct (enqueue_inline_effect RESOURCE_SAMPLER h info out (inline_result env) p) as (F & E & Q); done.
  - destruct (enqueue_inline_effect RESOURCE_DESCRIPTOR_SET_LAYOUT h info out (inline_result env) p) as (F & E & Q); done.
  - destruct (enqueue_inline_effect RESOURCE_PIPELINE_LAYOUT h info out (inline_result env) p) as (F & E & Q); done.
  - unfold enqueue_create_shader_module. cbn [fst].
    match goal with |- context [push_work_item ?it _] =>
      destruct (push_after_entry_effect it RESOURCE_SHADER_MODULE h p) as (F & E & Q & N);
      split; [exact F | split; [exact E | exists it; done]] end.
  - destruct (enqueue_inline_effect RESOURCE_RENDER_PASS h info out (inline_result env) p) as (F & E & Q); done.
  - unfold enqueue_create_graphics_pipeline, graphics_selected.
    destruct (_ || _); cbn [fst].
    + match goal with |- context [push_work_item ?it _] =>
        destruct (push_after_entry_effect it RESOURCE_GRAPHICS_PIPELINE h p) as (F & E & Q & N);
        split; [exact F | split; [exact E | exists it; done]] end.
    + split; [frame_solve | done].
  - unfold enqueue_create_compute_pipeline, compute_selected.
    destruct (_ || _); cbn [fst].
    + match goal with |- context [push_work_item ?it _] =>
        destruct (push_after_entry_effect it RESOURCE_COMPUTE_PIPELINE h p) as (F & E & Q & N);
        split; [exact F | split; [exact E | exists it; done]] end.
    + split; [frame_solve | done].
  - split; [frame_solve | done].
Qed.

(** ** The statistics follow the trace *)

Lemma wrap32_idemp_add x y : wrap32 (wrap32 x + y) = wrap32 (x + y).
Proof. unfold wrap32. apply Zplus_mod_idemp_l. Qed.

Lemma wrap64_idemp_add x y : wrap64 (wrap64 x + y) = wrap64 (x + y).
Proof. unfold wrap64. apply Zplus_mod_idemp_l. Qed.

Lemma wrap32_idemp x : wrap32 (wrap32 x) = wrap32 x.
Proof. unfold wrap32. apply Zmod_mod. Qed.

Lemma wrap64_idemp x : wrap64 (wrap64 x) = wrap64 x.
Proof. unfold wrap64. apply Zmod_mod. Qed.

Lemma successes_iteration c item result p :
  successes c (iteration_calls item result p) =
  if bool_decide (tag item = c) && succeeded result then 1%nat else 0%nat.
Proof.
  unfold successes, iteration_calls. rewrite count_calls_app.
  destruct (bool_decide (entry_read _ _ ≠ _)); destruct result; simpl;
    destruct (bool_decide (tag item = c)); reflexivity.
Qed.

Lemma measured_iteration c item result p :
  measured_ns c (iteration_calls item result p) =
  match result with
  | Created _ ns => if bool_decide (tag item = c) then ns else 0
  | CreateFailed => 0
  end.
Proof.
  unfold iteration_calls. rewrite measured_ns_app.
  destruct (bool_decide (entry_read _ _ ≠ _)); destruct result; simpl;
    destruct (bool_decide (tag item = c)); lia.
Qed.

Lemma replay_once_stats item result p c :
  stat_count (replayer (replay_once item result p)) c =
    (if bool_decide (tag item = c) && succeeded result
     then wrap32 (stat_count (replayer p) c + 1) else stat_count (replayer p) c)
  /\ stat_ns (replayer (replay_once item result p)) c =
    match result with
    | Created _ ns => if bool_decide (tag item = c)
                      then wrap64 (stat_ns (replayer p) c + ns) else stat_ns (replayer p) c
    | CreateFailed => stat_ns (replayer p) c
    end.
Proof.
  unfold replay_once, upd.
  destruct result; destruct (bool_decide (entry_read _ _ ≠ _)); cbn; unfold upd;
    destruct (decide (c = tag item)) as [-> | Hne];
    rewrite ?bool_decide_eq_true_2 by reflexivity;
    rewrite ?bool_decide_eq_false_2 by congruence; done.
Qed.

Lemma replay_once_tally item result p : stats_tally p -> stats_tally (replay_once item result p).
Proof.
  intros H c. destruct (H c) as [Hc Hn].
  destruct (replay_once_stats item result p c) as [-> ->].
  rewrite replay_once_trace. unfold successes. rewrite count_calls_app, measured_ns_app.
  fold (successes c (vk_trace p)). fold (successes c (iteration_calls item result p)).
  rewrite successes_iteration, measured_iteration.
  destruct result; destruct (bool_decide (tag item = c)); cbn [andb succeeded];
    rewrite ?Hc, ?Hn, ?wrap32_idemp_add, ?wrap64_idemp_add;
    split; f_equal; lia.
Qed.

Lemma replay_loop_tally n : forall i item results p,
  stats_tally p -> stats_tally (replay_loop n i item results p).
Proof.
  induction n as [| n IH]; intros; simpl; [assumption |].
  apply IH, replay_once_tally. assumption.
Qed.

Lemma run_work_item_tally item results p :
  stats_tally p -> stats_tally (run_work_item item results p).
Proof.
  intros H. unfold run_work_item. destruct (tag item); try assumption; by apply replay_loop_tally.
Qed.

Lemma parse_tally env c h blob p : stats_tally p -> stats_tally (parse env c h blob p).
Proof.
  intros H c'. destruct (parse_effect env c h blob p) as [F _].
  unfold parse_frame in F. destruct F as (_ & _ & _ & _ & _ & _ & _ & _ & Hsc & Hsn & Htr & _).
  destruct (Htr c') as [-> ->]. rewrite Hsc, Hsn. apply H.
Qed.

Lemma flush_locals_stats p c :
  stats_tally p ->
  stat_count (replayer (flush_locals p)) c = stat_count (replayer p) c
  /\ stat_ns (replayer (flush_locals p)) c = stat_ns (replayer p) c.
Proof.
  intros H. destruct (H c) as [Hc Hn].
  assert (forall c', wrap32 (stat_count (replayer p) c' + 0) = stat_count (replayer p) c') as E32.
  { intros c'. destruct (H c') as [-> _]. by rewrite Z.add_0_r, wrap32_idemp. }
  assert (forall c', wrap64 (stat_ns (replayer p) c' + 0) = stat_ns (replayer p) c') as E64.
  { intros c'. destruct (H c') as [_ ->]. by rewrite Z.add_0_r, wrap64_idemp. }
  unfold flush_locals, upd. cbn.
  repeat case_decide; subst; try discriminate; rewrite ?E32, ?E64; done.
Qed.

Lemma flush_locals_tally p : stats_tally p -> stats_tally (flush_locals p).
Proof.
  intros H c. destruct (flush_locals_stats p c H) as [-> ->]. apply H.
Qed.

Lemma step_tally l p p' : step l p = Some p' -> stats_tally p -> stats_tally p'.
Proof.
  unfold step. destruct (exited p); [discriminate |].
  destruct l as [env | w | w results | w].
  - unfold main_step. destruct (script p) as [| op rest]; [discriminate |].
    destruct op as [c h blob | | e | | | code].
    + intros [= <-] H. apply (parse_tally env c h blob) in H. exact H.
    + destruct (_ =? _); intros [= <-] H; exact H.
    + intros [= <-] H. exact H.
    + intros [= <-] H. exact H.
    + intros [= <-] H. exact H.
    + destruct (all_exited _); intros [= <-] H; exact H.
  - unfold worker_pop. destruct (_ !! w) as [[] |]; try discriminate.
    destruct (shutting_down _).
    + intros [= <-] H. apply flush_locals_tally in H. exact H.
    + destruct (pipeline_work_queue _); [discriminate |]. intros [= <-] H. exact H.
  - unfold worker_exec. destruct (_ !! w) as [[] |]; try discriminate.
    intros [= <-] H. apply (run_work_item_tally item results) in H. exact H.
  - unfold worker_done. destruct (_ !! w) as [[] |]; try discriminate.
    intros [= <-] H. exact H.
Qed.


(** ** Work items in flight *)

Lemma held_insert (pool : list Worker) w st0 st :
  pool !! w = Some st0 ->
  exists l1 l2,
    omap held pool = l1 ++ option_list (held st0) ++ l2
    /\ omap held (<[w := st]> pool) = l1 ++ option_list (held st) ++ l2.
Proof.
  intros Hw. exists (omap held (take w pool)), (omap held (drop (S w) pool)).
  split.
  - rewrite <- (take_drop_middle pool w st0 Hw) at 1.
    rewrite omap_app. simpl. destruct (held st0); reflexivity.
  - rewrite insert_take_drop by (eapply lookup_lt_Some; eauto).
    rewrite omap_app. simpl. destruct (held st); reflexivity.
Qed.

Lemma held_insert_same (pool : list Worker) w st0 st :
  pool !! w = Some st0 -> held st = held st0 ->
  omap held (<[w := st]> pool) = omap held pool.
Proof.
  intros Hw Hh. destruct (held_insert pool w st0 st Hw) as (l1 & l2 & -> & ->).
  by rewrite Hh.
Qed.

Lemma held_insert_take (pool : list Worker) w st0 st item :
  pool !! w = Some st0 -> held st0 = None -> held st = Some item ->
  omap held (<[w := st]> pool) ≡ₚ item :: omap held pool.
Proof.
  intros Hw H0 H1. destruct (held_insert pool w st0 st Hw) as (l1 & l2 & -> & ->).
  rewrite H0, H1. simpl. by rewrite Permutation_middle.
Qed.

Lemma held_insert_release (pool : list Worker) w st0 st item :
  pool !! w = Some st0 -> held st0 = Some item -> held st = None ->
  omap held pool ≡ₚ item :: omap held (<[w := st]> pool).
Proof.
  intros Hw H0 H1. destruct (held_insert pool w st0 st Hw) as (l1 & l2 & -> & ->).
  rewrite H0, H1. simpl. by rewrite Permutation_middle.
Qed.

Lemma held_pending (pool : list Worker) w st item :
  pool !! w = Some st -> held st = Some item -> item ∈ omap held pool.
Proof.
  intros Hw Hh. apply list_elem_of_omap. exists st. split; [| done].
  eapply list_elem_of_lookup_2; eauto.
Qed.

(** ** Pushes still to come *)

Lemma pushes_left_eq p :
  pushes_left p = pushes_in (filter_graphics (replayer p)) (filter_compute (replayer p)) (script p).
Proof. reflexivity. Qed.

Lemma pushes_in_cons g c op rest :
  pushes_in g c (op :: rest) = ((if op_pushes g c op then 1 else 0) + pushes_in g c rest)%nat.
Proof. unfold pushes_in. simpl. destruct (op_pushes g c op); reflexivity. Qed.

Lemma well_phased_cons ph op rest :
  well_phased ph (op :: rest) = true ->
  exists ph', phase_next ph op = Some ph' /\ well_phased ph' rest = true.
Proof. simpl. destruct (phase_next ph op) as [ph' |]; [eauto | discriminate]. Qed.

Lemma op_pushes_parses g c op :
  op_pushes g c op = true ->
  exists c' h blob, op = OpParse c' h blob /\ is_deferred c' = true.
Proof.
  destruct op as [c' h [| info out] | | | | |]; try discriminate.
  destruct c'; try discriminate; eauto.
Qed.

(** ** The invariant is kept by every move *)

Lemma phase_next_parse ph c h blob ph' :
  phase_next ph (OpParse c h blob) = Some ph' ->
  ph' = ph /\ ((ph = BeforeBarrier /\ is_pipeline_tag c = false)
               \/ (ph = AfterBarrier /\ is_pipeline_tag c = true)).
Proof.
  destruct ph; simpl; destruct (is_pipeline_tag c); intros [= <-]; auto.
Qed.

Lemma phase_holds_push ph c item p q :
  (ph = BeforeBarrier /\ is_pipeline_tag c = false) \/ (ph = AfterBarrier /\ is_pipeline_tag c = true) ->
  tag item = c -> is_deferred c = true ->
  pending_items q ≡ₚ item :: pending_items p ->
  phase_holds ph p -> phase_holds ph q.
Proof.
  intros Hph Htag Hdef Hperm H.
  destruct Hph as [[-> Hc] | [-> Hc]]; simpl in *; rewrite Hperm; constructor; try assumption.
  - unfold is_pipeline_item. rewrite Htag. destruct c; try discriminate; reflexivity.
  - unfold is_shader_item. rewrite Htag. destruct c; try discriminate; reflexivity.
Qed.

Lemma phase_holds_perm ph p q :
  pending_items q ≡ₚ pending_items p -> reported q = reported p ->
  phase_holds ph p -> phase_holds ph q.
Proof.
  intros Hperm Hr H. destruct ph; simpl in *; rewrite ?Hr.
  - by rewrite Hperm.
  - by rewrite Hperm.
  - apply Permutation_nil_r. by rewrite <- H, Hperm.
  - destruct H as [H1 H2]. split.
    + intros Hs. apply Permutation_nil_r. by rewrite <- (H1 Hs), Hperm.
    + by rewrite Hperm.
Qed.

Lemma phase_holds_release ph p q item :
  pending_items p ≡ₚ item :: pending_items q -> reported q = reported p ->
  phase_holds ph p -> phase_holds ph q.
Proof.
  intros Hperm Hr H. destruct ph; simpl in *; rewrite ?Hr.
  - rewrite Hperm in H. by inversion H.
  - rewrite Hperm in H. by inversion H.
  - rewrite H in Hperm. by apply Permutation_nil_cons in Hperm.
  - destruct H as [H1 H2]. split.
    + intros Hs. rewrite (H1 Hs) in Hperm. by apply Permutation_nil_cons in Hperm.
    + rewrite Hperm in H2. destruct H2 as [H2 | H2]; inversion H2; auto.
Qed.

Lemma phase_holds_nil ph p : pending_items p = [] -> phase_holds ph p.
Proof. intros H. destruct ph; simpl; rewrite ?H; auto. Qed.

Lemma phase_holds_closing ph p :
  ph <> Drained -> (is_Some (reported p) -> ph = Closing) ->
  phase_holds ph p -> phase_holds Closing p.
Proof.
  intros Hnd Hrep H. destruct ph; simpl in *; try done.
  - split; [| by left]. intros Hs. by specialize (Hrep Hs).
  - split; [| by right]. intros Hs. by specialize (Hrep Hs).
Qed.

Lemma step_invariant total l p p' :
  total < 2 ^ 32 -> stats_tally p -> run_invariant total p ->
  step l p = Some p' -> run_invariant total p'.
Proof.
  intros Htot Htally (Hpush & Hq & Hc & (ph & Hph & Hhold & Hrep_ph) & Hrep) Hstep.
  unfold step in Hstep. destruct (exited p) eqn:Hex; [discriminate |].
  assert (Hlen : (0 <= length (pending_items p))%nat) by lia.
  destruct l as [env | w | w results | w].
  - unfold main_step in Hstep. destruct (script p) as [| op rest] eqn:Hs; [discriminate |].
    apply well_phased_cons in Hph as (ph' & Hnext & Hph').
    rewrite pushes_left_eq, Hs, pushes_in_cons in Hpush.
    destruct op as [c h blob | | e | | | code].
    + injection Hstep as <-.
      destruct (parse_effect env c h blob p) as [F E]. unfold parse_frame in F.
      destruct F as (Fs & Fr & Fp & Fc & Fd & Fg & Ff & Fl & Fsc & Fsn & Ftr & Fex).
      apply phase_next_parse in Hnext as [-> Hcase].
      unfold run_invariant, pushes_left, pending_items. cbn.
      rewrite Fg, Ff, Fp, Fc, Fr, Fsc, Fsn.
      fold (pushes_in (filter_graphics (replayer p)) (filter_compute (replayer p)) rest).
      destruct (op_pushes _ _ _) eqn:Hop.
      * destruct E as (Eex & item & Htag & Hhash & Equeue & Equeued).
        rewrite Equeue, Equeued.
        assert (Hperm : (pipeline_work_queue (replayer p) ++ [item]) ++ omap held (thread_pool (replayer p))
                        ≡ₚ item :: pending_items p).
        { unfold pending_items. rewrite <- app_assoc. simpl. by rewrite <- Permutation_middle. }
        rewrite Hperm. cbn [length].
        rewrite wrap32_small by lia.
        split; [lia |]. split; [lia |]. split; [lia |]. split; [| exact Hrep].
        exists ph. split; [exact Hph' |]. split; [| exact Hrep_ph].
        apply op_pushes_parses in Hop as (c' & h' & blob' & [= <- <- <-] & Hdef).
        eapply (phase_holds_push ph c item p); eauto.
        unfold pending_items. cbn. rewrite Fp, Equeue. exact Hperm.
      * destruct E as (Equeue & Equeued). rewrite Equeue, Equeued.
        fold (pending_items p).
        split; [lia |]. split; [lia |]. split; [lia |]. split; [| exact Hrep].
        exists ph. split; [exact Hph' |]. split; [| exact Hrep_ph].
        eapply (phase_holds_perm ph p); eauto.
        unfold pending_items. cbn. by rewrite Fp, Equeue.
    + (* sync *)
      destruct (Z.eqb_spec (queued_count (replayer p)) (completed_count (replayer p))) as [Heq | Hne];
        [| discriminate].
      injection Hstep as <-.
      assert (Hnil : pending_items p = []) by (apply length_zero_iff_nil; lia).
      simpl in Hpush.
      assert (Hnone : ~ is_Some (reported p)).
      { intros Hsome. rewrite (Hrep_ph Hsome) in Hnext. discriminate. }
      split; [exact Hpush |]. split; [exact Hq |]. split; [exact Hc |]. split; [| exact Hrep].
      exists ph'. split; [exact Hph' |].
      split; [| intros Hsome; contradiction].
      change (phase_holds ph' p). by apply phase_holds_nil.
    + (* log *)
      injection Hstep as <-.
      simpl in Hpush.
      split; [exact Hpush |]. split; [exact Hq |]. split; [exact Hc |]. split; [| exact Hrep].
      exists ph'. split; [exact Hph' |].
      assert (ph' = Closing /\ ph <> Drained) as [-> Hnd] by (destruct ph; simpl in Hnext; split; congruence).
      split; [| done].
      change (phase_holds Closing p). by eapply phase_holds_closing.
    + (* report *)
      injection Hstep as <-.
      simpl in Hpush.
      assert (ph = Drained /\ ph' = Closing) as [-> ->] by (destruct ph; simpl in Hnext; split; congruence).
      split; [exact Hpush |]. split; [exact Hq |]. split; [exact Hc |]. split.
      * exists Closing. split; [exact Hph' |]. split; [| done].
        apply phase_holds_nil. exact Hhold.
      * intros r [= <-] c. done.
    + (* shutdown *)
      injection Hstep as <-.
      simpl in Hpush.
      split; [exact Hpush |]. split; [exact Hq |]. split; [exact Hc |]. split; [| exact Hrep].
      exists ph'. split; [exact Hph' |].
      assert (ph' = Closing /\ ph <> Drained) as [-> Hnd] by (destruct ph; simpl in Hnext; split; congruence).
      split; [| done].
      change (phase_holds Closing p). by eapply phase_holds_closing.
    + (* join *)
      destruct (all_exited _); [| discriminate].
      injection Hstep as <-.
      simpl in Hpush.
      split; [exact Hpush |]. split; [exact Hq |]. split; [exact Hc |]. split; [| exact Hrep].
      exists ph'. split; [exact Hph' |].
      assert (ph' = Closing /\ ph <> Drained) as [-> Hnd] by (destruct ph; simpl in Hnext; split; congruence).
      split; [| done].
      change (phase_holds Closing p). by eapply phase_holds_closing.
  - (* pop *)
    unfold worker_pop in Hstep.
    destruct (thread_pool (replayer p) !! w) as [[] |] eqn:Hw; try discriminate.
    destruct (shutting_down (replayer p)).
    + injection Hstep as <-.
      assert (Hheld : omap held (<[w := Exited]> (thread_pool (replayer p)))
                      = omap held (thread_pool (replayer p)))
        by (eapply held_insert_same; eauto).
      assert (Hpend : pending_items (set_worker w Exited (flush_locals p)) = pending_items p).
      { unfold pending_items. cbn. by rewrite Hheld. }
      unfold run_invariant. rewrite Hpend.
      unfold pushes_left, pushes_in in *. cbn.
      split; [lia |]. split; [lia |]. split; [lia |]. split.
      * exists ph. split; [exact Hph |]. split; [| exact Hrep_ph].
        eapply (phase_holds_perm ph p); eauto. by rewrite Hpend.
      * intros r Hr c. destruct (flush_locals_stats p c Htally) as [E1 E2].
        unfold flush_locals in E1, E2. cbn in E1, E2. rewrite E1, E2. by apply Hrep.
    + destruct (pipeline_work_queue (replayer p)) as [| item queue] eqn:Hqueue; [discriminate |].
      injection Hstep as <-.
      assert (Hperm : pending_items (set_worker w (Popped item)
                        (upd_replayer (set_pipeline_work_queue queue) p)) ≡ₚ pending_items p).
      { unfold pending_items. cbn. rewrite Hqueue.
        rewrite (held_insert_take _ w Waiting (Popped item) item Hw eq_refl eq_refl).
        simpl. by rewrite <- Permutation_middle. }
      unfold run_invariant. rewrite Hperm.
      unfold pushes_left, pushes_in in *. cbn.
      split; [lia |]. split; [lia |]. split; [lia |]. split; [| exact Hrep].
      exists ph. split; [exact Hph |]. split; [| exact Hrep_ph].
      eapply (phase_holds_perm ph p); eauto.
  - (* exec *)
    unfold worker_exec in Hstep.
    destruct (thread_pool (replayer p) !! w) as [[| item | item |] |] eqn:Hw; try discriminate.
    injection Hstep as <-.
    destruct (run_work_item_schedule item results p)
      as (Fs & Fe & Fr & Fq & Fp & Fn & Fc & Fd & Fg & Ff & Fl).
    assert (Hpend : pending_items (set_worker w (Executed item) (run_work_item item results p))
                    = pending_items p).
    { unfold pending_items. cbn. rewrite Fq, Fp.
      by rewrite (held_insert_same _ w (Popped item) (Executed item) Hw eq_refl). }
    assert (Hin : item ∈ pending_items p).
    { unfold pending_items. apply elem_of_app. right. eapply held_pending; eauto. }
    unfold run_invariant. rewrite Hpend.
    unfold pushes_left, pushes_in in *. cbn. rewrite Fs, Fg, Ff, Fn, Fc, Fr.
    split; [lia |]. split; [lia |]. split; [lia |]. split.
    * exists ph. split; [exact Hph |]. split; [| exact Hrep_ph].
      eapply (phase_holds_perm ph p); eauto. by rewrite Hpend.
    * intros r Hr. exfalso.
      assert (Hsome : is_Some (reported p)) by eauto.
      specialize (Hrep_ph Hsome). subst ph. simpl in Hhold. rewrite (proj1 Hhold Hsome) in Hin.
      by apply elem_of_nil in Hin.
  - (* done *)
    unfold worker_done in Hstep.
    destruct (thread_pool (replayer p) !! w) as [[| item | item |] |] eqn:Hw; try discriminate.
    injection Hstep as <-.
    assert (Hperm : pending_items p ≡ₚ item :: pending_items (set_worker w Waiting
              (upd_replayer (fun r => set_completed_count (wrap32 (completed_count r + 1)) r) p))).
    { unfold pending_items. cbn.
      rewrite (held_insert_release _ w (Executed item) Waiting item Hw eq_refl eq_refl).
      by rewrite <- Permutation_middle. }
    assert (Hlen' : length (pending_items p) = S (length (pending_items (set_worker w Waiting
              (upd_replayer (fun r => set_completed_count (wrap32 (completed_count r + 1)) r) p)))))
      by (rewrite Hperm; reflexivity).
    unfold run_invariant. unfold pushes_left, pushes_in in *. cbn.
    cbn in Hlen'. unfold pending_items in Hlen' |- *. cbn in Hlen' |- *.
    unfold pending_items in Hq.
    rewrite wrap32_small by lia.
    split; [lia |]. split; [lia |]. split; [lia |]. split; [| exact Hrep].
    exists ph. split; [exact Hph |]. split; [| exact Hrep_ph].
    eapply (phase_holds_release ph p); eauto.
Qed.

(** ** The shape of [main]'s script *)

Lemma play_hashes_shape db c hashes :
  exists records,
    Forall (fun op => parses c op = true) records
    /\ (play_hashes db c hashes).1 =
       records ++ (if (play_hashes db c hashes).2 then [] else [OpLog LogReadFailed]).
Proof.
  induction hashes as [| h hashes (records & Hall & Heq)]; simpl.
  - exists []. split; [constructor | reflexivity].
  - destruct (read_entry db c h) as [blob |].
    + destruct (play_hashes db c hashes) as [ops ok]. simpl in *.
      exists (OpParse c h blob :: records). split.
      * constructor; [simpl; by rewrite bool_decide_eq_true_2 | exact Hall].
      * by rewrite Heq.
    + exists []. split; [constructor | reflexivity].
Qed.

Lemma well_phased_parses ph c records rest :
  phase_next ph (OpParse c 0 BlobMalformed) = Some ph ->
  Forall (fun op => parses c op = true) records ->
  well_phased ph (records ++ rest) = well_phased ph rest.
Proof.
  intros Hph Hall. induction Hall as [| op records Hop _ IH]; [reflexivity |].
  destruct op as [c' h blob | | | | |]; try discriminate.
  simpl in Hop. apply bool_decide_eq_true in Hop. subst c'.
  change (well_phased ph ((OpParse c h blob :: records) ++ rest))
    with (match phase_next ph (OpParse c h blob) with
          | Some ph' => well_phased ph' (records ++ rest)
          | None => false
          end).
  change (phase_next ph (OpParse c h blob)) with (phase_next ph (OpParse c 0 BlobMalformed)).
  rewrite Hph. exact IH.
Qed.

Lemma play_tags_well_phased db tags : forall ph,
  tags_in_phase ph tags ->
  well_phased ph ((play_tags db tags).1 ++ epilogue (play_tags db tags).2) = true.
Proof.
  induction tags as [| c tags IH]; intros ph Hph; simpl in Hph.
  - subst ph. reflexivity.
  - simpl play_tags.
    destruct (get_hash_list_for_resource_tag db c) as [hashes |].
    2:{ simpl. destruct (decide (c = RESOURCE_RENDER_PASS)).
        - destruct Hph as [-> _]. reflexivity.
        - destruct Hph as [Hn _]. destruct ph; simpl in Hn; try discriminate; reflexivity. }
    destruct (play_hashes_shape db c hashes) as (records & Hall & Heq).
    destruct (play_hashes db c hashes) as [ops ok]. simpl in Heq. subst ops.
    assert (Hstay : phase_next ph (OpParse c 0 BlobMalformed) = Some ph).
    { destruct (decide (c = RESOURCE_RENDER_PASS)) as [-> | ?]; [| tauto].
      destruct Hph as [-> _]. reflexivity. }
    destruct ok.
    + rewrite app_nil_r.
      destruct (play_tags db tags) as [ops' ok'] eqn:Etags. cbn [fst snd].
      rewrite <- !app_assoc. rewrite (well_phased_parses ph c) by assumption.
      destruct (decide (c = RESOURCE_RENDER_PASS)) as [-> | ?].
      * destruct Hph as [-> Hrest]. simpl. exact (IH AfterBarrier Hrest).
      * destruct Hph as [_ Hrest]. simpl. exact (IH ph Hrest).
    + cbn [fst snd]. rewrite <- app_assoc. rewrite (well_phased_parses ph c) by assumption.
      destruct ph; simpl in Hstay; try discriminate; reflexivity.
Qed.

Lemma playback_order_phases : tags_in_phase BeforeBarrier playback_order.
Proof. simpl. repeat (case_decide; try discriminate). tauto. Qed.

Lemma main_script_play db :
  main_script db =
  if prepare db
  then (play_tags db playback_order).1 ++ epilogue (play_tags db playback_order).2
  else [OpLog LogPrepareFailed; OpShutdown; OpJoin EXIT_FAILURE].
Proof.
  unfold main_script, epilogue. destruct (prepare db); [| reflexivity].
  destruct (play_tags db playback_order) as [ops []]; reflexivity.
Qed.

Lemma main_script_well_phased db : well_phased BeforeBarrier (main_script db) = true.
Proof.
  rewrite main_script_play. destruct (prepare db); [| reflexivity].
  apply play_tags_well_phased, playback_order_phases.
Qed.

Lemma omap_held_waiting n : omap held (repeat Waiting n) = [].
Proof. induction n; simpl; auto. Qed.

Lemma main_started hw argv db p0 :
  main hw argv db = inr p0 ->
  exists o g c,
    p0 = {| replayer := ThreadedReplayer_new o g c; outputs := ∅; vk_trace := []; log := [];
            script := main_script db; reported := None; exited := None |}
    /\ o = adjust_options (replayer_opts (fold_left call_back (callbacks argv) (main_vars_init hw))).
Proof.
  unfold main. destruct (negb _); [discriminate |]. destruct (ended _); [discriminate |].
  destruct (String.eqb _ _); [discriminate |]. intros [= <-]. eauto.
Qed.

Lemma main_invariant hw argv db p0 :
  main hw argv db = inr p0 ->
  run_invariant (Z.of_nat (pushes_left p0)) p0 /\ stats_tally p0 /\ exited p0 = None.
Proof.
  intros Hmain. apply main_started in Hmain as (o & g & c & -> & _).
  split; [| split; [| reflexivity]].
  - unfold run_invariant, pending_items. cbn. rewrite omap_held_waiting. cbn.
    split; [lia |]. split; [lia |]. split; [lia |]. split.
    + exists BeforeBarrier. split; [apply main_script_well_phased |].
      split; [| intros [? [=]]].
      apply phase_holds_nil. unfold pending_items. cbn. by rewrite omap_held_waiting.
    + intros r [=].
  - intros c'. cbn. done.
Qed.

Lemma run_app ls1 : forall ls2 p,
  run (ls1 ++ ls2) p = match run ls1 p with Some q => run ls2 q | None => None end.
Proof.
  induction ls1 as [| l ls1 IH]; intros; simpl; [reflexivity |].
  destruct (step l p); [apply IH | reflexivity].
Qed.

Lemma run_invariant_preserved total ls : forall p p',
  total < 2 ^ 32 -> stats_tally p -> run_invariant total p ->
  run ls p = Some p' -> run_invariant total p' /\ stats_tally p'.
Proof.
  induction ls as [| l ls IH]; intros p p' Htot Ht Hinv; simpl.
  - intros [= <-]. done.
  - destruct (step l p) as [q |] eqn:E; [| discriminate].
    intros Hrun. apply (IH q p' Htot); [| | exact Hrun].
    + eapply step_tally; eauto.
    + eapply step_invariant; eauto.
Qed.

(** ** How a move changes the two counters *)

Lemma step_counters l p p' :
  step l p = Some p' ->
  (queued_count (replayer p') = queued_count (replayer p) /\ issues_push l p = false
   \/ queued_count (replayer p') = wrap32 (queued_count (replayer p) + 1)
      /\ issues_push l p = true)
  /\ (completed_count (replayer p') = completed_count (replayer p)
      \/ completed_count (replayer p') = wrap32 (completed_count (replayer p) + 1)
         /\ exists w item, l = LDone w /\ thread_pool (replayer p) !! w = Some (Executed item)).
Proof.
  intros Hstep. unfold step in Hstep. destruct (exited p); [discriminate |].
  destruct l as [env | w | w results | w].
  - unfold main_step in Hstep. unfold issues_push.
    destruct (script p) as [| op rest] eqn:Hs; [discriminate |].
    destruct op as [c h blob | | e | | | code].
    + injection Hstep as <-.
      destruct (parse_effect env c h blob p) as [F E]. unfold parse_frame in F.
      destruct F as (Fs & Fr & Fp & Fc & _). cbn [replayer set_script]. rewrite Fc. split; [| by left].
      destruct (op_pushes _ _ _).
      * destruct E as (_ & item & _ & _ & _ & ->). by right.
      * destruct E as (_ & ->). by left.
    + destruct (_ =? _); [| discriminate]. injection Hstep as <-. cbn. split; by left.
    + injection Hstep as <-. cbn. split; by left.
    + injection Hstep as <-. cbn. split; by left.
    + injection Hstep as <-. cbn. split; by left.
    + destruct (all_exited _); [| discriminate]. injection Hstep as <-. cbn. split; by left.
  - unfold worker_pop in Hstep.
    destruct (thread_pool (replayer p) !! w) as [[] |]; try discriminate.
    destruct (shutting_down _).
    + injection Hstep as <-. cbn. split; by left.
    + destruct (pipeline_work_queue _); [discriminate |]. injection Hstep as <-. cbn. split; by left.
  - unfold worker_exec in Hstep.
    destruct (thread_pool (replayer p) !! w) as [[] |]; try discriminate.
    injection Hstep as <-.
    destruct (run_work_item_schedule item results p) as (_ & _ & _ & _ & _ & Fn & Fc & _).
    cbn. rewrite Fn, Fc. split; by left.
  - unfold worker_done in Hstep.
    destruct (thread_pool (replayer p) !! w) as [[| item | item |] |] eqn:Hw; try discriminate.
    injection Hstep as <-. cbn. split; [by left |]. right. split; [done |]. eauto.
Qed.

Lemma issues_push_left l p :
  issues_push l p = true -> (1 <= pushes_left p)%nat.
Proof.
  unfold issues_push, pushes_left. destruct l; try discriminate.
  destruct (script p) as [| op rest]; [discriminate |].
  intros H. rewrite pushes_in_cons, H. lia.
Qed.

(** Under the invariant the counters do not wrap, so a move never lowers
    one of them. *)
Lemma step_monotone total l p p' :
  total < 2 ^ 32 -> run_invariant total p -> step l p = Some p' ->
  queued_count (replayer p) <= queued_count (replayer p')
  /\ completed_count (replayer p) <= completed_count (replayer p').
Proof.
  intros Htot (Hpush & Hq & Hc & _) Hstep.
  destruct (step_counters l p p' Hstep) as [Hqueued Hcompleted].
  split.
  - destruct Hqueued as [[-> _] | [-> Hissue]]; [lia |].
    apply issues_push_left in Hissue. rewrite wrap32_small; lia.
  - destruct Hcompleted as [-> | [-> (w & item & _ & Hw)]]; [lia |].
    assert (Hin : item ∈ pending_items p).
    { unfold pending_items. apply elem_of_app. right. eapply held_pending; eauto. }
    destruct (pending_items p) as [| x xs]; [by apply elem_of_nil in Hin |].
    simpl in Hq. rewrite wrap32_small; lia.
Qed.

(** After a barrier has returned the counters stay equal for as long as
    the main thread pushes nothing. *)
Lemma quiet_keeps_equal total ls : forall p p',
  total < 2 ^ 32 -> stats_tally p -> run_invariant total p ->
  queued_count (replayer p) = completed_count (replayer p) ->
  run ls p = Some p' -> quiet ls p = true ->
  queued_count (replayer p') = completed_count (replayer p').
Proof.
  induction ls as [| l ls IH]; intros p p' Htot Ht Hinv Heq; simpl.
  - intros [= <-] _. exact Heq.
  - destruct (step l p) as [q |] eqn:E; [| discriminate].
    intros Hrun Hquiet. apply andb_true_iff in Hquiet as [Hno Hquiet].
    apply negb_true_iff in Hno.
    apply (IH q p' Htot); [| | | exact Hrun | exact Hquiet].
    + eapply step_tally; eauto.
    + eapply step_invariant; eauto.
    + destruct (step_counters l p q E) as [Hqueued Hcompleted].
      destruct Hqueued as [[-> _] | [_ Hissue]]; [| congruence].
      destruct Hcompleted as [-> | [_ (w & item & _ & Hw)]]; [exact Heq |].
      exfalso. destruct Hinv as (_ & Hq & _).
      assert (Hin : item ∈ pending_items p).
      { unfold pending_items. apply elem_of_app. right. eapply held_pending; eauto. }
      destruct (pending_items p) as [| x xs]; [by apply elem_of_nil in Hin |].
      simpl in Hq. lia.
Qed.

Lemma main_run_invariant hw argv db p0 ls p :
  main hw argv db = inr p0 -> Z.of_nat (pushes_left p0) < 2 ^ 32 -> run ls p0 = Some p ->
  run_invariant (Z.of_nat (pushes_left p0)) p /\ stats_tally p.
Proof.
  intros Hmain Htot Hrun.
  destruct (main_invariant hw argv db p0 Hmain) as (Hinv & Ht & _).
  eapply run_invariant_preserved; eauto.
Qed.

(** ** What the phases say about the script *)

Lemma well_phased_no_parse ph ops :
  ph = Drained \/ ph = Closing ->
  well_phased ph ops = true ->
  Forall (fun op => forall c, parses c op = false) ops.
Proof.
  revert ph. induction ops as [| op ops IH]; intros ph Hph Hwp; [constructor |].
  apply well_phased_cons in Hwp as (ph' & Hnext & Hwp).
  assert (ph' = Closing /\ forall c, parses c op = false) as [-> Hop].
  { destruct Hph as [-> | ->]; destruct op; simpl in Hnext; try discriminate;
      injection Hnext as <-; split; reflexivity. }
  constructor; [exact Hop |]. apply (IH Closing); auto.
Qed.

Lemma well_phased_no_shader ph ops :
  ph <> BeforeBarrier ->
  well_phased ph ops = true ->
  Forall (fun op => parses RESOURCE_SHADER_MODULE op = false) ops.
Proof.
  revert ph. induction ops as [| op ops IH]; intros ph Hph Hwp; [constructor |].
  apply well_phased_cons in Hwp as (ph' & Hnext & Hwp).
  assert (ph' <> BeforeBarrier /\ parses RESOURCE_SHADER_MODULE op = false) as [Hph' Hop].
  { destruct ph; try contradiction; destruct op as [c ? ? | | | | |]; simpl in Hnext;
      try discriminate; try (injection Hnext as <-; split; [discriminate | reflexivity]).
    destruct c; simpl in Hnext; try discriminate; injection Hnext as <-;
      split; try discriminate; reflexivity. }
  constructor; [exact Hop |]. apply (IH ph'); auto.
Qed.

Lemma parses_pipeline_no_parse op :
  (forall c, parses c op = false) -> parses_pipeline op = true -> False.
Proof.
  intros H Hp. unfold parses_pipeline in Hp. rewrite !H in Hp. discriminate.
Qed.

Lemma well_phased_after_split ops : forall pre op post,
  well_phased AfterBarrier ops = true ->
  ops = pre ++ op :: post -> parses_pipeline op = true ->
  Forall (fun o => parses_pipeline o = true) pre.
Proof.
  induction ops as [| o ops IH]; intros pre op post Hwp Heq Hop.
  - destruct pre; discriminate.
  - destruct pre as [| o' pre]; [constructor |].
    injection Heq as <- ->.
    apply well_phased_cons in Hwp as (ph' & Hnext & Hwp).
    destruct o as [c h blob | | | | |]; simpl in Hnext; try discriminate.
    + destruct (is_pipeline_tag c) eqn:Hc; [| discriminate]. injection Hnext as <-.
      constructor; [| eapply IH; eauto].
      unfold parses_pipeline. simpl. destruct c; try discriminate; reflexivity.
    + injection Hnext as <-. exfalso.
      apply (well_phased_no_parse Drained) in Hwp; [| by left].
      rewrite Forall_app, Forall_cons in Hwp. destruct Hwp as (_ & Hno & _).
      eapply parses_pipeline_no_parse; eauto.
    + injection Hnext as <-. exfalso.
      apply (well_phased_no_parse Closing) in Hwp; [| by right].
      rewrite Forall_app, Forall_cons in Hwp. destruct Hwp as (_ & Hno & _).
      eapply parses_pipeline_no_parse; eauto.
    + injection Hnext as <-. exfalso.
      apply (well_phased_no_parse Closing) in Hwp; [| by right].
      rewrite Forall_app, Forall_cons in Hwp. destruct Hwp as (_ & Hno & _).
      eapply parses_pipeline_no_parse; eauto.
    + injection Hnext as <-. exfalso.
      apply (well_phased_no_parse Closing) in Hwp; [| by right].
      rewrite Forall_app, Forall_cons in Hwp. destruct Hwp as (_ & Hno & _).
      eapply parses_pipeline_no_parse; eauto.
Qed.

Lemma well_phased_before_split ops : forall pre op post,
  well_phased BeforeBarrier ops = true ->
  ops = pre ++ op :: post -> parses_pipeline op = true ->
  exists before between,
    pre = before ++ OpSync :: between
    /\ Forall (fun o => exists c h blob, o = OpParse c h blob /\ is_pipeline_tag c = false) before
    /\ Forall (fun o => parses_pipeline o = true) between.
Proof.
  induction ops as [| o ops IH]; intros pre op post Hwp Heq Hop.
  - destruct pre; discriminate.
  - apply well_phased_cons in Hwp as (ph' & Hnext & Hwp).
    destruct pre as [| o' pre].
    + injection Heq as <- ->. exfalso.
      destruct o as [c h blob | | | | |]; try discriminate.
      simpl in Hnext. unfold parses_pipeline in Hop. simpl in Hop.
      destruct c; try discriminate.
    + injection Heq as <- ->.
      destruct o as [c h blob | | | | |]; simpl in Hnext; try discriminate.
      * destruct (is_pipeline_tag c) eqn:Hc; [discriminate |]. injection Hnext as <-.
        destruct (IH pre op post Hwp eq_refl Hop) as (before & between & -> & Hb & Hw).
        exists (OpParse c h blob :: before), between.
        split; [reflexivity |]. split; [| exact Hw]. constructor; eauto.
      * injection Hnext as <-. exists [], pre. split; [reflexivity |].
        split; [constructor |]. eapply well_phased_after_split; eauto.
      * injection Hnext as <-. exfalso.
        apply (well_phased_no_parse Closing) in Hwp; [| by right].
        rewrite Forall_app, Forall_cons in Hwp. destruct Hwp as (_ & Hno & _).
        eapply parses_pipeline_no_parse; eauto.
      * injection Hnext as <-. exfalso.
        apply (well_phased_no_parse Closing) in Hwp; [| by right].
        rewrite Forall_app, Forall_cons in Hwp. destruct Hwp as (_ & Hno & _).
        eapply parses_pipeline_no_parse; eauto.
      * injection Hnext as <-. exfalso.
        apply (well_phased_no_parse Closing) in Hwp; [| by right].
        rewrite Forall_app, Forall_cons in Hwp. destruct Hwp as (_ & Hno & _).
        eapply parses_pipeline_no_parse; eauto.
Qed.

Lemma play_tags_step db c rest :
  (play_tags db (c :: rest)).2 = true ->
  (play_tags db (c :: rest)).1 =
    category_ops db c ++ (if decide (c = RESOURCE_RENDER_PASS) then [OpSync] else [])
    ++ (play_tags db rest).1
  /\ (play_tags db rest).2 = true
  /\ Forall (fun op => parses c op = true) (category_ops db c).
Proof.
  unfold category_ops. simpl play_tags.
  destruct (get_hash_list_for_resource_tag db c) as [hashes |]; [| discriminate].
  change (default [] (Some hashes)) with hashes.
  destruct (play_hashes_shape db c hashes) as (records & Hall & Heq).
  destruct (play_hashes db c hashes) as [ops ok]. cbn [fst snd] in *.
  destruct ok; [| discriminate]. rewrite app_nil_r in Heq. subst ops.
  destruct (play_tags db rest) as [ops' ok']. cbn [fst snd]. intros ->. done.
Qed.

Lemma complete_script db :
  prepare db = true -> (play_tags db playback_order).2 = true ->
  main_script db =
    category_ops db RESOURCE_APPLICATION_INFO
    ++ category_ops db RESOURCE_SHADER_MODULE
    ++ category_ops db RESOURCE_SAMPLER
    ++ category_ops db RESOURCE_DESCRIPTOR_SET_LAYOUT
    ++ category_ops db RESOURCE_PIPELINE_LAYOUT
    ++ category_ops db RESOURCE_RENDER_PASS
    ++ OpSync
    :: category_ops db RESOURCE_GRAPHICS_PIPELINE
    ++ category_ops db RESOURCE_COMPUTE_PIPELINE
    ++ [OpSync; OpReport; OpShutdown; OpJoin EXIT_SUCCESS]
  /\ Forall (fun c => Forall (fun op => parses c op = true) (category_ops db c)) playback_order.
Proof.
  intros Hprep Hok. rewrite main_script_play, Hprep, Hok. unfold epilogue, playback_order in *.
  repeat match goal with
  | H : (play_tags db (?c :: ?rest)).2 = true |- _ =>
      let F := fresh "F" in
      destruct (play_tags_step db c rest H) as (-> & ? & F); clear H
  end.
  split; [| repeat constructor; assumption].
  repeat (rewrite ?decide_True by reflexivity; rewrite ?decide_False by discriminate).
  cbn [play_tags fst app]. rewrite app_nil_r, <- !app_assoc. cbn [app].
  rewrite <- !app_assoc. reflexivity.
Qed.

(** ** Runs followed symbolically *)

Lemma reaches_refl p : reaches p p.
Proof. by exists []. Qed.

Lemma reaches_trans p q r : reaches p q -> reaches q r -> reaches p r.
Proof.
  intros [ls1 H1] [ls2 H2]. exists (ls1 ++ ls2). by rewrite run_app, H1.
Qed.

Lemma reaches_step l p q : step l p = Some q -> reaches p q.
Proof. intros H. exists [l]. simpl. by rewrite H. Qed.

Lemma play_hashes_archive s g c hashes :
  play_hashes (archive s g) c hashes = (map (record_op c) hashes, true).
Proof.
  induction hashes as [| h hashes IH]; simpl; [reflexivity |].
  rewrite IH. reflexivity.
Qed.

Lemma main_script_archive s g :
  main_script (archive s g) =
  map (record_op RESOURCE_SHADER_MODULE) s
  ++ OpSync :: map (record_op RESOURCE_GRAPHICS_PIPELINE) g
  ++ [OpSync; OpReport; OpShutdown; OpJoin EXIT_SUCCESS].
Proof.
  unfold main_script, playback_order, play_tags.
  cbn [prepare archive get_hash_list_for_resource_tag].
  repeat (rewrite ?decide_True by reflexivity; rewrite ?decide_False by discriminate).
  rewrite !play_hashes_archive.
  cbn [map app]. rewrite !app_nil_r. rewrite <- app_assoc. reflexivity.
Qed.

Lemma step_live l p : exited p = None ->
  step l p = match l with
             | LMain env => main_step env p
             | LPop w => worker_pop w p
             | LExec w results => worker_exec w results p
             | LDone w => worker_done w p
             end.
Proof. intros H. unfold step. by rewrite H. Qed.

Lemma observe_push p loops c h sc queue pool nq nc k :
  is_deferred c = true ->
  observes p loops (record_op c h :: sc) queue pool nq nc k ->
  exists q item,
    step (LMain env0) p = Some q /\ tag item = c
    /\ observes q loops sc (queue ++ [item]) pool (nq + 1) nc k.
Proof.
  intros Hc (Hex & Ht & Hg & Hf & Hl & Hd & Hs & Hq & Hp & Hn & Hm & Hk).
  destruct (parse_effect env0 c h (BlobRecord h h) p) as [F E].
  assert (Hop : op_pushes (filter_graphics (replayer p)) (filter_compute (replayer p))
                  (OpParse c h (BlobRecord h h)) = true).
  { rewrite Hg, Hf. destruct c; try discriminate; reflexivity. }
  rewrite Hop in E. destruct E as (Eex & item & Htag & _ & Equeue & Equeued).
  destruct F as (Fs & Fr & Fp & Fc & Fd & Fg & Ff & Fl & Fsc & Fsn & Ftr & _).
  exists (set_script sc (parse env0 c h (BlobRecord h h) p)), item.
  split; [| split; [exact Htag |]].
  - rewrite step_live by exact Hex. unfold main_step. rewrite Hs. reflexivity.
  - unfold observes. cbn [exited script replayer vk_trace set_script].
    rewrite Eex, Fg, Ff, Fl, Fd, Equeue, Fp, Equeued, Fc, (proj1 (Ftr _)), Hq, Hn.
    rewrite wrap32_idemp_add.
    split; [assumption |]. split; [apply parse_tally; exact Ht |].
    repeat split; assumption.
Qed.

Lemma observe_pushes c hashes : forall p loops sc queue pool nq nc k,
  is_deferred c = true ->
  observes p loops (map (record_op c) hashes ++ sc) queue pool nq nc k ->
  exists q items,
    reaches p q /\ Forall (fun item => tag item = c) items
    /\ length items = length hashes
    /\ observes q loops sc (queue ++ items) pool (nq + Z.of_nat (length hashes)) nc k.
Proof.
  induction hashes as [| h hashes IH]; intros p loops sc queue pool nq nc k Hc Hobs.
  - exists p, []. split; [apply reaches_refl |]. split; [constructor |]. split; [reflexivity |].
    rewrite app_nil_r. cbn [length Z.of_nat]. rewrite Z.add_0_r. exact Hobs.
  - cbn [map app] in Hobs.
    destruct (observe_push _ _ _ _ _ _ _ _ _ _ Hc Hobs) as (q & item & Hstep & Htag & Hobs').
    destruct (IH _ _ _ _ _ _ _ _ Hc Hobs') as (q' & items & Hreach & Hall & Hlen & Hobs'').
    exists q', (item :: items).
    split; [eapply reaches_trans; [eapply reaches_step; eauto | exact Hreach] |].
    split; [by constructor |]. split; [simpl; lia |].
    rewrite <- app_assoc in Hobs''. cbn [app] in Hobs''.
    replace (nq + Z.of_nat (length (h :: hashes))) with (nq + 1 + Z.of_nat (length hashes))
      by (cbn [length]; lia).
    exact Hobs''.
Qed.

Lemma observe_sync p loops sc queue pool nq nc k :
  wrap32 nq = wrap32 nc ->
  observes p loops (OpSync :: sc) queue pool nq nc k ->
  exists q, step (LMain env0) p = Some q /\ observes q loops sc queue pool nq nc k.
Proof.
  intros Heq (Hex & Ht & Hg & Hf & Hl & Hd & Hs & Hq & Hp & Hn & Hm & Hk).
  exists (set_script sc p). split.
  - rewrite step_live by exact Hex. unfold main_step. rewrite Hs, Hn, Hm, Heq, Z.eqb_refl.
    reflexivity.
  - unfold observes. cbn. repeat split; try assumption; apply Ht.
Qed.

Lemma observe_pop p loops sc item queue pool nq nc k w :
  pool !! w = Some Waiting ->
  observes p loops sc (item :: queue) pool nq nc k ->
  exists q, step (LPop w) p = Some q
            /\ observes q loops sc queue (<[w := Popped item]> pool) nq nc k.
Proof.
  intros Hw (Hex & Ht & Hg & Hf & Hl & Hd & Hs & Hq & Hp & Hn & Hm & Hk).
  exists (set_worker w (Popped item) (upd_replayer (set_pipeline_work_queue queue) p)). split.
  - rewrite step_live by exact Hex. unfold worker_pop. rewrite Hp, Hw, Hd, Hq. reflexivity.
  - unfold observes. cbn. rewrite Hp. repeat split; try assumption; apply Ht.
Qed.

Lemma same_trace_successes n : forall i item p c,
  tag item <> c ->
  successes c (vk_trace (replay_loop n i item always_created p)) = successes c (vk_trace p).
Proof.
  induction n as [| n IH]; intros; cbn [replay_loop]; [reflexivity |].
  rewrite IH by assumption. rewrite replay_once_trace. unfold successes.
  rewrite count_calls_app. fold (successes c (vk_trace p)).
  fold (successes c (iteration_calls item (always_created i) p)).
  rewrite successes_iteration. rewrite bool_decide_eq_false_2 by assumption. simpl. lia.
Qed.

Lemma all_created_successes n : forall i item p,
  successes (tag item) (vk_trace (replay_loop n i item always_created p)) =
  (successes (tag item) (vk_trace p) + n)%nat.
Proof.
  induction n as [| n IH]; intros; cbn [replay_loop]; [lia |].
  rewrite IH. rewrite replay_once_trace. unfold successes at 1.
  rewrite count_calls_app. fold (successes (tag item) (vk_trace p)).
  fold (successes (tag item) (iteration_calls item (always_created i) p)).
  rewrite successes_iteration. rewrite bool_decide_eq_true_2 by reflexivity. simpl. lia.
Qed.

Lemma run_work_item_successes item p :
  is_deferred (tag item) = true ->
  successes RESOURCE_SHADER_MODULE (vk_trace (run_work_item item always_created p)) =
  (successes RESOURCE_SHADER_MODULE (vk_trace p)
   + if bool_decide (tag item = RESOURCE_SHADER_MODULE)
     then Z.to_nat (loop_count (replayer p)) else 0)%nat.
Proof.
  intros Hd. unfold run_work_item.
  destruct (tag item) eqn:Htag; try discriminate.
  - rewrite bool_decide_eq_true_2 by reflexivity. rewrite <- Htag. apply all_created_successes.
  - rewrite bool_decide_eq_false_2 by discriminate. rewrite same_trace_successes; [lia | congruence].
  - rewrite bool_decide_eq_false_2 by discriminate. rewrite same_trace_successes; [lia | congruence].
Qed.

Lemma observe_exec p loops sc item queue pool nq nc k w :
  is_deferred (tag item) = true ->
  pool !! w = Some (Popped item) ->
  observes p loops sc queue pool nq nc k ->
  exists q, step (LExec w always_created) p = Some q
            /\ observes q loops sc queue (<[w := Executed item]> pool) nq nc
                 (k + if bool_decide (tag item = RESOURCE_SHADER_MODULE) then Z.to_nat loops else 0).
Proof.
  intros Hdef Hw (Hex & Ht & Hg & Hf & Hl & Hd & Hs & Hq & Hp & Hn & Hm & Hk).
  exists (set_worker w (Executed item) (run_work_item item always_created p)). split.
  - rewrite step_live by exact Hex. unfold worker_exec. rewrite Hp, Hw. reflexivity.
  - destruct (run_work_item_schedule item always_created p)
      as (Fs & Fe & Fr & Fq & Fp & Fn & Fc & Fd & Fg & Ff & Fl).
    unfold observes. cbn [exited script replayer vk_trace set_worker upd_replayer set_replayer
                          thread_pool set_thread_pool filter_graphics filter_compute loop_count
                          shutting_down pipeline_work_queue queued_count completed_count].
    rewrite Fe, Fg, Ff, Fl, Fd, Fs, Fq, Fp, Fn, Fc, Hp.
    rewrite run_work_item_successes by exact Hdef. rewrite Hk, Hl.
    split; [assumption |]. split.
    { intros c'. apply (run_work_item_tally item always_created p Ht c'). }
    repeat split; assumption.
Qed.

Lemma observe_done p loops sc item queue pool nq nc k w :
  pool !! w = Some (Executed item) ->
  observes p loops sc queue pool nq nc k ->
  exists q, step (LDone w) p = Some q
            /\ observes q loops sc queue (<[w := Waiting]> pool) nq (nc + 1) k.
Proof.
  intros Hw (Hex & Ht & Hg & Hf & Hl & Hd & Hs & Hq & Hp & Hn & Hm & Hk).
  exists (set_worker w Waiting
            (upd_replayer (fun r => set_completed_count (wrap32 (completed_count r + 1)) r) p)).
  split.
  - rewrite step_live by exact Hex. unfold worker_done. rewrite Hp, Hw. reflexivity.
  - unfold observes. cbn. rewrite Hp, Hm, wrap32_idemp_add.
    repeat split; try assumption; apply Ht.
Qed.

Lemma observe_drain w items : forall p loops sc queue pool nq nc k,
  Forall (fun item => tag item = RESOURCE_SHADER_MODULE) items ->
  pool !! w = Some Waiting ->
  observes p loops sc (items ++ queue) pool nq nc k ->
  exists q,
    reaches p q
    /\ observes q loops sc queue pool nq (nc + Z.of_nat (length items))
         (k + length items * Z.to_nat loops).
Proof.
  induction items as [| item items IH]; intros p loops sc queue pool nq nc k Hall Hw Hobs.
  - exists p. split; [apply reaches_refl |].
    cbn [length Z.of_nat Nat.mul]. rewrite Z.add_0_r, Nat.add_0_r. exact Hobs.
  - inversion Hall as [| ? ? Htag Hall']; subst.
    cbn [app] in Hobs.
    destruct (observe_pop _ _ _ _ _ _ _ _ _ w Hw Hobs) as (q1 & Hs1 & Ho1).
    assert (Hdef : is_deferred (tag item) = true) by (rewrite Htag; reflexivity).
    assert (Hlt : (w < length pool)%nat) by (eapply lookup_lt_Some; eauto).
    assert (Hw1 : <[w := Popped item]> pool !! w = Some (Popped item))
      by (apply list_lookup_insert_eq; exact Hlt).
    destruct (observe_exec _ _ _ _ _ _ _ _ _ w Hdef Hw1 Ho1) as (q2 & Hs2 & Ho2).
    rewrite list_insert_insert_eq in Ho2.
    assert (Hw2 : <[w := Executed item]> pool !! w = Some (Executed item))
      by (apply list_lookup_insert_eq; exact Hlt).
    destruct (observe_done _ _ _ _ _ _ _ _ _ w Hw2 Ho2) as (q3 & Hs3 & Ho3).
    rewrite list_insert_insert_eq in Ho3.
    rewrite (list_insert_id pool w Waiting Hw) in Ho3.
    rewrite Htag, bool_decide_eq_true_2 in Ho3 by reflexivity.
    destruct (IH _ _ _ _ _ _ _ _ Hall' Hw Ho3) as (q4 & Hr4 & Ho4).
    exists q4. split.
    + eapply reaches_trans; [eapply reaches_step; exact Hs1 |].
      eapply reaches_trans; [eapply reaches_step; exact Hs2 |].
      eapply reaches_trans; [eapply reaches_step; exact Hs3 |]. exact Hr4.
    + replace (nc + Z.of_nat (length (item :: items))) with (nc + 1 + Z.of_nat (length items))
        by (cbn [length]; lia).
      replace (k + length (item :: items) * Z.to_nat loops)%nat
        with (k + Z.to_nat loops + length items * Z.to_nat loops)%nat
        by (cbn [length]; lia).
      exact Ho4.
Qed.

Lemma observe_started o db :
  observes (started o ∅ ∅ db) (Options.loop_count o) (main_script db) []
    (repeat Waiting (Z.to_nat (Options.num_threads o))) 0 0 0.
Proof. unfold observes. cbn. repeat split; reflexivity. Qed.

Lemma main_two_threads db :
  main 8 argv_two_threads db = inr (started options_two_threads ∅ ∅ db).
Proof. reflexivity. Qed.

Lemma overflow_shaders_length : Z.of_nat (length overflow_shaders) = 2 ^ 32.
Proof.
  unfold overflow_shaders. rewrite length_app, length_map, length_seq.
  rewrite Nat2Z.inj_add, Z2Nat.id by lia. cbn [length Z.of_nat]. lia.
Qed.



Lemma pop_takes_front w p p' item :
  step (LPop w) p = Some p' ->
  thread_pool (replayer p') !! w = Some (Popped item) ->
  exists rest, pipeline_work_queue (replayer p) = item :: rest.
Proof.
  unfold step. destruct (exited p); [discriminate |]. unfold worker_pop.
  destruct (thread_pool (replayer p) !! w) as [[] |] eqn:Hw; try discriminate.
  assert (Hlt : (w < length (thread_pool (replayer p)))%nat) by (eapply lookup_lt_Some; eauto).
  destruct (shutting_down _).
  - intros [= <-]. cbn. rewrite list_lookup_insert_eq by exact Hlt. discriminate.
  - destruct (pipeline_work_queue _) as [| first rest]; [discriminate |].
    intros [= <-]. cbn. rewrite list_lookup_insert_eq by exact Hlt.
    intros [= ->]. eauto.
Qed.

(** ** Loading the cache when the header does not validate *)

Lemma load_rejected o env blob :
  cache_file env = Some blob ->
  (validate_pipeline_cache_header (props env) blob).1 = false ->
  (load_on_disk_cache o env).1 = []
  /\ (Options.on_disk_pipeline_cache_path o <> EmptyString -> blob <> [] ->
      fread_complete env = true -> LogBlankCache ∈ (load_on_disk_cache o env).2).
Proof.
  intros Hfile Hbad. unfold load_on_disk_cache. rewrite Hfile.
  destruct (String.eqb_spec (Options.on_disk_pipeline_cache_path o) EmptyString) as [He | Hne];
    cbn [negb]; [split; [reflexivity | contradiction] |].
  destruct blob as [| b blob]; [split; [reflexivity | intros _ []; reflexivity] |].
  cbn [length Nat.eqb negb].
  destruct (fread_complete env); [| split; [reflexivity | discriminate]].
  destruct (validate_pipeline_cache_header (props env) (b :: blob)) as [valid lines].
  cbn [fst] in Hbad. subst valid. cbn [fst snd]. split; [reflexivity |].
  intros _ _ _. apply elem_of_app. right. apply list_elem_of_here.
Qed.

Lemma blank_nil : cache_created_blank [].
Proof. intros data result H. by apply elem_of_nil in H. Qed.

Lemma blank_cons result calls :
  cache_created_blank calls -> cache_created_blank (VkCreatePipelineCache [] result :: calls).
Proof.
  intros H data result' Hin. apply elem_of_cons in Hin as [[= -> _] | Hin]; [reflexivity |].
  by eapply H.
Qed.

Lemma set_application_info_rejected env p blob :
  init_device env = true ->
  cache_file env = Some blob ->
  (validate_pipeline_cache_header (props env) blob).1 = false ->
  exited (set_application_info env p) = exited p
  /\ script (set_application_info env p) = script p
  /\ exists calls,
       vk_trace (set_application_info env p) = vk_trace p ++ calls
       /\ cache_created_blank calls
       /\ (device_was_init (replayer p) = false ->
           Options.pipeline_cache (opts (replayer p)) = true ->
           Options.on_disk_pipeline_cache_path (opts (replayer p)) <> EmptyString ->
           blob <> [] -> fread_complete env = true ->
           LogBlankCache ∈ log (set_application_info env p)
           /\ exists result more, calls = VkCreatePipelineCache [] result :: more).
Proof.
  intros Hinit Hfile Hbad. unfold set_application_info.
  destruct (device_was_init (replayer p)) eqn:Hwas; cbn [negb].
  { split; [reflexivity |]. split; [reflexivity |]. exists []. rewrite app_nil_r.
    split; [reflexivity |]. split; [apply blank_nil | discriminate]. }
  rewrite Hinit. cbn [negb].
  change (opts (replayer (upd_replayer (set_device_was_init true) p))) with (opts (replayer p)).
  destruct (Options.pipeline_cache (opts (replayer p))) eqn:Hpc.
  2:{ split; [reflexivity |]. split; [reflexivity |]. exists []. rewrite app_nil_r.
      split; [reflexivity |]. split; [apply blank_nil | discriminate]. }
  destruct (load_rejected (opts (replayer p)) env blob Hfile Hbad) as [Hdata Hlog].
  destruct (load_on_disk_cache (opts (replayer p)) env) as [data lines].
  cbn [fst snd] in Hdata, Hlog. subst data.
  destruct (create_cache_first env) as [h1 |] eqn:H1.
  - split; [reflexivity |]. split; [reflexivity |].
    exists [VkCreatePipelineCache [] (VkSuccess h1)].
    split; [reflexivity |]. split; [apply blank_cons, blank_nil |].
    intros _ _ Hpath Hne Hread. split; [| eauto].
    cbn. apply elem_of_app. right. auto.
  - destruct (create_cache_retry env) as [h2 |] eqn:H2.
    + split; [reflexivity |]. split; [reflexivity |].
      exists [VkCreatePipelineCache [] VkError; VkCreatePipelineCache [] (VkSuccess h2)].
      split; [cbn; by rewrite <- app_assoc |].
      split; [apply blank_cons, blank_cons, blank_nil |].
      intros _ _ Hpath Hne Hread. split; [| eauto].
      cbn. apply elem_of_app. left. apply elem_of_app. right. auto.
    + split; [reflexivity |]. split; [reflexivity |].
      exists [VkCreatePipelineCache [] VkError; VkCreatePipelineCache [] VkError].
      split; [cbn; by rewrite <- app_assoc |].
      split; [apply blank_cons, blank_cons, blank_nil |].
      intros _ _ Hpath Hne Hread. split; [| eauto].
      cbn. apply elem_of_app. left. apply elem_of_app. left. apply elem_of_app. right. auto.
Qed.

(** ** More on the enqueue facade *)

Lemma map_entry_rest c k p :
  outputs (map_entry c k p) = outputs p /\ vk_trace (map_entry c k p) = vk_trace p
  /\ log (map_entry c k p) = log p.
Proof. unfold map_entry. destruct (_ !! _); done. Qed.

Lemma enqueue_compute_queue h info out p :
  pipeline_work_queue (replayer (enqueue_create_compute_pipeline h info out p).1) =
  if compute_selected (replayer p) h
  then pipeline_work_queue (replayer p) ++
       [{| hash := h; tag := RESOURCE_COMPUTE_PIPELINE; create_info := info; output := out;
           hash_map_entry := (RESOURCE_COMPUTE_PIPELINE, h) |}]
  else pipeline_work_queue (replayer p).
Proof.
  unfold enqueue_create_compute_pipeline.
  destruct (compute_selected _ _); cbn; [| reflexivity].
  rewrite map_entry_queue. reflexivity.
Qed.

Lemma enqueue_inline_failure c index info out p :
  (enqueue_create_inline c index info out VkError p).2 = false
  /\ log (enqueue_create_inline c index info out VkError p).1
     = log p ++ [LogTrivialCreateFailed c index]
  /\ replayer (enqueue_create_inline c index info out VkError p).1 = replayer p.
Proof. done. Qed.

Lemma enqueue_inline_success c index info out handle p :
  (enqueue_create_inline c index info out (VkSuccess handle) p).2 = true
  /\ registry (replayer (enqueue_create_inline c index info out (VkSuccess handle) p).1) c !! index
     = Some handle
  /\ (forall c' k, (c', k) <> (c, index) ->
        registry (replayer (enqueue_create_inline c index info out (VkSuccess handle) p).1) c' !! k
        = registry (replayer p) c' !! k)
  /\ outputs (enqueue_create_inline c index info out (VkSuccess handle) p).1 !! out = Some handle
  /\ log (enqueue_create_inline c index info out (VkSuccess handle) p).1 = log p.
Proof.
  unfold enqueue_create_inline, read_output, entry_write. cbn.
  assert (Hout : <[out := handle]> (outputs p) !! out = Some handle) by apply lookup_insert_eq.
  rewrite Hout. cbn.
  split; [reflexivity |]. split; [by rewrite upd_same, lookup_insert_eq |].
  split; [| done].
  intros c' k Hne. unfold upd. case_decide as Hc; [| reflexivity]. subst c'.
  rewrite lookup_insert_ne; [reflexivity | congruence].
Qed.

Lemma parse_continues env c h blob rest p :
  exited p = None -> c <> RESOURCE_APPLICATION_INFO ->
  script p = OpParse c h blob :: rest ->
  exists p', step (LMain env) p = Some p' /\ script p' = rest /\ exited p' = None.
Proof.
  intros Hex Hc Hs. exists (set_script rest (parse env c h blob p)).
  split; [unfold step; rewrite Hex; unfold main_step; rewrite Hs; reflexivity |].
  split; [reflexivity |]. cbn [exited set_script].
  destruct blob as [| i o]; [done |].
  destruct c; try contradiction; cbn [parse];
    unfold enqueue_create_sampler, enqueue_create_descriptor_set_layout,
      enqueue_create_pipeline_layout, enqueue_create_render_pass;
    try (match goal with
         | |- context [enqueue_create_inline ?c' _ _ _ _ _] =>
             by destruct (enqueue_inline_effect c' h i o (inline_result env) p) as (_ & -> & _)
         end).
  - unfold enqueue_create_shader_module. cbn.
    by destruct (map_entry_frame RESOURCE_SHADER_MODULE h p) as (_ & -> & _).
  - unfold enqueue_create_graphics_pipeline. destruct (graphics_selected _ _); cbn; [| done].
    by destruct (map_entry_frame RESOURCE_GRAPHICS_PIPELINE h p) as (_ & -> & _).
  - unfold enqueue_create_compute_pipeline. destruct (compute_selected _ _); cbn; [| done].
    by destruct (map_entry_frame RESOURCE_COMPUTE_PIPELINE h p) as (_ & -> & _).
  - done.
Qed.

(** ** More on the worker's loop *)

Lemma run_work_item_loop item results p :
  is_deferred (tag item) = true ->
  run_work_item item results p
  = replay_loop (Z.to_nat (loop_count (replayer p))) 0 item results p.
Proof.
  intros Hdef. unfold run_work_item. destruct (tag item); try discriminate; reflexivity.
Qed.

Lemma run_work_item_creates item results p :
  is_deferred (tag item) = true ->
  creates (tag item) (vk_trace (run_work_item item results p))
  = (creates (tag item) (vk_trace p) + Z.to_nat (loop_count (replayer p)))%nat.
Proof.
  intros Hdef. rewrite run_work_item_loop by exact Hdef. apply replay_loop_creates.
Qed.

Lemma fold_log_grows item (results : nat -> CreateResult) (l : list nat) : forall q e,
  e ∈ log q -> e ∈ log (fold_left (fun q i => replay_once item (results i) q) l q).
Proof.
  induction l as [| i l IH]; intros q e Hin; simpl; [exact Hin |].
  apply IH. rewrite replay_once_log. apply elem_of_app. by left.
Qed.

(** ** The options [main] hands to the constructor *)

Lemma call_back_threads cbs : forall v,
  Options.num_threads (replayer_opts (fold_left call_back cbs v))
  = configured_threads (Options.num_threads (replayer_opts v)) cbs.
Proof.
  unfold configured_threads.
  induction cbs as [| cb cbs IH]; intros v; [reflexivity |].
  cbn [fold_left]. rewrite IH. destruct cb; reflexivity.
Qed.

Lemma adjust_options_threads o :
  Options.num_threads (adjust_options o) = Z.max 1 (Options.num_threads o).
Proof.
  unfold adjust_options.
  destruct (Z.ltb_spec (Options.num_threads o) 1);
    destruct (negb _); cbn; lia.
Qed.

(** ** The validator reads the header only *)

Lemma memcmp_app_r n : forall a b extra,
  (n <= length b)%nat -> memcmp a (b ++ extra) n = memcmp a b n.
Proof.
  induction n as [| n IH]; intros a b extra Hn; [reflexivity |].
  destruct b as [| y b]; [simpl in Hn; lia |].
  destruct a as [| x a]; [reflexivity |].
  cbn [memcmp app]. rewrite IH by (simpl in Hn; lia). reflexivity.
Qed.

Lemma blob_at_app blob extra i :
  (i < length blob)%nat -> blob_at (blob ++ extra) i = blob_at blob i.
Proof. intros Hi. unfold blob_at. by rewrite app_nth1. Qed.

Lemma read_le_app blob extra offset :
  (offset + 3 < length blob)%nat -> read_le (blob ++ extra) offset = read_le blob offset.
Proof. intros Hi. unfold read_le. by rewrite !blob_at_app by lia. Qed.

Lemma validate_app props blob extra :
  16 + VK_UUID_SIZE <= Z.of_nat (length blob) ->
  validate_pipeline_cache_header props (blob ++ extra) = validate_pipeline_cache_header props blob.
Proof.
  intros Hlen. unfold VK_UUID_SIZE in Hlen. unfold validate_pipeline_cache_header.
  rewrite length_app.
  destruct (Z.ltb_spec (Z.of_nat (length blob + length extra)) (16 + VK_UUID_SIZE));
    [unfold VK_UUID_SIZE in *; lia |].
  destruct (Z.ltb_spec (Z.of_nat (length blob)) (16 + VK_UUID_SIZE));
    [unfold VK_UUID_SIZE in *; lia |].
  rewrite !read_le_app by lia.
  replace (skipn 16 (blob ++ extra)) with (skipn 16 blob ++ extra).
  - rewrite memcmp_app_r; [reflexivity |]. rewrite length_skipn. unfold VK_UUID_SIZE. lia.
  - rewrite skipn_app. replace (16 - length blob)%nat with O by lia. reflexivity.
Qed.

Lemma validate_take props blob :
  16 + VK_UUID_SIZE <= Z.of_nat (length blob) ->
  validate_pipeline_cache_header props blob
  = validate_pipeline_cache_header props (take (Z.to_nat (16 + VK_UUID_SIZE)) blob).
Proof.
  intros Hlen. rewrite <- (take_drop (Z.to_nat (16 + VK_UUID_SIZE)) blob) at 1.
  apply validate_app. rewrite length_take. unfold VK_UUID_SIZE in *. lia.
Qed.

(** ** [set_application_info] *)

Lemma set_application_info_init env p :
  device_was_init (replayer (set_application_info env p)) = true.
Proof.
  unfold set_application_info.
  destruct (device_was_init (replayer p)) eqn:Hd; cbn [negb]; [exact Hd |].
  destruct (init_device env); cbn [negb]; [| reflexivity].
  cbn [upd_replayer set_replayer replayer set_device_was_init opts].
  destruct (Options.pipeline_cache (opts (replayer p))); [| reflexivity].
  destruct (load_on_disk_cache _ env) as [data lines].
  destruct (create_cache_first env); [reflexivity |].
  destruct (create_cache_retry env); reflexivity.
Qed.

Lemma set_application_info_again env p :
  device_was_init (replayer p) = true -> set_application_info env p = p.
Proof. intros Hd. unfold set_application_info. by rewrite Hd. Qed.

(** ** The options [main] hands over *)


Lemma call_back_fold cbs : forall v,
  let v' := fold_left call_back cbs v in
  main_filter_graphics v' = graphics_asked cbs ∪ main_filter_graphics v
  /\ main_filter_compute v' = compute_asked cbs ∪ main_filter_compute v
  /\ Options.loop_count (replayer_opts v') = loop_asked cbs (Options.loop_count (replayer_opts v))
  /\ Options.on_disk_pipeline_cache_path (replayer_opts v')
     = path_asked cbs (Options.on_disk_pipeline_cache_path (replayer_opts v))
  /\ Options.pipeline_cache (replayer_opts v')
     = cache_asked cbs || Options.pipeline_cache (replayer_opts v).
Proof.
  unfold graphics_asked, compute_asked, loop_asked, path_asked, cache_asked.
  induction cbs as [| cb cbs IH]; intros v.
  - cbn [fold_left omap list_omap existsb orb list_to_set]. cbn zeta.
    rewrite !(left_id_L ∅ (∪)). done.
  - cbn [fold_left]. destruct (IH (call_back v cb)) as (Hg & Hc & Hl & Hp & Hk).
    cbn zeta. rewrite Hg, Hc, Hl, Hp, Hk. clear IH Hg Hc Hl Hp Hk.
    destruct cb;
      cbn [call_back main_filter_graphics main_filter_compute replayer_opts
           Options.loop_count Options.on_disk_pipeline_cache_path Options.pipeline_cache
           Options.set_pipeline_cache Options.set_on_disk_pipeline_cache_path
           Options.set_num_threads Options.set_loop_count
           omap list_omap existsb orb list_to_set];
      rewrite ?orb_true_r, ?(assoc_L (∪)), ?(comm_L (∪) _ {[ n ]});
      done.
Qed.

Lemma adjust_options_rest o :
  Options.loop_count (adjust_options o) = Options.loop_count o
  /\ Options.on_disk_pipeline_cache_path (adjust_options o) = Options.on_disk_pipeline_cache_path o
  /\ Options.pipeline_cache (adjust_options o)
     = Options.pipeline_cache o
       || negb (String.eqb (Options.on_disk_pipeline_cache_path o) EmptyString).
Proof.
  unfold adjust_options.
  destruct (Options.num_threads o <? 1); cbn;
    destruct (String.eqb (Options.on_disk_pipeline_cache_path o) EmptyString); cbn;
    repeat split; by rewrite ?orb_false_r, ?orb_true_r.
Qed.



Lemma set_application_info_no_cache env p :
  Options.pipeline_cache (opts (replayer p)) = false ->
  vk_trace (set_application_info env p) = vk_trace p
  /\ pipeline_cache (replayer (set_application_info env p)) = pipeline_cache (replayer p).
Proof.
  intros Hc. unfold set_application_info.
  destruct (device_was_init (replayer p)); cbn [negb]; [done |].
  destruct (init_device env); cbn [negb]; [| done].
  cbn [upd_replayer set_replayer replayer set_device_was_init opts]. by rewrite Hc.
Qed.

(** ** The moves, case by case *)

Lemma step_inversion l p p' :
  step l p = Some p' -> exited p = None /\ step_spec l p p'.
Proof.
  unfold step. destruct (exited p) eqn:Hex; [discriminate |]. intros Hstep.
  split; [reflexivity |]. destruct l as [env | w | w results | w].
  - unfold main_step in Hstep. destruct (script p) as [| op rest] eqn:Hs; [discriminate |].
    destruct op.
    + injection Hstep as <-. by apply StepParse.
    + destruct (Z.eqb_spec (queued_count (replayer p)) (completed_count (replayer p)));
        [| discriminate].
      injection Hstep as <-. by apply StepSync.
    + injection Hstep as <-. by apply StepLog.
    + injection Hstep as <-. by apply StepReport.
    + injection Hstep as <-. by apply StepShutdown.
    + destruct (all_exited (thread_pool (replayer p))) eqn:Hall; [| discriminate].
      injection Hstep as <-. by apply StepJoin.
  - unfold worker_pop in Hstep.
    destruct (thread_pool (replayer p) !! w) as [[| | |] |] eqn:Hw; try discriminate.
    destruct (shutting_down (replayer p)) eqn:Hd.
    + injection Hstep as <-. by apply StepLeave.
    + destruct (pipeline_work_queue (replayer p)) as [| item rest] eqn:Hq; [discriminate |].
      injection Hstep as <-. by apply StepPop.
  - unfold worker_exec in Hstep.
    destruct (thread_pool (replayer p) !! w) as [[| item | |] |] eqn:Hw; try discriminate.
    injection Hstep as <-. by apply StepExec.
  - unfold worker_done in Hstep.
    destruct (thread_pool (replayer p) !! w) as [[| | item |] |] eqn:Hw; try discriminate.
    injection Hstep as <-. by apply (StepDone w item).
Qed.

Lemma step_spec_step l p p' :
  exited p = None -> step_spec l p p' -> step l p = Some p'.
Proof.
  intros Hex Hspec. unfold step. rewrite Hex.
  destruct Hspec; unfold main_step, worker_pop, worker_exec, worker_done;
    repeat match goal with H : _ = _ |- _ => rewrite H end; try reflexivity.
  by rewrite Z.eqb_refl.
Qed.

Lemma run_snoc ls l p :
  run (ls ++ [l]) p = match run ls p with Some q => step l q | None => None end.
Proof.
  rewrite run_app. destruct (run ls p) as [q |]; [| reflexivity].
  cbn [run]. by destruct (step l q).
Qed.

Lemma taken_app ls1 : forall ls2 p q,
  run ls1 p = Some q -> taken (ls1 ++ ls2) p = taken ls1 p ++ taken ls2 q.
Proof.
  induction ls1 as [| l ls1 IH]; intros ls2 p q Hrun.
  - cbn in Hrun. by injection Hrun as ->.
  - cbn [run app taken] in *. destruct (step l p) as [p1 |]; [| discriminate].
    rewrite (IH ls2 p1 q Hrun). by rewrite app_assoc.
Qed.

Lemma taken_snoc ls l p q q' :
  run ls p = Some q -> step l q = Some q' -> taken (ls ++ [l]) p = taken ls p ++ took l q'.
Proof.
  intros Hrun Hstep. rewrite (taken_app ls [l] p q Hrun). cbn [taken]. rewrite Hstep.
  by rewrite app_nil_r.
Qed.

(** ** Handles held by a registry *)

Lemma live_handles_perm (l1 l2 : list (Z * Z)) :
  l1 ≡ₚ l2 ->
  length (List.filter (fun entry : Z * Z => bool_decide (entry.2 ≠ VK_NULL_HANDLE)) l1)
  = length (List.filter (fun entry : Z * Z => bool_decide (entry.2 ≠ VK_NULL_HANDLE)) l2).
Proof.
  induction 1 as [| x l1 l2 _ IH | x y l | l1 l2 l3 _ IH1 _ IH2]; cbn.
  - reflexivity.
  - destruct (bool_decide _); cbn; lia.
  - repeat destruct (bool_decide _); cbn; lia.
  - lia.
Qed.

Lemma live_handles_insert (m : gmap Z Z) k v :
  (live_handles (<[k := v]> m)
   + (if bool_decide (default VK_NULL_HANDLE (m !! k) ≠ VK_NULL_HANDLE) then 1 else 0)
   = live_handles m + (if bool_decide (v ≠ VK_NULL_HANDLE) then 1 else 0))%nat.
Proof.
  unfold live_handles. destruct (m !! k) as [x |] eqn:Hk; cbn [default].
  - rewrite <- (insert_delete_eq m k v).
    rewrite (live_handles_perm _ _ (map_to_list_insert (delete k m) k v (lookup_delete_eq m k))).
    rewrite <- (live_handles_perm _ _ (map_to_list_delete m k x Hk)).
    cbn [List.filter fst snd]. repeat destruct (bool_decide _); cbn [length]; lia.
  - rewrite (live_handles_perm _ _ (map_to_list_insert m k v Hk)).
    cbn [List.filter fst snd]. rewrite (bool_decide_eq_false_2 (VK_NULL_HANDLE ≠ VK_NULL_HANDLE)) by auto.
    destruct (bool_decide _); cbn [length]; lia.
Qed.

Lemma live_handles_empty : live_handles ∅ = 0%nat.
Proof. unfold live_handles. by rewrite map_to_list_empty. Qed.

(** ** The destructor *)

Lemma teardown_destroys_app c l1 l2 :
  teardown_destroys c (l1 ++ l2) = (teardown_destroys c l1 + teardown_destroys c l2)%nat.
Proof. unfold teardown_destroys. by rewrite List.filter_app, length_app. Qed.

Lemma destroy_all_count c c' (m : gmap Z Z) :
  teardown_destroys c (destroy_all c' m) = if bool_decide (c' = c) then live_handles m else 0%nat.
Proof.
  unfold teardown_destroys, destroy_all, live_handles.
  induction (map_to_list m) as [| entry l IH]; cbn [omap list_omap List.filter].
  - by destruct (bool_decide _).
  - destruct (bool_decide (entry.2 ≠ VK_NULL_HANDLE)); cbn [List.filter length]; [| exact IH].
    destruct (bool_decide (c' = c)) eqn:Hc; cbn [length]; rewrite IH; reflexivity.
Qed.

Lemma save_pipeline_cache_no_destroy c env path :
  teardown_destroys c (save_pipeline_cache env path) = 0%nat.
Proof.
  unfold teardown_destroys, save_pipeline_cache.
  destruct (cache_size_result env); [| reflexivity].
  destruct (cache_data_result env); [| reflexivity].
  destruct (fopen_wb env); [| reflexivity].
  by destruct (negb _).
Qed.

Lemma delete_destroys c env r :
  c <> RESOURCE_APPLICATION_INFO -> c <> RESOURCE_COUNT ->
  teardown_destroys c (ThreadedReplayer_delete env r) = live_handles (registry r c).
Proof.
  intros Hc1 Hc2. unfold ThreadedReplayer_delete.
  rewrite !teardown_destroys_app, !destroy_all_count.
  assert (teardown_destroys c
            (if bool_decide (pipeline_cache r ≠ VK_NULL_HANDLE)
             then (if negb (String.eqb (Options.on_disk_pipeline_cache_path (opts r)) EmptyString)
                   then save_pipeline_cache env (Options.on_disk_pipeline_cache_path (opts r))
                   else []) ++ [DestroyPipelineCache (pipeline_cache r)]
             else []) = 0%nat) as ->.
  { destruct (bool_decide _); [| reflexivity]. rewrite teardown_destroys_app.
    destruct (negb _); [rewrite save_pipeline_cache_no_destroy |]; reflexivity. }
  unfold samplers, layouts, pipeline_layouts, shader_modules, render_passes, compute_pipelines,
    graphics_pipelines.
  destruct c; try congruence; repeat case_bool_decide; try congruence; lia.
Qed.

Lemma destroy_all_elem c c' h (m : gmap Z Z) :
  DestroyObject c h ∈ destroy_all c' m <->
  c = c' /\ h <> VK_NULL_HANDLE /\ exists k, m !! k = Some h.
Proof.
  unfold destroy_all. rewrite list_elem_of_omap. split.
  - intros ([k x] & Hin & Hx). apply elem_of_map_to_list in Hin. cbn [snd] in Hx.
    destruct (bool_decide (x ≠ VK_NULL_HANDLE)) eqn:Hb; [| discriminate].
    injection Hx as <- <-. apply bool_decide_eq_true in Hb. eauto.
  - intros (-> & Hh & k & Hk). exists (k, h). split; [by apply elem_of_map_to_list |].
    cbn [snd]. by rewrite bool_decide_eq_true_2.
Qed.

Lemma save_pipeline_cache_calls env path call :
  call ∈ save_pipeline_cache env path ->
  (forall c h, call <> DestroyObject c h) /\ (forall h, call <> DestroyPipelineCache h)
  /\ (forall buffer n, call = WriteCacheFile buffer n ->
        cache_size_result env = Some (length buffer) /\ is_Some (cache_data_result env)
        /\ fopen_wb env = true /\ n = fwrite_result env).
Proof.
  unfold save_pipeline_cache. intros Hin.
  apply elem_of_cons in Hin as [-> | Hin]; [done |].
  destruct (cache_size_result env) as [size |]; [| by apply elem_of_nil in Hin].
  apply elem_of_cons in Hin as [-> | Hin]; [done |].
  destruct (cache_data_result env) as [data |]; [| by apply elem_of_nil in Hin].
  apply elem_of_cons in Hin as [-> | Hin]; [done |].
  destruct (fopen_wb env).
  - apply elem_of_cons in Hin as [-> | Hin].
    + split; [done |]. split; [done |]. intros buffer n [= <- <-].
      rewrite length_resize. eauto.
    + apply elem_of_app in Hin as [Hin | Hin].
      * destruct (negb _); [| by apply elem_of_nil in Hin].
        apply list_elem_of_singleton in Hin as ->. done.
      * apply list_elem_of_singleton in Hin as ->. done.
  - apply list_elem_of_singleton in Hin as ->. done.
Qed.

Lemma delete_calls env r :
  (forall c h,
     DestroyObject c h ∈ ThreadedReplayer_delete env r <->
     c <> RESOURCE_APPLICATION_INFO /\ c <> RESOURCE_COUNT
     /\ h <> VK_NULL_HANDLE /\ exists k, registry r c !! k = Some h)
  /\ (forall h, DestroyPipelineCache h ∈ ThreadedReplayer_delete env r <->
                h = pipeline_cache r /\ h <> VK_NULL_HANDLE)
  /\ (forall buffer n,
        WriteCacheFile buffer n ∈ ThreadedReplayer_delete env r ->
        pipeline_cache r <> VK_NULL_HANDLE
        /\ Options.on_disk_pipeline_cache_path (opts r) <> EmptyString
        /\ cache_size_result env = Some (length buffer)
        /\ is_Some (cache_data_result env) /\ fopen_wb env = true).
Proof.
  assert (Hhead : forall call,
            call ∈ (if bool_decide (pipeline_cache r ≠ VK_NULL_HANDLE)
                    then (if negb (String.eqb (Options.on_disk_pipeline_cache_path (opts r))
                                     EmptyString)
                          then save_pipeline_cache env (Options.on_disk_pipeline_cache_path (opts r))
                          else []) ++ [DestroyPipelineCache (pipeline_cache r)]
                    else []) ->
            pipeline_cache r <> VK_NULL_HANDLE
            /\ (call = DestroyPipelineCache (pipeline_cache r)
                \/ (Options.on_disk_pipeline_cache_path (opts r) <> EmptyString
                    /\ call ∈ save_pipeline_cache env (Options.on_disk_pipeline_cache_path (opts r))))).
  { intros call Hin. case_bool_decide as Hcache; [| by apply elem_of_nil in Hin].
    split; [exact Hcache |]. apply elem_of_app in Hin as [Hin | Hin].
    - destruct (String.eqb_spec (Options.on_disk_pipeline_cache_path (opts r)) EmptyString);
        cbn [negb] in Hin; [by apply elem_of_nil in Hin | by right].
    - apply list_elem_of_singleton in Hin. by left. }
  assert (Hall : forall call c' m, call ∈ destroy_all c' m -> exists h, call = DestroyObject c' h).
  { intros call c' m Hin. unfold destroy_all in Hin. apply list_elem_of_omap in Hin as (kv & _ & Hk).
    destruct (bool_decide (kv.2 ≠ VK_NULL_HANDLE)); [| discriminate]. injection Hk as <-. eauto. }
  unfold ThreadedReplayer_delete, samplers, layouts, pipeline_layouts, shader_modules,
    render_passes, compute_pipelines, graphics_pipelines.
  split; [| split].
  - intros c h. rewrite !elem_of_app, !destroy_all_elem. split.
    + intros [Hin | Hin].
      * destruct (Hhead _ Hin) as (_ & [Heq | [_ Hs]]); [discriminate |].
        by destruct (save_pipeline_cache_calls _ _ _ Hs) as (Hno & _); destruct (Hno c h).
      * destruct Hin as [H | [H | [H | [H | [H | [H | H]]]]]]; destruct H as (-> & Hh & Hk);
          done.
    + intros (Hc1 & Hc2 & Hh & Hk). right. destruct c; try done; tauto.
  - intros h. rewrite !elem_of_app. split.
    + intros [Hin | Hin].
      * destruct (Hhead _ Hin) as (Hcache & [[= ->] | [_ Hs]]); [done |].
        by destruct (save_pipeline_cache_calls _ _ _ Hs) as (_ & Hno & _); destruct (Hno h).
      * destruct Hin as [H | [H | [H | [H | [H | [H | H]]]]]];
          destruct (Hall _ _ _ H) as [h' Hh']; discriminate.
    + intros [-> Hh]. left. rewrite bool_decide_eq_true_2 by done. apply elem_of_app. right.
      apply list_elem_of_here.
  - intros buffer n. rewrite !elem_of_app. intros [Hin | Hin].
    + destruct (Hhead _ Hin) as (Hcache & [Heq | [Hpath Hs]]); [discriminate |].
      destruct (save_pipeline_cache_calls _ _ _ Hs) as (_ & _ & Hw).
      destruct (Hw buffer n eq_refl) as (? & ? & ? & _). done.
    + destruct Hin as [H | [H | [H | [H | [H | [H | H]]]]]];
        destruct (Hall _ _ _ H) as [h' Hh']; discriminate.
Qed.

(** ** What the main thread leaves of the deferred categories *)

Lemma destroys_snoc c tr call :
  is_destroy c call = false -> destroys c (tr ++ [call]) = destroys c tr.
Proof. intros H. unfold destroys. rewrite count_calls_app. cbn. rewrite H. lia. Qed.

Lemma destroys_app c tr1 tr2 :
  destroys c (tr1 ++ tr2) = (destroys c tr1 + destroys c tr2)%nat.
Proof. apply count_calls_app. Qed.

Lemma successes_app c tr1 tr2 :
  successes c (tr1 ++ tr2) = (successes c tr1 + successes c tr2)%nat.
Proof. apply count_calls_app. Qed.

Lemma main_ledger_refl p : main_ledger p p None.
Proof.
  split; [done |]. split; [| done]. intros c _. split; [done |]. by rewrite (right_id_L ∅ (∪)).
Qed.

Lemma main_ledger_same p q :
  registry (replayer q) = registry (replayer p) ->
  (forall c, destroys c (vk_trace q) = destroys c (vk_trace p)) ->
  pipeline_work_queue (replayer q) = pipeline_work_queue (replayer p) ->
  main_ledger p q None.
Proof.
  intros Hr Hd Hq. split; [exact Hd |]. split; [| exact Hq].
  intros c _. rewrite Hr. split; [done |]. by rewrite (right_id_L ∅ (∪)).
Qed.

Lemma inline_ledger c index info out result p :
  is_deferred c = false ->
  main_ledger p (enqueue_create_inline c index info out result p).1 None.
Proof.
  intros Hc. destruct result as [h |]; cbn [enqueue_create_inline fst].
  - split; [| split].
    + intros c'. unfold destroys. cbn. rewrite count_calls_app. cbn. lia.
    + intros c' Hc'. cbn. rewrite upd_other by congruence.
      split; [done |]. by rewrite (right_id_L ∅ (∪)).
    + reflexivity.
  - apply main_ledger_same; [reflexivity | | reflexivity].
    intros c'. unfold destroys. cbn. rewrite count_calls_app. cbn. lia.
Qed.

Lemma set_application_info_ledger env p : main_ledger p (set_application_info env p) None.
Proof.
  unfold set_application_info.
  destruct (device_was_init (replayer p)); cbn [negb]; [apply main_ledger_refl |].
  destruct (init_device env); cbn [negb].
  2: { apply main_ledger_same; reflexivity. }
  cbn [upd_replayer set_replayer replayer set_device_was_init opts].
  destruct (Options.pipeline_cache (opts (replayer p))).
  2: { apply main_ledger_same; reflexivity. }
  destruct (load_on_disk_cache _ env) as [data lines].
  destruct (create_cache_first env); [| destruct (create_cache_retry env)];
    (apply main_ledger_same; [reflexivity | | reflexivity]); intros c;
    unfold destroys; cbn; rewrite ?count_calls_app; cbn; lia.
Qed.

Lemma push_ledger c h info out p :
  is_deferred c = true ->
  main_ledger p
    (push_work_item {| hash := h; tag := c; create_info := info; output := out;
                       hash_map_entry := (c, h) |} (map_entry c h p))
    (Some (c, h)).
Proof.
  intros Hc. split; [| split].
  - intros c'. unfold map_entry. by destruct (registry (replayer p) c !! h).
  - intros c' Hc'. cbn [fst snd]. unfold map_entry.
    destruct (registry (replayer p) c !! h) as [x |] eqn:Hk.
    + cbn. split; [done |]. destruct (decide (c = c')) as [<- |]; [| by rewrite (right_id_L ∅ (∪))].
      apply elem_of_dom_2 in Hk. set_solver.
    + cbn. destruct (decide (c = c')) as [<- |].
      * rewrite upd_same. split.
        -- pose proof (live_handles_insert (registry (replayer p) c) h VK_NULL_HANDLE) as Hl.
           rewrite Hk in Hl. cbn [default] in Hl.
           rewrite (bool_decide_eq_false_2 (VK_NULL_HANDLE ≠ VK_NULL_HANDLE)) in Hl by auto. lia.
        -- rewrite dom_insert_L. set_solver.
      * rewrite upd_other by congruence. split; [done |]. by rewrite (right_id_L ∅ (∪)).
  - eexists. split; [cbn; by rewrite map_entry_queue |].
    split; [reflexivity | split; [exact Hc | reflexivity]].
Qed.

Lemma parse_ledger env c h blob p :
  main_ledger p (parse env c h blob p)
    (push_of (filter_graphics (replayer p)) (filter_compute (replayer p)) (OpParse c h blob)).
Proof.
  destruct blob as [| info out].
  { cbn. apply main_ledger_same; reflexivity. }
  destruct c; cbn [parse push_of op_pushes].
  - apply set_application_info_ledger.
  - by apply inline_ledger.
  - by apply inline_ledger.
  - by apply inline_ledger.
  - by apply push_ledger.
  - by apply inline_ledger.
  - unfold enqueue_create_graphics_pipeline, graphics_selected.
    destruct (_ || _); cbn [fst]; [by apply push_ledger |].
    apply main_ledger_same; reflexivity.
  - unfold enqueue_create_compute_pipeline, compute_selected.
    destruct (_ || _); cbn [fst]; [by apply push_ledger |].
    apply main_ledger_same; reflexivity.
  - apply main_ledger_refl.
Qed.

(** ** What one work item leaves of the registries *)

Lemma replay_once_registry item result p c :
  registry (replayer (replay_once item result p)) c
  = if decide (c = (hash_map_entry item).1)
    then <[(hash_map_entry item).2 := handle_of result]> (registry (replayer p) c)
    else registry (replayer p) c.
Proof.
  unfold replay_once. destruct result as [h ns |]; destruct (bool_decide _); cbn;
    unfold read_output; cbn; rewrite ?lookup_insert_eq; cbn;
    destruct (decide (c = (hash_map_entry item).1)) as [-> |];
    rewrite ?upd_same, ?upd_other, ?insert_insert_eq by done; reflexivity.
Qed.

Lemma destroys_iteration_any c item result p :
  destroys c (iteration_calls item result p)
  = if bool_decide (tag item = c) && bool_decide (entry_read (hash_map_entry item) p ≠ VK_NULL_HANDLE)
    then 1%nat else 0%nat.
Proof.
  unfold destroys, iteration_calls.
  destruct (bool_decide (entry_read _ p ≠ _)); cbn; destruct (bool_decide (tag item = c)); reflexivity.
Qed.

Lemma replay_once_balanced c item result p :
  hash_map_entry item = (tag item, hash item) ->
  (forall h ns, result = Created h ns -> h <> VK_NULL_HANDLE) ->
  balanced c p -> balanced c (replay_once item result p).
Proof.
  intros Hentry Hres. unfold balanced.
  rewrite replay_once_trace, replay_once_registry, successes_app, destroys_app.
  rewrite successes_iteration, destroys_iteration_any.
  unfold entry_read. rewrite Hentry. cbn [fst snd].
  destruct (decide (c = tag item)) as [-> |].
  - rewrite bool_decide_eq_true_2 by reflexivity. cbn [andb].
    pose proof (live_handles_insert (registry (replayer p) (tag item)) (hash item)
                  (handle_of result)) as Hl.
    intros Hb.
    assert ((if succeeded result then 1 else 0)
            = (if bool_decide (handle_of result ≠ VK_NULL_HANDLE) then 1 else 0))%nat as Hs.
    { destruct result as [h ns |]; cbn.
      - by rewrite bool_decide_eq_true_2 by eauto.
      - by rewrite bool_decide_eq_false_2 by auto. }
    rewrite Hs. lia.
  - rewrite bool_decide_eq_false_2 by congruence. cbn [andb]. lia.
Qed.

Lemma replay_loop_balanced c n : forall i item results p,
  hash_map_entry item = (tag item, hash item) ->
  (forall j h ns, results j = Created h ns -> h <> VK_NULL_HANDLE) ->
  balanced c p -> balanced c (replay_loop n i item results p).
Proof.
  induction n as [| n IH]; intros i item results p Hentry Hres Hb; [exact Hb |].
  cbn [replay_loop]. apply IH; [exact Hentry | exact Hres |].
  apply replay_once_balanced; eauto.
Qed.

Lemma run_work_item_balanced c item results p :
  hash_map_entry item = (tag item, hash item) ->
  (forall j h ns, results j = Created h ns -> h <> VK_NULL_HANDLE) ->
  balanced c p -> balanced c (run_work_item item results p).
Proof.
  intros Hentry Hres Hb. unfold run_work_item.
  destruct (tag item) eqn:Ht; try exact Hb; apply replay_loop_balanced; try assumption;
    by rewrite Ht.
Qed.

Lemma replay_loop_dom c n : forall i item results p,
  (hash_map_entry item).2 ∈ dom (registry (replayer p) (hash_map_entry item).1) ->
  dom (registry (replayer (replay_loop n i item results p)) c) = dom (registry (replayer p) c).
Proof.
  induction n as [| n IH]; intros i item results p Hin; [reflexivity |].
  cbn [replay_loop].
  assert (Hone : forall c', dom (registry (replayer (replay_once item (results i) p)) c')
                            = dom (registry (replayer p) c')).
  { intros c'. rewrite replay_once_registry.
    destruct (decide (c' = (hash_map_entry item).1)) as [-> |]; [| reflexivity].
    rewrite dom_insert_L. set_solver. }
  rewrite IH by (by rewrite Hone). apply Hone.
Qed.

Lemma run_work_item_dom c item results p :
  (hash_map_entry item).2 ∈ dom (registry (replayer p) (hash_map_entry item).1) ->
  dom (registry (replayer (run_work_item item results p)) c) = dom (registry (replayer p) c).
Proof.
  intros Hin. unfold run_work_item.
  destruct (tag item) eqn:Ht; try reflexivity; by apply replay_loop_dom.
Qed.

(** ** The history of a run *)

Lemma pushed_hashes_snoc c keys pushed :
  pushed_hashes c (keys ++ option_list pushed)
  = pushed_hashes c keys
    ∪ match pushed with
      | Some key => if decide (key.1 = c) then {[ key.2 ]} else ∅
      | None => ∅
      end.
Proof.
  unfold pushed_hashes. rewrite List.filter_app, map_app, list_to_set_app_L.
  f_equal. destruct pushed as [key |]; cbn; [| reflexivity].
  destruct (decide (key.1 = c)).
  - rewrite bool_decide_eq_true_2 by done. cbn. by rewrite (right_id_L ∅ (∪)).
  - by rewrite bool_decide_eq_false_2 by done.
Qed.

Lemma omap_snoc {A B} (f : A -> option B) l x :
  omap f (l ++ [x]) = omap f l ++ option_list (f x).
Proof. rewrite omap_app. cbn. by destruct (f x). Qed.

Lemma history_main db p0 ls p q op rest pushed :
  history db p0 ls p ->
  script p = op :: rest ->
  script q = rest ->
  push_of (filter_graphics (replayer p0)) (filter_compute (replayer p0)) op = pushed ->
  main_ledger p q pushed ->
  thread_pool (replayer q) = thread_pool (replayer p) ->
  filter_graphics (replayer q) = filter_graphics (replayer p) ->
  filter_compute (replayer q) = filter_compute (replayer p) ->
  history db p0 ls q.
Proof.
  intros (Hg & Hc & pre & Hpre & Hkeys & Hpend & Hdom) Hs Hs' Hpush (Hd & Hreg & Hq) Hpool Hg' Hc'.
  split; [congruence |]. split; [congruence |].
  exists (pre ++ [op]). rewrite omap_snoc, Hpush.
  split; [rewrite Hpre, Hs, Hs', <- app_assoc; reflexivity |].
  assert (Hmono : forall item,
            facade_item item /\ hash item ∈ dom (registry (replayer p) (tag item)) ->
            facade_item item /\ hash item ∈ dom (registry (replayer q) (tag item))).
  { intros item [Hf Hin]. split; [exact Hf |].
    destruct (Hreg (tag item) (proj1 Hf)) as [_ ->]. set_solver. }
  split; [| split].
  - destruct pushed as [key |]; cbn [option_list].
    + destruct Hq as (item & -> & Hkey & _).
      rewrite app_assoc, map_app, Hkeys. cbn. by rewrite Hkey.
    + rewrite Hq, app_nil_r. exact Hkeys.
  - unfold pending_items in *. rewrite Hpool.
    destruct pushed as [key |].
    + destruct Hq as (item & -> & Hkey & Hf).
      rewrite <- app_assoc. apply Forall_app in Hpend as [H1 H2].
      apply Forall_app. split; [eapply Forall_impl; [exact H1 | exact Hmono] |].
      apply Forall_cons. split; [| eapply Forall_impl; [exact H2 | exact Hmono]].
      split; [exact Hf |]. destruct (Hreg (tag item) (proj1 Hf)) as [_ ->].
      unfold item_key in Hkey. subst key. cbn [fst snd].
      rewrite decide_True by reflexivity. set_solver.
    + rewrite Hq. eapply Forall_impl; [exact Hpend | exact Hmono].
  - intros c Hdef. rewrite pushed_hashes_snoc, <- Hdom by exact Hdef.
    by destruct (Hreg c Hdef) as [_ ->].
Qed.

Lemma history_worker db p0 ls p q l :
  history db p0 ls p ->
  script q = script p ->
  filter_graphics (replayer q) = filter_graphics (replayer p) ->
  filter_compute (replayer q) = filter_compute (replayer p) ->
  (forall c, dom (registry (replayer q) c) = dom (registry (replayer p) c)) ->
  took l q ++ pipeline_work_queue (replayer q) = pipeline_work_queue (replayer p) ->
  (exists items, pending_items p ≡ₚ items ++ pending_items q) ->
  taken (ls ++ [l]) p0 = taken ls p0 ++ took l q ->
  history db p0 (ls ++ [l]) q.
Proof.
  intros (Hg & Hc & pre & Hpre & Hkeys & Hpend & Hdom) Hs Hg' Hc' Hreg Hq [items Hperm] Htaken.
  split; [congruence |]. split; [congruence |].
  exists pre. split; [by rewrite Hs |]. split; [| split].
  - rewrite Htaken, <- app_assoc, Hq. exact Hkeys.
  - eapply Permutation_Forall in Hpend; [| exact Hperm].
    apply Forall_app in Hpend as [_ Hpend].
    eapply Forall_impl; [exact Hpend |]. intros item [Hf Hin]. split; [exact Hf |].
    by rewrite Hreg.
  - intros c Hdef. rewrite Hreg. by apply Hdom.
Qed.

Lemma step_history db p0 ls p l p' :
  history db p0 ls p -> run ls p0 = Some p -> step l p = Some p' ->
  history db p0 (ls ++ [l]) p'.
Proof.
  intros Hhist Hrun Hstep.
  pose proof (taken_snoc ls l p0 p p' Hrun Hstep) as Htaken.
  pose proof Hhist as (Hg & Hc & _).
  destruct (step_inversion l p p' Hstep) as [Hex Hspec].
  destruct Hspec as [env c h blob rest p Hs | env rest p Hs Heq | env e rest p Hs | env rest p Hs
                    | env rest p Hs | env code rest p Hs Hall | w p Hw Hd | w item rest p Hw Hd Hq
                    | w results item p Hw | w item p Hw].
  - destruct (parse_effect env c h blob p) as [(_ & _ & Fp & _ & _ & Fg & Fc & _) _].
    assert (Hhist' : history db p0 ls (set_script rest (parse env c h blob p))).
    { eapply (history_main db p0 ls p _ (OpParse c h blob) rest); eauto.
      rewrite <- Hg, <- Hc. apply parse_ledger. }
    destruct Hhist' as (? & ? & pre & ? & Hk & ? & ?).
    split; [done |]. split; [done |]. exists pre. rewrite Htaken. cbn [took]. by rewrite app_nil_r.
  - assert (Hhist' : history db p0 ls (set_script rest p)).
    { eapply (history_main db p0 ls p _ OpSync rest); eauto. by apply main_ledger_same. }
    destruct Hhist' as (? & ? & pre & ? & Hk & ? & ?).
    split; [done |]. split; [done |]. exists pre. rewrite Htaken. cbn [took]. by rewrite app_nil_r.
  - assert (Hhist' : history db p0 ls (set_script rest (log_line e p))).
    { eapply (history_main db p0 ls p _ (OpLog e) rest); eauto. by apply main_ledger_same. }
    destruct Hhist' as (? & ? & pre & ? & Hk & ? & ?).
    split; [done |]. split; [done |]. exists pre. rewrite Htaken. cbn [took]. by rewrite app_nil_r.
  - assert (Hhist' : history db p0 ls
                       (set_script rest (set_reported (Some (make_report (replayer p))) p))).
    { eapply (history_main db p0 ls p _ OpReport rest); eauto. by apply main_ledger_same. }
    destruct Hhist' as (? & ? & pre & ? & Hk & ? & ?).
    split; [done |]. split; [done |]. exists pre. rewrite Htaken. cbn [took]. by rewrite app_nil_r.
  - assert (Hhist' : history db p0 ls
                       (set_script rest (upd_replayer (set_shutting_down true) p))).
    { eapply (history_main db p0 ls p _ OpShutdown rest); eauto. by apply main_ledger_same. }
    destruct Hhist' as (? & ? & pre & ? & Hk & ? & ?).
    split; [done |]. split; [done |]. exists pre. rewrite Htaken. cbn [took]. by rewrite app_nil_r.
  - assert (Hhist' : history db p0 ls (set_script rest (set_exited (Some code) p))).
    { eapply (history_main db p0 ls p _ (OpJoin code) rest); eauto. by apply main_ledger_same. }
    destruct Hhist' as (? & ? & pre & ? & Hk & ? & ?).
    split; [done |]. split; [done |]. exists pre. rewrite Htaken. cbn [took]. by rewrite app_nil_r.
  - assert (Hlt : (w < length (thread_pool (replayer p)))%nat) by (eapply lookup_lt_Some; eauto).
    assert (Htook : took (LPop w) (set_worker w Exited (flush_locals p)) = []).
    { cbn. by rewrite list_lookup_insert_eq. }
    apply (history_worker db p0 ls p _ _ Hhist); try reflexivity; [| | exact Htaken].
    + by rewrite Htook.
    + exists []. unfold pending_items. cbn.
      by rewrite (held_insert_same _ w Waiting Exited Hw eq_refl).
  - assert (Hlt : (w < length (thread_pool (replayer p)))%nat) by (eapply lookup_lt_Some; eauto).
    assert (Htook : took (LPop w)
                      (set_worker w (Popped item) (upd_replayer (set_pipeline_work_queue rest) p))
                    = [item]).
    { cbn. by rewrite list_lookup_insert_eq. }
    apply (history_worker db p0 ls p _ _ Hhist); try reflexivity; [| | exact Htaken].
    + rewrite Htook. cbn. by rewrite Hq.
    + exists []. unfold pending_items. cbn. rewrite Hq.
      rewrite (held_insert_take _ w Waiting (Popped item) item Hw eq_refl eq_refl).
      cbn. by rewrite Permutation_middle.
  - assert (Hlt : (w < length (thread_pool (replayer p)))%nat) by (eapply lookup_lt_Some; eauto).
    destruct (run_work_item_schedule item results p)
      as (Fs & Fe & Fr & Fq & Fp & Fn & Fc & Fd & Fg & Ff & Fl).
    pose proof Hhist as (_ & _ & pre & _ & _ & Hpend & _).
    assert (Hitem : facade_item item /\ hash item ∈ dom (registry (replayer p) (tag item))).
    { rewrite Forall_forall in Hpend. apply Hpend. unfold pending_items. apply elem_of_app. right.
      eapply held_pending; eauto. }
    destruct Hitem as [[Hdef Hentry] Hin].
    apply (history_worker db p0 ls p _ _ Hhist); [exact Fs | exact Fg | exact Ff | | | | exact Htaken].
    + intros c. apply (run_work_item_dom c item results p). by rewrite Hentry.
    + exact Fq.
    + exists []. unfold pending_items. cbn. rewrite Fq, Fp.
      by rewrite (held_insert_same _ w (Popped item) (Executed item) Hw eq_refl).
  - apply (history_worker db p0 ls p _ _ Hhist); try reflexivity; [| exact Htaken].
    exists [item]. unfold pending_items. cbn.
    rewrite (held_insert_release _ w (Executed item) Waiting item Hw eq_refl eq_refl).
    by rewrite Permutation_middle.
Qed.

Lemma main_history hw argv db p0 ls : forall p,
  main hw argv db = inr p0 -> run ls p0 = Some p -> history db p0 ls p.
Proof.
  induction ls as [| l ls IH] using rev_ind; intros p Hmain Hrun.
  - cbn in Hrun. injection Hrun as <-.
    apply main_started in Hmain as (o & g & c & -> & _).
    split; [reflexivity |]. split; [reflexivity |]. exists [].
    split; [reflexivity |]. split; [reflexivity |]. split.
    + unfold pending_items. cbn. rewrite omap_held_waiting. constructor.
    + intros c' _. cbn. unfold pushed_hashes. cbn. by rewrite dom_empty_L.
  - rewrite run_snoc in Hrun. destruct (run ls p0) as [q |] eqn:Hq; [| discriminate].
    eapply step_history; eauto.
Qed.

(** ** No handle is lost *)

Lemma balanced_same c p q :
  vk_trace q = vk_trace p -> registry (replayer q) = registry (replayer p) ->
  balanced c p -> balanced c q.
Proof. unfold balanced. by intros -> ->. Qed.

Lemma step_balanced c l p p' :
  is_deferred c = true -> delivers_handles l ->
  Forall (fun item => facade_item item
                      /\ hash item ∈ dom (registry (replayer p) (tag item))) (pending_items p) ->
  step l p = Some p' -> balanced c p -> balanced c p'.
Proof.
  intros Hc Hl Hpend Hstep Hb.
  destruct (step_inversion l p p' Hstep) as [Hex Hspec].
  destruct Hspec as [env c0 h blob rest p Hs | env rest p Hs Heq | env e rest p Hs | env rest p Hs
                    | env rest p Hs | env code rest p Hs Hall | w p Hw Hd | w item rest p Hw Hd Hq
                    | w results item p Hw | w item p Hw];
    try (by apply (balanced_same c p)).
  - destruct (parse_effect env c0 h blob p) as [(_ & _ & _ & _ & _ & _ & _ & _ & _ & _ & Fs & _) _].
    destruct (parse_ledger env c0 h blob p) as (Fd & Fr & _).
    unfold balanced in *. cbn [vk_trace replayer set_script].
    rewrite (proj1 (Fs c)), Fd, (proj1 (Fr c Hc)). exact Hb.
  - assert (Hitem : facade_item item).
    { rewrite Forall_forall in Hpend. apply Hpend. unfold pending_items. apply elem_of_app. right.
      eapply held_pending; eauto. }
    apply (balanced_same c (run_work_item item results p)); [reflexivity | reflexivity |].
    apply run_work_item_balanced; [exact (proj2 Hitem) | exact Hl | exact Hb].
Qed.

Lemma main_balanced hw argv db p0 ls : forall p,
  main hw argv db = inr p0 -> Forall delivers_handles ls -> run ls p0 = Some p ->
  forall c, is_deferred c = true -> balanced c p.
Proof.
  induction ls as [| l ls IH] using rev_ind; intros p Hmain Hls Hrun c Hc.
  - cbn in Hrun. injection Hrun as <-.
    apply main_started in Hmain as (o & g & c' & -> & _).
    unfold balanced. cbn. by rewrite live_handles_empty.
  - rewrite run_snoc in Hrun. destruct (run ls p0) as [q |] eqn:Hq; [| discriminate].
    apply Forall_app in Hls as [Hls Hl]. apply Forall_inv in Hl.
    destruct (main_history hw argv db p0 ls q Hmain Hq) as (_ & _ & pre & _ & _ & Hpend & _).
    apply (step_balanced c l q p Hc Hl Hpend Hrun). by apply IH.
Qed.

(** ** How the script ends *)

Lemma run_preserves (I : Process -> Prop) :
  (forall l p p', I p -> step l p = Some p' -> I p') ->
  forall ls p p', I p -> run ls p = Some p' -> I p'.
Proof.
  intros Hstep. induction ls as [| l ls IH]; intros p p' Hp Hrun.
  - cbn in Hrun. by injection Hrun as <-.
  - cbn [run] in Hrun. destruct (step l p) as [q |] eqn:Hq; [| discriminate].
    eapply IH; [| exact Hrun]. eapply Hstep; eauto.
Qed.

Lemma play_hashes_plain db c hashes : forallb is_plain (play_hashes db c hashes).1 = true.
Proof.
  induction hashes as [| h hashes IH]; [reflexivity |].
  cbn [play_hashes]. destruct (read_entry db c h); [| reflexivity].
  destruct (play_hashes db c hashes) as [ops ok]. exact IH.
Qed.

Lemma play_tags_plain db tags : forallb is_plain (play_tags db tags).1 = true.
Proof.
  induction tags as [| c tags IH]; [reflexivity |].
  cbn [play_tags]. destruct (get_hash_list_for_resource_tag db c) as [hashes |]; [| reflexivity].
  pose proof (play_hashes_plain db c hashes) as Hh.
  destruct (play_hashes db c hashes) as [ops ok]. destruct ok; [| exact Hh].
  destruct (play_tags db tags) as [ops' ok']. cbn [fst] in *.
  rewrite !forallb_app, Hh, IH. by destruct (decide _).
Qed.

Lemma main_script_closes db :
  exists ops code, main_script db = ops ++ [OpShutdown; OpJoin code] /\ forallb is_plain ops = true.
Proof.
  unfold main_script. destruct (prepare db).
  - pose proof (play_tags_plain db playback_order) as Hp.
    destruct (play_tags db playback_order) as [ops ok]. destruct ok.
    + exists (ops ++ [OpSync; OpReport]), EXIT_SUCCESS. rewrite <- app_assoc.
      split; [reflexivity |]. rewrite forallb_app. cbn [fst] in Hp. by rewrite Hp.
    + by exists ops, EXIT_FAILURE.
  - by exists [OpLog LogPrepareFailed], EXIT_FAILURE.
Qed.

Lemma main_closes hw argv db p0 : main hw argv db = inr p0 -> closes p0.
Proof.
  intros Hmain. apply main_started in Hmain as (o & g & c & -> & ->).
  unfold closes. cbn [replayer thread_pool ThreadedReplayer_new shutting_down script].
  rewrite repeat_length, adjust_options_threads. split; [lia |]. split.
  - apply Forall_forall. intros st Hin. apply list_elem_of_In, repeat_spec in Hin. by subst.
  - apply main_script_closes.
Qed.

Lemma plain_head op rest ops code :
  op :: rest = ops ++ [OpShutdown; OpJoin code] -> forallb is_plain ops = true ->
  (is_plain op = true /\ exists ops', ops = op :: ops' /\ rest = ops' ++ [OpShutdown; OpJoin code]
                                      /\ forallb is_plain ops' = true)
  \/ (op = OpShutdown /\ ops = [] /\ rest = [OpJoin code]).
Proof.
  intros Heq Hplain. destruct ops as [| op' ops'].
  - cbn in Heq. injection Heq as -> ->. by right.
  - cbn in Heq. injection Heq as -> ->. cbn in Hplain. apply andb_true_iff in Hplain as [H1 H2].
    left. split; [exact H1 |]. by exists ops'.
Qed.

Lemma closes_main_plain p q op rest :
  closes p -> exited p = None -> script p = op :: rest -> is_plain op = true ->
  script q = rest ->
  thread_pool (replayer q) = thread_pool (replayer p) ->
  shutting_down (replayer q) = shutting_down (replayer p) ->
  closes q.
Proof.
  intros [Hlen Hc] Hex Hs Hop Hs' Hpool Hd. unfold closes. rewrite Hpool, Hd.
  split; [exact Hlen |]. destruct (shutting_down (replayer p)).
  - destruct (Hc Hex) as [code Hcode]. rewrite Hs in Hcode. injection Hcode as -> ->. discriminate.
  - destruct Hc as (Hall & ops & code & Heq & Hplain). split; [exact Hall |].
    rewrite Hs in Heq. destruct (plain_head _ _ _ _ Heq Hplain) as [(_ & ops' & -> & -> & Hp') | (-> & _)];
      [| discriminate].
    exists ops', code. by rewrite Hs'.
Qed.

Lemma closes_worker p q w st :
  closes p ->
  script q = script p -> exited q = exited p ->
  shutting_down (replayer q) = shutting_down (replayer p) ->
  thread_pool (replayer q) = <[w := st]> (thread_pool (replayer p)) ->
  (shutting_down (replayer p) = false -> st <> Exited) ->
  closes q.
Proof.
  intros [Hlen Hc] Hs Hex Hd Hpool Hst. unfold closes. rewrite Hpool, Hd, Hs, Hex, length_insert.
  split; [exact Hlen |]. destruct (shutting_down (replayer p)); [exact Hc |].
  destruct Hc as [Hall Hrest]. split; [| exact Hrest].
  apply Forall_insert; [exact Hall | by apply Hst].
Qed.

Lemma step_closes l p p' : closes p -> step l p = Some p' -> closes p'.
Proof.
  intros Hc Hstep.
  destruct (step_inversion l p p' Hstep) as [Hex Hspec].
  destruct Hspec as [env c h blob rest p Hs | env rest p Hs Heq | env e rest p Hs | env rest p Hs
                    | env rest p Hs | env code rest p Hs Hall | w p Hw Hd | w item rest p Hw Hd Hq
                    | w results item p Hw | w item p Hw].
  - destruct (parse_effect env c h blob p) as [(_ & _ & Fp & _ & Fd & _) _].
    by apply (closes_main_plain p _ (OpParse c h blob) rest).
  - by apply (closes_main_plain p _ OpSync rest).
  - by apply (closes_main_plain p _ (OpLog e) rest).
  - by apply (closes_main_plain p _ OpReport rest).
  - destruct Hc as [Hlen Hc]. split; [exact Hlen |]. cbn. intros _.
    destruct (shutting_down (replayer p)).
    + destruct (Hc Hex) as [code Hcode]. rewrite Hs in Hcode. discriminate.
    + destruct Hc as (_ & ops & code & Heq & Hplain). rewrite Hs in Heq.
      destruct (plain_head _ _ _ _ Heq Hplain) as [(Hop & _) | (_ & _ & ->)]; [discriminate |].
      by exists code.
  - destruct Hc as [Hlen Hc]. split; [exact Hlen |]. cbn.
    destruct (shutting_down (replayer p)); [intros; discriminate |].
    destruct Hc as (_ & ops & code' & Heq & Hplain). rewrite Hs in Heq.
    destruct (plain_head _ _ _ _ Heq Hplain) as [(Hop & _) | (Hop & _)]; discriminate.
  - apply (closes_worker p _ w Exited Hc); try reflexivity. congruence.
  - apply (closes_worker p _ w (Popped item) Hc); try reflexivity. discriminate.
  - destruct (run_work_item_schedule item results p)
      as (Fs & Fe & Fr & Fq & Fp & Fn & Fc & Fd & Fg & Ff & Fl).
    apply (closes_worker p _ w (Executed item) Hc); try assumption.
    + cbn. by rewrite Fp.
    + discriminate.
  - apply (closes_worker p _ w Waiting Hc); try reflexivity. discriminate.
Qed.

Lemma run_closes ls p p' : closes p -> run ls p = Some p' -> closes p'.
Proof. apply (run_preserves closes). intros l q q' Hq Hstep. eapply step_closes; eauto. Qed.

(** ** Every run can be completed *)

Lemma held_exists (pool : list Worker) :
  omap held pool <> [] -> exists w st item, pool !! w = Some st /\ held st = Some item.
Proof.
  induction pool as [| st pool IH]; [done |]. intros Hne.
  destruct (held st) as [item |] eqn:Hst.
  - by exists 0%nat, st, item.
  - cbn in Hne. rewrite Hst in Hne. destruct (IH Hne) as (w & st' & item & Hw & Hh).
    by exists (S w), st', item.
Qed.

Lemma held_none (pool : list Worker) w st :
  omap held pool = [] -> pool !! w = Some st -> held st = None.
Proof.
  intros Hnil Hw. destruct (held st) as [item |] eqn:Hst; [| reflexivity].
  pose proof (held_pending pool w st item Hw Hst) as Hin. rewrite Hnil in Hin.
  by apply elem_of_nil in Hin.
Qed.

Lemma complete_item env results w item p :
  exited p = None -> thread_pool (replayer p) !! w = Some (Executed item) ->
  exists q,
    step (LDone w) p = Some q /\ exited q = None /\ script q = script p
    /\ shutting_down (replayer q) = shutting_down (replayer p)
    /\ pipeline_work_queue (replayer q) = pipeline_work_queue (replayer p)
    /\ S (length (omap held (thread_pool (replayer q))))
       = length (omap held (thread_pool (replayer p)))
    /\ Forall (answered_by env results) [LDone w].
Proof.
  intros Hex Hw. eexists. split; [apply step_spec_step; [exact Hex | by apply (StepDone w item)] |].
  cbn. repeat split; try done.
  - by rewrite (held_insert_release _ w (Executed item) Waiting item Hw eq_refl eq_refl).
  - by repeat constructor.
Qed.

Lemma settle env results n : forall p,
  length (omap held (thread_pool (replayer p))) = n -> exited p = None ->
  exists ls q,
    run ls p = Some q /\ Forall (answered_by env results) ls
    /\ exited q = None /\ omap held (thread_pool (replayer q)) = []
    /\ script q = script p /\ shutting_down (replayer q) = shutting_down (replayer p)
    /\ pipeline_work_queue (replayer q) = pipeline_work_queue (replayer p).
Proof.
  induction n as [| n IH]; intros p Hn Hex.
  { exists [], p. apply nil_length_inv in Hn. by repeat split. }
  assert (Hne : omap held (thread_pool (replayer p)) <> []) by (intros H; rewrite H in Hn; done).
  destruct (held_exists _ Hne) as (w & st & item & Hw & Hst).
  assert (Hdone : forall p1, exited p1 = None ->
            thread_pool (replayer p1) !! w = Some (Executed item) ->
            length (omap held (thread_pool (replayer p1))) = S n ->
            exists ls q,
              run ls p1 = Some q /\ Forall (answered_by env results) ls
              /\ exited q = None /\ omap held (thread_pool (replayer q)) = []
              /\ script q = script p1 /\ shutting_down (replayer q) = shutting_down (replayer p1)
              /\ pipeline_work_queue (replayer q) = pipeline_work_queue (replayer p1)).
  { intros p1 Hex1 Hw1 Hn1.
    destruct (complete_item env results w item p1 Hex1 Hw1) as (p2 & Hs2 & Hex2 & Es & Ed & Eq & El & Ha).
    destruct (IH p2 ltac:(lia) Hex2) as (ls & q & Hrun & Hans & Hexq & Hnil & Es' & Ed' & Eq').
    exists (LDone w :: ls), q. cbn [run]. rewrite Hs2.
    split; [exact Hrun |]. split; [by constructor |].
    repeat split; congruence. }
  destruct st as [| item' | item' |]; try discriminate; injection Hst as ->.
  - destruct (run_work_item_schedule item results p)
      as (Fs & Fe & Fr & Fq & Fp & Fn & Fc & Fd & Fg & Ff & Fl).
    set (p1 := set_worker w (Executed item) (run_work_item item results p)).
    assert (Hs1 : step (LExec w results) p = Some p1).
    { apply step_spec_step; [exact Hex | by apply StepExec]. }
    assert (Hlt : (w < length (thread_pool (replayer p)))%nat) by (eapply lookup_lt_Some; eauto).
    destruct (Hdone p1) as (ls & q & Hrun & Hans & Hexq & Hnil & Es' & Ed' & Eq').
    + unfold p1. cbn. by rewrite Fe.
    + unfold p1. cbn. rewrite Fp. by apply list_lookup_insert_eq.
    + unfold p1. cbn. rewrite Fp.
      by rewrite (held_insert_same _ w (Popped item) (Executed item) Hw eq_refl).
    + exists (LExec w results :: ls), q. cbn [run]. rewrite Hs1.
      split; [exact Hrun |]. split; [by constructor |].
      unfold p1 in *. cbn in *. repeat split; congruence.
  - by apply Hdone.
Qed.

Lemma idle_waiting p w :
  closes p -> shutting_down (replayer p) = false ->
  omap held (thread_pool (replayer p)) = [] ->
  (w < length (thread_pool (replayer p)))%nat ->
  thread_pool (replayer p) !! w = Some Waiting.
Proof.
  intros [_ Hc] Hd Hnil Hlt. rewrite Hd in Hc. destruct Hc as [Hall _].
  destruct (lookup_lt_is_Some_2 _ _ Hlt) as [st Hst].
  pose proof (held_none _ w st Hnil Hst) as Hheld.
  rewrite Forall_forall in Hall. specialize (Hall st (list_elem_of_lookup_2 _ _ _ Hst)).
  by destruct st.
Qed.

Lemma drain env results n : forall p,
  length (pipeline_work_queue (replayer p)) = n ->
  exited p = None -> shutting_down (replayer p) = false -> closes p ->
  omap held (thread_pool (replayer p)) = [] ->
  exists ls q,
    run ls p = Some q /\ Forall (answered_by env results) ls
    /\ exited q = None /\ omap held (thread_pool (replayer q)) = []
    /\ script q = script p /\ shutting_down (replayer q) = false
    /\ pipeline_work_queue (replayer q) = [].
Proof.
  induction n as [| n IH]; intros p Hn Hex Hd Hc Hnil.
  { exists [], p. apply nil_length_inv in Hn. by repeat split. }
  destruct (pipeline_work_queue (replayer p)) as [| item rest] eqn:Hq; [done |].
  assert (Hw : thread_pool (replayer p) !! 0%nat = Some Waiting).
  { apply idle_waiting; try done. destruct Hc as [Hlen _]. lia. }
  set (p1 := set_worker 0 (Popped item) (upd_replayer (set_pipeline_work_queue rest) p)).
  assert (Hs1 : step (LPop 0) p = Some p1).
  { apply step_spec_step; [exact Hex | by apply StepPop]. }
  destruct (settle env results _ p1 eq_refl) as (ls1 & q1 & Hrun1 & Hans1 & Hex1 & Hnil1 & Es1 & Ed1 & Eq1);
    [exact Hex |].
  assert (Hc1 : closes q1).
  { eapply run_closes; [| exact Hrun1]. eapply step_closes; eauto. }
  destruct (IH q1) as (ls2 & q2 & Hrun2 & Hans2 & Hex2 & Hnil2 & Es2 & Ed2 & Eq2); try done.
  - rewrite Eq1. unfold p1. cbn. cbn in Hn. lia.
  - by rewrite Ed1.
  - exists (LPop 0 :: ls1 ++ ls2), q2. cbn [run]. rewrite Hs1, run_app, Hrun1.
    split; [exact Hrun2 |]. split; [constructor; [done | by apply Forall_app] |].
    repeat split; try done. by rewrite Es2, Es1.
Qed.

Lemma leave_all env results n : forall k p,
  (length (thread_pool (replayer p)) - k = n)%nat ->
  exited p = None -> shutting_down (replayer p) = true ->
  omap held (thread_pool (replayer p)) = [] ->
  (forall i, (i < k)%nat -> (i < length (thread_pool (replayer p)))%nat ->
     thread_pool (replayer p) !! i = Some Exited) ->
  exists ls q,
    run ls p = Some q /\ Forall (answered_by env results) ls
    /\ exited q = None /\ script q = script p
    /\ all_exited (thread_pool (replayer q)) = true.
Proof.
  induction n as [| n IH]; intros k p Hn Hex Hd Hnil Hbelow.
  { exists [], p. repeat split; try done. unfold all_exited. apply forallb_forall.
    intros st Hin. apply list_elem_of_In, list_elem_of_lookup in Hin as [i Hi].
    pose proof (lookup_lt_Some _ _ _ Hi) as Hlt. rewrite Hbelow in Hi by lia. by injection Hi as <-. }
  assert (Hlt : (k < length (thread_pool (replayer p)))%nat) by lia.
  destruct (lookup_lt_is_Some_2 _ _ Hlt) as [st Hst].
  pose proof (held_none _ k st Hnil Hst) as Hheld.
  destruct st as [| | |]; try discriminate.
  - set (p1 := set_worker k Exited (flush_locals p)).
    assert (Hs1 : step (LPop k) p = Some p1).
    { apply step_spec_step; [exact Hex | by apply StepLeave]. }
    destruct (IH (S k) p1) as (ls & q & Hrun & Hans & Hexq & Es & Hall).
    + unfold p1. cbn. rewrite length_insert. lia.
    + exact Hex.
    + exact Hd.
    + unfold p1. cbn. by rewrite (held_insert_same _ k Waiting Exited Hst eq_refl).
    + intros i Hi _. unfold p1. cbn. destruct (decide (i = k)) as [-> |].
      * by apply list_lookup_insert_eq.
      * rewrite list_lookup_insert_ne by done. apply Hbelow; lia.
    + exists (LPop k :: ls), q. cbn [run]. rewrite Hs1.
      split; [exact Hrun |]. split; [by constructor |]. repeat split; done.
  - apply (IH (S k) p); try done; [lia |].
    intros i Hi Hi'. destruct (decide (i = k)) as [-> |]; [exact Hst | apply Hbelow; lia].
Qed.

Lemma finish env results total n : forall p,
  (length (script p) <= n)%nat ->
  total < 2 ^ 32 -> stats_tally p -> run_invariant total p -> closes p ->
  exists ls q code,
    run ls p = Some q /\ Forall (answered_by env results) ls /\ exited q = Some code.
Proof.
  induction n as [| n IH]; intros p Hn Htot Ht Hinv Hc.
  all: destruct (exited p) as [code |] eqn:Hex; [by exists [], p, code |].
  all: destruct (settle env results _ p eq_refl Hex)
         as (ls1 & q1 & Hrun1 & Hans1 & Hex1 & Hnil1 & Es1 & Ed1 & Eq1).
  all: assert (Hc1 : closes q1) by (eapply run_closes; eauto).
  all: destruct (run_invariant_preserved total ls1 p q1 Htot Ht Hinv Hrun1) as [Hinv1 Ht1].
  all: destruct (shutting_down (replayer q1)) eqn:Hd1.
  1, 3: destruct Hc1 as [_ Hc1]; rewrite Hd1 in Hc1; destruct (Hc1 Hex1) as [code Hcode];
        destruct (leave_all env results _ 0%nat q1 eq_refl Hex1 Hd1 Hnil1)
          as (ls2 & q2 & Hrun2 & Hans2 & Hex2 & Es2 & Hall2); [intros; lia |];
        exists (ls1 ++ ls2 ++ [LMain env]), (set_script [] (set_exited (Some code) q2)), code;
        rewrite run_app, Hrun1, run_app, Hrun2; cbn [run];
        rewrite (step_spec_step (LMain env) q2 _ Hex2
                   (StepJoin env code [] q2 ltac:(congruence) Hall2));
        split; [reflexivity |]; split; [| reflexivity];
        repeat (apply Forall_app; split; try done); by repeat constructor.
  - exfalso. destruct Hc1 as [_ Hc1]. rewrite Hd1 in Hc1.
    destruct Hc1 as (_ & ops & code & Heq & _). rewrite Es1 in Heq.
    destruct (script p); [by destruct ops | cbn in Hn; lia].
  - destruct (drain env results _ q1 eq_refl Hex1 Hd1 Hc1 Hnil1)
      as (ls2 & q2 & Hrun2 & Hans2 & Hex2 & Hnil2 & Es2 & Ed2 & Eq2).
    assert (Hc2 : closes q2) by (eapply run_closes; eauto).
    destruct (run_invariant_preserved total ls2 q1 q2 Htot Ht1 Hinv1 Hrun2) as [Hinv2 Ht2].
    assert (Hequal : queued_count (replayer q2) = completed_count (replayer q2)).
    { destruct Hinv2 as (_ & Hq & _). unfold pending_items in Hq. rewrite Eq2, Hnil2 in Hq.
      cbn in Hq. lia. }
    pose proof Hc2 as [_ Hshape]. rewrite Ed2 in Hshape.
    destruct Hshape as (_ & ops & code & Heq & Hplain).
    destruct (script q2) as [| op rest] eqn:Hs2; [by destruct ops |].
    assert (Hstep : exists q3, step (LMain env) q2 = Some q3 /\ script q3 = rest).
    { destruct op.
      - eexists. split; [apply step_spec_step; [exact Hex2 | by apply StepParse] | reflexivity].
      - eexists. split; [apply step_spec_step; [exact Hex2 | by apply StepSync] | reflexivity].
      - eexists. split; [apply step_spec_step; [exact Hex2 | by apply StepLog] | reflexivity].
      - eexists. split; [apply step_spec_step; [exact Hex2 | by apply StepReport] | reflexivity].
      - eexists. split; [apply step_spec_step; [exact Hex2 | by apply StepShutdown] | reflexivity].
      - destruct (plain_head _ _ _ _ Heq Hplain) as [(Hop & _) | (Hop & _)]; discriminate. }
    destruct Hstep as (q3 & Hs3 & Es3).
    destruct (IH q3) as (ls4 & q4 & code4 & Hrun4 & Hans4 & Hex4); try done.
    + rewrite Es3. rewrite <- Es1, <- Es2 in Hn. cbn in Hn. lia.
    + eapply step_tally; eauto.
    + eapply step_invariant; eauto.
    + eapply step_closes; eauto.
    + exists (ls1 ++ ls2 ++ LMain env :: ls4), q4, code4.
      rewrite run_app, Hrun1, run_app, Hrun2. cbn [run]. rewrite Hs3.
      split; [exact Hrun4 |]. split; [| exact Hex4].
      repeat (apply Forall_app; split; try done). by constructor.
Qed.

(** ** How a run ends *)

Lemma validate_lines props blob :
  LogDeviceFailed ∉ (validate_pipeline_cache_header props blob).2.
Proof.
  unfold validate_pipeline_cache_header.
  repeat match goal with |- context [if ?b then _ else _] => destruct b end;
    cbn [snd]; intros Hin;
    repeat (apply elem_of_cons in Hin as [Hin | Hin]; [discriminate |]);
    by apply elem_of_nil in Hin.
Qed.

Lemma load_on_disk_cache_lines o env : LogDeviceFailed ∉ (load_on_disk_cache o env).2.
Proof.
  unfold load_on_disk_cache.
  destruct (negb _); [| apply not_elem_of_nil].
  destruct (cache_file env) as [bytes |]; [| apply not_elem_of_nil].
  destruct (negb _); [| apply not_elem_of_nil].
  destruct (fread_complete env); [| apply not_elem_of_nil].
  pose proof (validate_lines (props env) bytes) as Hv.
  destruct (validate_pipeline_cache_header (props env) bytes) as [valid lines].
  cbn [snd] in *. destruct valid; cbn [snd]; [exact Hv |].
  intros Hin. apply elem_of_app in Hin as [Hin | Hin]; [by apply Hv |].
  apply elem_of_cons in Hin as [Hin | Hin]; [discriminate | by apply elem_of_nil in Hin].
Qed.

Ltac no_device_line :=
  intros Hin;
  repeat (apply elem_of_app in Hin as [Hin | Hin]);
  repeat (apply elem_of_cons in Hin as [Hin | Hin]; [discriminate |]);
  try (by apply elem_of_nil in Hin).

Lemma set_application_info_log env p :
  exited p = None ->
  exists lines,
    log (set_application_info env p) = log p ++ lines
    /\ ((exited (set_application_info env p) = None /\ LogDeviceFailed ∉ lines)
        \/ (exited (set_application_info env p) = Some EXIT_FAILURE /\ LogDeviceFailed ∈ lines)).
Proof.
  intros Hex. unfold set_application_info.
  destruct (device_was_init (replayer p)); cbn [negb].
  { exists []. rewrite app_nil_r. split; [reflexivity |]. left. split; [exact Hex | apply not_elem_of_nil]. }
  destruct (init_device env); cbn [negb].
  2: { exists [LogDeviceFailed]. split; [reflexivity |]. right. split; [reflexivity |].
       apply list_elem_of_here. }
  cbn [upd_replayer set_replayer replayer set_device_was_init opts].
  destruct (Options.pipeline_cache (opts (replayer p))).
  2: { exists []. rewrite app_nil_r. split; [reflexivity |]. left.
       split; [exact Hex | apply not_elem_of_nil]. }
  pose proof (load_on_disk_cache_lines (opts (replayer p)) env) as Hl.
  destruct (load_on_disk_cache _ env) as [data lines]. cbn [snd] in Hl.
  destruct (create_cache_first env); [| destruct (create_cache_retry env)].
  - exists lines. split; [reflexivity |]. left. split; [exact Hex | exact Hl].
  - exists (lines ++ [LogCacheRetryBlank]). cbn. split; [by rewrite <- app_assoc |]. left.
    split; [exact Hex |]. intros Hin. apply elem_of_app in Hin as [Hin | Hin]; [by apply Hl |].
    revert Hin. no_device_line.
  - exists (lines ++ [LogCacheRetryBlank; LogCacheFailed]). cbn.
    split; [by rewrite <- !app_assoc |]. left.
    split; [exact Hex |]. intros Hin. apply elem_of_app in Hin as [Hin | Hin]; [by apply Hl |].
    revert Hin. no_device_line.
Qed.

Lemma parse_log env c h blob p :
  exited p = None ->
  exists lines,
    log (parse env c h blob p) = log p ++ lines
    /\ ((exited (parse env c h blob p) = None /\ LogDeviceFailed ∉ lines)
        \/ (exited (parse env c h blob p) = Some EXIT_FAILURE /\ LogDeviceFailed ∈ lines)).
Proof.
  intros Hex.
  assert (Hnone : forall q, log q = log p -> exited q = None ->
            exists lines, log q = log p ++ lines
              /\ ((exited q = None /\ LogDeviceFailed ∉ lines)
                  \/ (exited q = Some EXIT_FAILURE /\ LogDeviceFailed ∈ lines))).
  { intros q Hq Hexq. exists []. rewrite app_nil_r. split; [exact Hq |]. left.
    split; [exact Hexq | apply not_elem_of_nil]. }
  assert (Hinline : forall c',
            exists lines, log (enqueue_create_inline c' h 0 0 VkError p).1 = log p ++ lines
              /\ LogDeviceFailed ∉ lines).
  { intros c'. eexists. split; [reflexivity |]. no_device_line. }
  destruct blob as [| info out].
  { cbn. eexists. split; [reflexivity |]. left. split; [exact Hex |]. no_device_line. }
  destruct c; cbn [parse].
  - by apply set_application_info_log.
  - destruct (inline_result env); cbn; [by apply Hnone |].
    eexists. split; [reflexivity |]. left. split; [exact Hex |]. no_device_line.
  - destruct (inline_result env); cbn; [by apply Hnone |].
    eexists. split; [reflexivity |]. left. split; [exact Hex |]. no_device_line.
  - destruct (inline_result env); cbn; [by apply Hnone |].
    eexists. split; [reflexivity |]. left. split; [exact Hex |]. no_device_line.
  - apply Hnone; cbn; unfold map_entry; by destruct (_ !! _).
  - destruct (inline_result env); cbn; [by apply Hnone |].
    eexists. split; [reflexivity |]. left. split; [exact Hex |]. no_device_line.
  - unfold enqueue_create_graphics_pipeline. destruct (graphics_selected _ _); cbn [fst];
      apply Hnone; cbn; unfold map_entry; try done; by destruct (_ !! _).
  - unfold enqueue_create_compute_pipeline. destruct (compute_selected _ _); cbn [fst];
      apply Hnone; cbn; unfold map_entry; try done; by destruct (_ !! _).
  - by apply Hnone.
Qed.

Lemma replay_loop_log n : forall i item results p e,
  e ∈ log (replay_loop n i item results p) <->
  e ∈ log p
  \/ (e = LogWorkerCreateFailed (tag item) (hash item)
      /\ exists j, (i <= j < i + n)%nat /\ results j = CreateFailed).
Proof.
  induction n as [| n IH]; intros i item results p e; cbn [replay_loop].
  - split; [by left |]. intros [H | (_ & j & Hj & _)]; [exact H | lia].
  - rewrite IH, replay_once_log, elem_of_app. split.
    + intros [[H | H] | (He & j & Hj & Hr)].
      * by left.
      * destruct (results i) eqn:Hi; [by apply elem_of_nil in H |].
        apply list_elem_of_singleton in H. right. split; [exact H |]. exists i. split; [lia | exact Hi].
      * right. split; [exact He |]. exists j. split; [lia | exact Hr].
    + intros [H | (He & j & Hj & Hr)]; [by left; left |].
      destruct (decide (j = i)) as [-> |].
      * left. right. rewrite Hr, He. apply list_elem_of_here.
      * right. split; [exact He |]. exists j. split; [lia | exact Hr].
Qed.

Lemma run_work_item_log item results p e :
  e ∈ log (run_work_item item results p) ->
  e ∈ log p \/ e = LogWorkerCreateFailed (tag item) (hash item).
Proof.
  unfold run_work_item.
  destruct (tag item) eqn:Ht; try (by left); rewrite replay_loop_log; rewrite ?Ht;
    intros [H | [H _]]; auto.
Qed.

Lemma run_work_item_log_grows item results p e :
  e ∈ log p -> e ∈ log (run_work_item item results p).
Proof.
  intros H. unfold run_work_item.
  destruct (tag item); try done; rewrite replay_loop_log; by left.
Qed.

Lemma play_hashes_ops db c hashes op :
  op ∈ (play_hashes db c hashes).1 ->
  (exists h blob, op = OpParse c h blob) \/ op = OpLog LogReadFailed.
Proof.
  induction hashes as [| h hashes IH]; cbn [play_hashes].
  - intros H. by apply elem_of_nil in H.
  - destruct (read_entry db c h) as [blob |].
    + destruct (play_hashes db c hashes) as [ops ok]. cbn [fst] in *.
      intros [-> | H]%elem_of_cons; [left; eauto | by apply IH].
    + cbn. intros H%list_elem_of_singleton. by right.
Qed.

Lemma play_tags_ops db tags op :
  op ∈ (play_tags db tags).1 ->
  (exists c h blob, op = OpParse c h blob) \/ op = OpSync
  \/ op = OpLog LogReadFailed \/ op = OpLog LogHashListFailed.
Proof.
  induction tags as [| c tags IH]; cbn [play_tags].
  - intros H. by apply elem_of_nil in H.
  - destruct (get_hash_list_for_resource_tag db c) as [hashes |].
    2: { cbn. intros H%list_elem_of_singleton. auto. }
    pose proof (play_hashes_ops db c hashes op) as Hh.
    destruct (play_hashes db c hashes) as [ops ok]. cbn [fst] in Hh.
    destruct ok.
    + destruct (play_tags db tags) as [ops' ok']. cbn [fst] in *.
      rewrite !elem_of_app. intros [H | [H | H]].
      * destruct (Hh H) as [(h & blob & ->) | ->]; [left; eauto | auto].
      * destruct (decide _); [| by apply elem_of_nil in H].
        apply list_elem_of_singleton in H. auto.
      * by apply IH.
    + cbn [fst]. intros H. destruct (Hh H) as [(h & blob & ->) | ->]; [left; eauto | auto].
Qed.

Lemma play_hashes_failed db c hashes :
  (play_hashes db c hashes).2 = false -> OpLog LogReadFailed ∈ (play_hashes db c hashes).1.
Proof.
  induction hashes as [| h hashes IH]; cbn [play_hashes]; [done |].
  destruct (read_entry db c h) as [blob |]; [| intros _; apply list_elem_of_here].
  destruct (play_hashes db c hashes) as [ops ok]. cbn [fst snd] in *.
  intros H. apply elem_of_cons. right. by apply IH.
Qed.

Lemma play_tags_failed db tags :
  (play_tags db tags).2 = false ->
  OpLog LogReadFailed ∈ (play_tags db tags).1 \/ OpLog LogHashListFailed ∈ (play_tags db tags).1.
Proof.
  induction tags as [| c tags IH]; cbn [play_tags]; [done |].
  destruct (get_hash_list_for_resource_tag db c) as [hashes |].
  2: { intros _. right. apply list_elem_of_here. }
  pose proof (play_hashes_failed db c hashes) as Hh.
  destruct (play_hashes db c hashes) as [ops ok]. cbn [fst snd] in Hh.
  destruct ok.
  - destruct (play_tags db tags) as [ops' ok']. cbn [fst snd] in *.
    intros H. rewrite !elem_of_app. destruct (IH H); auto.
  - cbn [fst snd]. intros _. left. by apply Hh.
Qed.

(** What [main] returns at its last statement, and what its script holds
    then. *)
Lemma main_script_end db code :
  OpJoin code ∈ main_script db ->
  if prepare db && (play_tags db playback_order).2
  then code = EXIT_SUCCESS /\ OpReport ∈ main_script db
  else code = EXIT_FAILURE
       /\ exists e, OpLog e ∈ main_script db
                    /\ (e = LogPrepareFailed \/ e = LogHashListFailed \/ e = LogReadFailed).
Proof.
  unfold main_script. destruct (prepare db); cbn [andb].
  - pose proof (play_tags_ops db playback_order (OpJoin code)) as Hops.
    pose proof (play_tags_failed db playback_order) as Hfail.
    destruct (play_tags db playback_order) as [ops ok]. cbn [fst snd] in *.
    destruct ok; rewrite elem_of_app; intros [H | H].
    + destruct (Hops H) as [(? & ? & ? & ?) | [? | [? | ?]]]; discriminate.
    + repeat (apply elem_of_cons in H as [H | H]; [try discriminate |]).
      * injection H as ->. split; [reflexivity |]. apply elem_of_app. right.
        apply elem_of_cons. right. apply list_elem_of_here.
      * by apply elem_of_nil in H.
    + destruct (Hops H) as [(? & ? & ? & ?) | [? | [? | ?]]]; discriminate.
    + repeat (apply elem_of_cons in H as [H | H]; [try discriminate |]).
      * injection H as ->. split; [reflexivity |].
        destruct (Hfail eq_refl) as [Hr | Hl]; eexists; (split; [apply elem_of_app; left; eassumption |]);
          auto.
      * by apply elem_of_nil in H.
  - intros H. repeat (apply elem_of_cons in H as [H | H]; [try discriminate |]).
    + injection H as ->. split; [reflexivity |]. exists LogPrepareFailed.
      split; [apply list_elem_of_here | auto].
    + by apply elem_of_nil in H.
Qed.

Lemma main_script_lines db e :
  OpLog e ∈ main_script db -> e <> LogDeviceFailed.
Proof.
  unfold main_script. destruct (prepare db).
  - pose proof (play_tags_ops db playback_order (OpLog e)) as Hops.
    destruct (play_tags db playback_order) as [ops ok]. cbn [fst] in Hops.
    destruct ok; rewrite elem_of_app; intros [H | H].
    1, 3: destruct (Hops H) as [(? & ? & ? & ?) | [? | [? | ?]]]; congruence.
    all: repeat (apply elem_of_cons in H as [H | H]; [discriminate |]); by apply elem_of_nil in H.
  - intros H. apply elem_of_cons in H as [H | H]; [congruence |].
    repeat (apply elem_of_cons in H as [H | H]; [discriminate |]). by apply elem_of_nil in H.
Qed.

Lemma outcome_main db p q op rest :
  outcome db p -> exited p = None -> script p = op :: rest -> script q = rest ->
  (forall e, e ∈ log p -> e ∈ log q) ->
  (forall e, op = OpLog e -> e ∈ log q) ->
  (op = OpReport -> is_Some (reported q)) ->
  (is_Some (reported p) -> is_Some (reported q)) ->
  match exited q with
  | None => (LogDeviceFailed ∉ log q) /\ forall code, op <> OpJoin code
  | Some code =>
      (code = EXIT_FAILURE /\ LogDeviceFailed ∈ log q)
      \/ ((LogDeviceFailed ∉ log q) /\ op = OpJoin code /\ rest = []
          /\ all_exited (thread_pool (replayer q)) = true)
  end ->
  outcome db q.
Proof.
  intros (pre & Hpre & Hlog & Hrep & Hend) Hex Hs Hs' Hgrow Hline Hreport Hkeep Hnew.
  rewrite Hex in Hend. destruct Hend as [Hdev Hjoin].
  exists (pre ++ [op]). rewrite Hs'. split; [by rewrite Hpre, Hs, <- app_assoc |].
  split; [| split].
  - intros e [He | He%list_elem_of_singleton]%elem_of_app; [by apply Hgrow, Hlog | by apply Hline].
  - intros [H | H%list_elem_of_singleton]%elem_of_app; [by apply Hkeep, Hrep | by apply Hreport].
  - destruct (exited q) as [code |].
    + destruct Hnew as [H | (Hd & -> & -> & Hall)]; [by left | right].
      split; [exact Hd |]. split; [| done]. apply elem_of_app. right. apply list_elem_of_here.
    + destruct Hnew as [Hd Hop]. split; [exact Hd |].
      intros code [H | H%list_elem_of_singleton]%elem_of_app; [by apply (Hjoin code) | by apply (Hop code)].
Qed.

Lemma outcome_worker db p q :
  outcome db p -> exited p = None ->
  script q = script p -> exited q = None -> reported q = reported p ->
  (forall e, e ∈ log p -> e ∈ log q) ->
  (LogDeviceFailed ∈ log q -> LogDeviceFailed ∈ log p) ->
  outcome db q.
Proof.
  intros (pre & Hpre & Hlog & Hrep & Hend) Hex Hs Hexq Hr Hgrow Hdev.
  rewrite Hex in Hend. destruct Hend as [Hd Hjoin].
  exists pre. rewrite Hs, Hexq, Hr. split; [exact Hpre |]. split; [by intros e He; apply Hgrow, Hlog |].
  split; [exact Hrep |]. split; [by intros H; apply Hd, Hdev | exact Hjoin].
Qed.

Lemma step_outcome db l p p' :
  outcome db p -> closes p -> step l p = Some p' -> outcome db p'.
Proof.
  intros Hout Hc Hstep.
  destruct (step_inversion l p p' Hstep) as [Hex Hspec].
  pose proof Hout as (pre & Hpre & _ & _ & Hend). rewrite Hex in Hend. destruct Hend as [Hdev _].
  destruct Hspec as [env c h blob rest p Hs | env rest p Hs Heq | env e rest p Hs | env rest p Hs
                    | env rest p Hs | env code rest p Hs Hall | w p Hw Hd | w item rest p Hw Hd Hq
                    | w results item p Hw | w item p Hw].
  - destruct (parse_effect env c h blob p) as [(_ & Fr & _) _].
    destruct (parse_log env c h blob p Hex) as (lines & Hl & Hcase).
    apply (outcome_main db p _ (OpParse c h blob) rest Hout Hex Hs); cbn; try done.
    + intros e He. rewrite Hl. apply elem_of_app. by left.
    + by rewrite Fr.
    + destruct Hcase as [[-> Hno] | [-> Hyes]].
      * split; [| done]. rewrite Hl. intros [H | H]%elem_of_app; [by apply Hdev | by apply Hno].
      * left. split; [reflexivity |]. rewrite Hl. apply elem_of_app. by right.
  - apply (outcome_main db p _ OpSync rest Hout Hex Hs); cbn; try done. by rewrite Hex.
  - apply (outcome_main db p _ (OpLog e) rest Hout Hex Hs); cbn; try done.
    + intros e' He'. apply elem_of_app. by left.
    + intros e' [= <-]. apply elem_of_app. right. apply list_elem_of_here.
    + rewrite Hex. split; [| done].
      intros [H | H%list_elem_of_singleton]%elem_of_app; [by apply Hdev |].
      apply (main_script_lines db e); [| done]. rewrite Hpre, Hs. apply elem_of_app. right.
      apply list_elem_of_here.
  - apply (outcome_main db p _ OpReport rest Hout Hex Hs); cbn; try done; try (by eauto).
    by rewrite Hex.
  - apply (outcome_main db p _ OpShutdown rest Hout Hex Hs); cbn; try done. by rewrite Hex.
  - apply (outcome_main db p _ (OpJoin code) rest Hout Hex Hs); cbn; try done.
    right. split; [exact Hdev |]. split; [reflexivity |]. split; [| exact Hall].
    destruct Hc as [_ Hc]. destruct (shutting_down (replayer p)).
    + destruct (Hc Hex) as [code' Hcode]. rewrite Hs in Hcode. by injection Hcode as _ ->.
    + destruct Hc as (_ & ops & code' & Heq & Hplain). rewrite Hs in Heq.
      destruct (plain_head _ _ _ _ Heq Hplain) as [(Hop & _) | (Hop & _)]; discriminate.
  - by apply (outcome_worker db p).
  - by apply (outcome_worker db p).
  - destruct (run_work_item_schedule item results p)
      as (Fs & Fe & Fr & Fq & Fp & Fn & Fc & Fd & Fg & Ff & Fl).
    apply (outcome_worker db p); cbn; try congruence.
    + intros e He. by apply run_work_item_log_grows.
    + intros H. by destruct (run_work_item_log _ _ _ _ H).
  - by apply (outcome_worker db p).
Qed.

Lemma main_outcome hw argv db p0 ls p :
  main hw argv db = inr p0 -> run ls p0 = Some p -> outcome db p /\ closes p.
Proof.
  intros Hmain Hrun.
  apply (run_preserves (fun q => outcome db q /\ closes q)) with (ls := ls) (p := p0);
    [| | exact Hrun].
  - intros l q q' [Ho Hc] Hstep. split; [eapply step_outcome | eapply step_closes]; eauto.
  - split; [| by eapply main_closes].
    apply main_started in Hmain as (o & g & c & -> & _). exists []. cbn.
    split; [reflexivity |]. split; [intros e H; by apply elem_of_nil in H |].
    split; [intros H; by apply elem_of_nil in H |].
    split; [apply not_elem_of_nil |]. intros code. apply not_elem_of_nil.
Qed.

(** ** Once [shutting_down] is raised *)

Lemma step_shut l p p' :
  closes p -> shutting_down (replayer p) = true -> step l p = Some p' ->
  shutting_down (replayer p') = true
  /\ pipeline_work_queue (replayer p') = pipeline_work_queue (replayer p)
  /\ queued_count (replayer p') = queued_count (replayer p)
  /\ took l p' = [].
Proof.
  intros [_ Hc] Hd Hstep. rewrite Hd in Hc.
  destruct (step_inversion l p p' Hstep) as [Hex Hspec].
  destruct (Hc Hex) as [code Hcode].
  destruct Hspec as [env c h blob rest p Hs | env rest p Hs Heq | env e rest p Hs | env rest p Hs
                    | env rest p Hs | env code' rest p Hs Hall | w p Hw Hd' | w item rest p Hw Hd' Hq
                    | w results item p Hw | w item p Hw];
    try (rewrite Hs in Hcode; discriminate); try done.
  - assert (Hlt : (w < length (thread_pool (replayer p)))%nat) by (eapply lookup_lt_Some; eauto).
    cbn. by rewrite list_lookup_insert_eq.
  - congruence.
  - destruct (run_work_item_schedule item results p)
      as (Fs & Fe & Fr & Fq & Fp & Fn & Fc & Fd & Fg & Ff & Fl).
    cbn. by rewrite Fd, Fq, Fn.
Qed.

Lemma run_shut ls : forall p p',
  closes p -> shutting_down (replayer p) = true -> run ls p = Some p' ->
  shutting_down (replayer p') = true
  /\ pipeline_work_queue (replayer p') = pipeline_work_queue (replayer p)
  /\ queued_count (replayer p') = queued_count (replayer p)
  /\ taken ls p = [].
Proof.
  induction ls as [| l ls IH]; intros p p' Hc Hd Hrun.
  - cbn in Hrun. by injection Hrun as <-.
  - cbn [run taken] in *. destruct (step l p) as [q |] eqn:Hq; [| discriminate].
    destruct (step_shut l p q Hc Hd Hq) as (Hd' & Eq & En & Et).
    destruct (IH q p' (step_closes l p q Hc Hq) Hd' Hrun) as (Hd'' & Eq' & En' & Et').
    rewrite Et, Et'. repeat split; congruence.
Qed.

(** ** The calls of the main thread *)

Lemma creates_app c tr1 tr2 :
  creates c (tr1 ++ tr2) = (creates c tr1 + creates c tr2)%nat.
Proof. apply count_calls_app. Qed.

Lemma inline_calls_creates c calls : forallb is_inline_call calls = true -> creates c calls = 0%nat.
Proof.
  induction calls as [| call calls IH]; [reflexivity |]. cbn [forallb].
  intros [H1 H2]%andb_true_iff. unfold creates in *. cbn. rewrite (IH H2).
  by destruct call.
Qed.

Lemma set_application_info_trace env p :
  exists calls,
    vk_trace (set_application_info env p) = vk_trace p ++ calls
    /\ forallb is_inline_call calls = true
    /\ (forall c info h, VkCreate c info h ∉ calls)
    /\ registry (replayer (set_application_info env p)) = registry (replayer p)
    /\ (pipeline_cache (replayer (set_application_info env p)) = pipeline_cache (replayer p)
        \/ pipeline_cache (replayer (set_application_info env p)) = VK_NULL_HANDLE
        \/ exists data, VkCreatePipelineCache data
                          (VkSuccess (pipeline_cache (replayer (set_application_info env p))))
                        ∈ calls).
Proof.
  assert (Hnil : forall q, vk_trace q = vk_trace p -> registry (replayer q) = registry (replayer p) ->
            pipeline_cache (replayer q) = pipeline_cache (replayer p) ->
            exists calls,
              vk_trace q = vk_trace p ++ calls /\ forallb is_inline_call calls = true
              /\ (forall c info h, VkCreate c info h ∉ calls)
              /\ registry (replayer q) = registry (replayer p)
              /\ (pipeline_cache (replayer q) = pipeline_cache (replayer p)
                  \/ pipeline_cache (replayer q) = VK_NULL_HANDLE
                  \/ exists data, VkCreatePipelineCache data (VkSuccess (pipeline_cache (replayer q)))
                                  ∈ calls)).
  { intros q Ht Hr Hc. exists []. rewrite app_nil_r. repeat split; try done; [| by left].
    intros c info h. apply not_elem_of_nil. }
  unfold set_application_info.
  destruct (device_was_init (replayer p)); cbn [negb]; [by apply Hnil |].
  destruct (init_device env); cbn [negb]; [| by apply Hnil].
  cbn [upd_replayer set_replayer replayer set_device_was_init opts].
  destruct (Options.pipeline_cache (opts (replayer p))); [| by apply Hnil].
  destruct (load_on_disk_cache _ env) as [data lines].
  destruct (create_cache_first env) as [h |]; [| destruct (create_cache_retry env) as [h |]].
  - exists [VkCreatePipelineCache data (VkSuccess h)]. cbn.
    repeat split; try done.
    + intros c info h' [H | H]%elem_of_cons; [discriminate | by apply elem_of_nil in H].
    + right. right. exists data. apply list_elem_of_here.
  - exists [VkCreatePipelineCache data VkError; VkCreatePipelineCache [] (VkSuccess h)]. cbn.
    rewrite <- app_assoc. repeat split; try done.
    + intros c info h' H. repeat (apply elem_of_cons in H as [H | H]; [discriminate |]).
      by apply elem_of_nil in H.
    + right. right. exists []. apply elem_of_cons. right. apply list_elem_of_here.
  - exists [VkCreatePipelineCache data VkError; VkCreatePipelineCache [] VkError]. cbn.
    rewrite <- app_assoc. repeat split; try done.
    + intros c info h' H. repeat (apply elem_of_cons in H as [H | H]; [discriminate |]).
      by apply elem_of_nil in H.
    + right. by left.
Qed.

Lemma parse_trace env c h blob p :
  exists calls,
    vk_trace (parse env c h blob p) = vk_trace p ++ calls
    /\ forallb is_inline_call calls = true
    /\ (forall c' k v, registry (replayer (parse env c h blob p)) c' !! k = Some v ->
          v <> VK_NULL_HANDLE ->
          registry (replayer p) c' !! k = Some v \/ exists info, VkCreate c' info (VkSuccess v) ∈ calls)
    /\ (pipeline_cache (replayer (parse env c h blob p)) = pipeline_cache (replayer p)
        \/ pipeline_cache (replayer (parse env c h blob p)) = VK_NULL_HANDLE
        \/ exists data, VkCreatePipelineCache data
                          (VkSuccess (pipeline_cache (replayer (parse env c h blob p))))
                        ∈ calls).
Proof.
  assert (Hnil : forall q, vk_trace q = vk_trace p ->
            (forall c' k v, registry (replayer q) c' !! k = Some v -> v <> VK_NULL_HANDLE ->
               registry (replayer p) c' !! k = Some v) ->
            pipeline_cache (replayer q) = pipeline_cache (replayer p) ->
            exists calls,
              vk_trace q = vk_trace p ++ calls /\ forallb is_inline_call calls = true
              /\ (forall c' k v, registry (replayer q) c' !! k = Some v -> v <> VK_NULL_HANDLE ->
                    registry (replayer p) c' !! k = Some v
                    \/ exists info, VkCreate c' info (VkSuccess v) ∈ calls)
              /\ (pipeline_cache (replayer q) = pipeline_cache (replayer p)
                  \/ pipeline_cache (replayer q) = VK_NULL_HANDLE
                  \/ exists data, VkCreatePipelineCache data (VkSuccess (pipeline_cache (replayer q)))
                                  ∈ calls)).
  { intros q Ht Hr Hc. exists []. rewrite app_nil_r. repeat split; try done; [| by left].
    intros c' k v Hk Hv. left. by apply Hr. }
  destruct blob as [| info out].
  { cbn. by apply Hnil. }
  assert (Hinline : forall c0,
            let q := (enqueue_create_inline c0 h info out (inline_result env) p).1 in
            exists calls,
              vk_trace q = vk_trace p ++ calls /\ forallb is_inline_call calls = true
              /\ (forall c' k v, registry (replayer q) c' !! k = Some v -> v <> VK_NULL_HANDLE ->
                    registry (replayer p) c' !! k = Some v
                    \/ exists info, VkCreate c' info (VkSuccess v) ∈ calls)
              /\ (pipeline_cache (replayer q) = pipeline_cache (replayer p)
                  \/ pipeline_cache (replayer q) = VK_NULL_HANDLE
                  \/ exists data, VkCreatePipelineCache data (VkSuccess (pipeline_cache (replayer q)))
                                  ∈ calls)).
  { intros c0. destruct (inline_result env) as [v0 |]; cbn.
    - eexists. split; [reflexivity |]. split; [reflexivity |]. split; [| by left].
      intros c' k v Hk Hv. unfold read_output in Hk. cbn in Hk. rewrite lookup_insert_eq in Hk.
      cbn in Hk. destruct (decide (c' = c0)) as [-> |].
      + rewrite upd_same in Hk. destruct (decide (k = h)) as [-> |].
        * rewrite lookup_insert_eq in Hk. injection Hk as <-. right. eexists. apply list_elem_of_here.
        * rewrite lookup_insert_ne in Hk by done. by left.
      + rewrite upd_other in Hk by done. by left.
    - eexists. split; [reflexivity |]. split; [reflexivity |]. split; [| by left].
      intros c' k v Hk Hv. by left. }
  assert (Hentry : forall c0 q, registry (replayer q) = registry (replayer (map_entry c0 h p)) ->
            forall c' k v, registry (replayer q) c' !! k = Some v -> v <> VK_NULL_HANDLE ->
              registry (replayer p) c' !! k = Some v).
  { intros c0 q -> c' k v Hk Hv. unfold map_entry in Hk.
    destruct (registry (replayer p) c0 !! h) eqn:Hh; [exact Hk |]. cbn in Hk.
    destruct (decide (c' = c0)) as [-> |].
    - rewrite upd_same in Hk. destruct (decide (k = h)) as [-> |].
      + rewrite lookup_insert_eq in Hk. by injection Hk as <-.
      + by rewrite lookup_insert_ne in Hk.
    - by rewrite upd_other in Hk. }
  assert (Hmap : forall c0, vk_trace (map_entry c0 h p) = vk_trace p
                            /\ pipeline_cache (replayer (map_entry c0 h p)) = pipeline_cache (replayer p)).
  { intros c0. unfold map_entry. by destruct (_ !! _). }
  destruct c; cbn [parse].
  - destruct (set_application_info_trace (device_env env) p) as (calls & Ht & Hi & Hno & Hr & Hc).
    exists calls. split; [exact Ht |]. split; [exact Hi |]. split; [| exact Hc].
    intros c' k v Hk Hv. left. by rewrite Hr in Hk.
  - apply (Hinline RESOURCE_SAMPLER).
  - apply (Hinline RESOURCE_DESCRIPTOR_SET_LAYOUT).
  - apply (Hinline RESOURCE_PIPELINE_LAYOUT).
  - apply Hnil; cbn; [apply Hmap | by apply (Hentry RESOURCE_SHADER_MODULE) | apply Hmap].
  - apply (Hinline RESOURCE_RENDER_PASS).
  - unfold enqueue_create_graphics_pipeline. destruct (graphics_selected _ _); cbn [fst].
    + apply Hnil; cbn; [apply Hmap | by apply (Hentry RESOURCE_GRAPHICS_PIPELINE) | apply Hmap].
    + by apply Hnil.
  - unfold enqueue_create_compute_pipeline. destruct (compute_selected _ _); cbn [fst].
    + apply Hnil; cbn; [apply Hmap | by apply (Hentry RESOURCE_COMPUTE_PIPELINE) | apply Hmap].
    + by apply Hnil.
  - by apply Hnil.
Qed.

(** ** Where the handles come from *)










(** ** Every work item is replayed [loop_count] times *)

Lemma count_insert {A} (f : A -> bool) (l : list A) w x y :
  l !! w = Some x ->
  (length (List.filter f (<[w := y]> l)) + (if f x then 1 else 0)
   = length (List.filter f l) + (if f y then 1 else 0))%nat.
Proof.
  revert w. induction l as [| z l IH]; intros w Hw; [done |].
  destruct w as [| w].
  - injection Hw as ->. change (<[0%nat := y]> (x :: l)) with (y :: l).
    cbn [List.filter]. destruct (f x), (f y); cbn [length]; lia.
  - change (<[S w := y]> (z :: l)) with (z :: <[w := y]> l).
    specialize (IH w Hw). cbn [List.filter]. destruct (f z), (f x), (f y); cbn [length]; lia.
Qed.

Lemma awaiting_idle c (pool : list Worker) : omap held pool = [] -> awaiting c pool = 0%nat.
Proof.
  unfold awaiting. induction pool as [| st pool IH]; [done |]. cbn.
  destruct st as [| item | item |]; cbn; try done.
Qed.

Lemma creates_iteration_any c item result p :
  creates c (iteration_calls item result p) = if bool_decide (tag item = c) then 1%nat else 0%nat.
Proof.
  unfold creates, iteration_calls.
  destruct (bool_decide (entry_read _ p ≠ _)); cbn; destruct (bool_decide (tag item = c)); reflexivity.
Qed.

Lemma replay_loop_creates_any c n : forall i item results p,
  creates c (vk_trace (replay_loop n i item results p))
  = (creates c (vk_trace p) + if bool_decide (tag item = c) then n else 0)%nat.
Proof.
  induction n as [| n IH]; intros i item results p; cbn [replay_loop].
  - destruct (bool_decide _); lia.
  - rewrite IH, replay_once_trace, creates_app, creates_iteration_any.
    destruct (bool_decide _); lia.
Qed.

Lemma replay_loop_loops n : forall i item results p,
  loop_count (replayer (replay_loop n i item results p)) = loop_count (replayer p).
Proof.
  intros i item results p.
  by destruct (replay_loop_schedule n i item results p) as (_ & _ & _ & _ & _ & _ & _ & _ & _ & _ & ->).
Qed.

Lemma run_work_item_creates_any c item results p :
  is_deferred (tag item) = true ->
  creates c (vk_trace (run_work_item item results p))
  = (creates c (vk_trace p)
     + if bool_decide (tag item = c) then Z.to_nat (loop_count (replayer p)) else 0)%nat.
Proof.
  intros Hdef. unfold run_work_item.
  destruct (tag item) eqn:Ht; try discriminate; rewrite replay_loop_creates_any, Ht; reflexivity.
Qed.

Lemma step_attempts c p0 ls p l p' :
  Forall (fun item => facade_item item
                      /\ hash item ∈ dom (registry (replayer p) (tag item))) (pending_items p) ->
  run ls p0 = Some p -> step l p = Some p' ->
  attempts c p0 ls p -> attempts c p0 (ls ++ [l]) p'.
Proof.
  intros Hpend Hrun Hstep [Hloops Hatt].
  pose proof (taken_snoc ls l p0 p p' Hrun Hstep) as Htaken.
  unfold attempts. rewrite Htaken, map_app. unfold pushes_of in *.
  rewrite List.filter_app, length_app.
  set (loops := Z.to_nat (loop_count (replayer p0))) in *.
  set (pushed := length (List.filter (fun key : ResourceTag * Z => bool_decide (key.1 = c))
                           (map item_key (taken ls p0)))) in *.
  assert (Hkeep : forall q,
            loop_count (replayer q) = loop_count (replayer p) ->
            creates c (vk_trace q) = creates c (vk_trace p) ->
            thread_pool (replayer q) = thread_pool (replayer p) ->
            took l q = [] ->
            loop_count (replayer q) = loop_count (replayer p0)
            /\ (creates c (vk_trace q) + loops * awaiting c (thread_pool (replayer q)))%nat
               = (loops * (pushed
                           + length (List.filter (fun key : ResourceTag * Z => bool_decide (key.1 = c))
                                       (map item_key (took l q)))))%nat).
  { intros q -> -> -> ->. split; [exact Hloops |]. cbn [map List.filter length]. lia. }
  destruct (step_inversion l p p' Hstep) as [Hex Hspec].
  destruct Hspec as [env c0 h blob rest p Hs | env rest p Hs Heq | env e rest p Hs | env rest p Hs
                    | env rest p Hs | env code rest p Hs Hall | w p Hw Hd | w item rest p Hw Hd Hq
                    | w results item p Hw | w item p Hw];
    try (by apply Hkeep).
  - destruct (parse_effect env c0 h blob p) as [(_ & _ & Fp & _ & _ & _ & _ & Fl & _) _].
    destruct (parse_trace env c0 h blob p) as (calls & Ht & Hinline & _).
    apply Hkeep; try done.
    cbn [vk_trace set_script]. rewrite Ht, creates_app, (inline_calls_creates c calls Hinline). lia.
  - assert (Hlt : (w < length (thread_pool (replayer p)))%nat) by (eapply lookup_lt_Some; eauto).
    pose proof (count_insert (is_awaiting c) _ w Waiting Exited Hw) as Hcount.
    assert (Htook : took (LPop w) (set_worker w Exited (flush_locals p)) = []).
    { cbn. by rewrite list_lookup_insert_eq. }
    rewrite Htook. split; [exact Hloops |].
    change (thread_pool (replayer (set_worker w Exited (flush_locals p))))
      with (<[w := Exited]> (thread_pool (replayer p))).
    change (vk_trace (set_worker w Exited (flush_locals p))) with (vk_trace p).
    unfold awaiting in *. cbn [is_awaiting map List.filter length] in *. nia.
  - assert (Hlt : (w < length (thread_pool (replayer p)))%nat) by (eapply lookup_lt_Some; eauto).
    pose proof (count_insert (is_awaiting c) _ w Waiting (Popped item) Hw) as Hcount.
    assert (Htook : took (LPop w)
                      (set_worker w (Popped item) (upd_replayer (set_pipeline_work_queue rest) p))
                    = [item]).
    { cbn. by rewrite list_lookup_insert_eq. }
    rewrite Htook. split; [exact Hloops |].
    change (thread_pool (replayer (set_worker w (Popped item)
                                     (upd_replayer (set_pipeline_work_queue rest) p))))
      with (<[w := Popped item]> (thread_pool (replayer p))).
    change (vk_trace (set_worker w (Popped item) (upd_replayer (set_pipeline_work_queue rest) p)))
      with (vk_trace p).
    unfold awaiting, item_key in *. cbn [is_awaiting map List.filter length fst] in *.
    destruct (bool_decide (tag item = c)); cbn [length] in *; nia.
  - assert (Hitem : facade_item item).
    { rewrite Forall_forall in Hpend. apply Hpend. unfold pending_items. apply elem_of_app. right.
      eapply held_pending; eauto. }
    destruct (run_work_item_schedule item results p)
      as (Fs & Fe & Fr & Fq & Fp & Fn & Fc & Fd & Fg & Ff & Fl).
    pose proof (count_insert (is_awaiting c) _ w (Popped item) (Executed item) Hw) as Hcount.
    pose proof (run_work_item_creates_any c item results p (proj1 Hitem)) as Hcreates.
    change (took (LExec w results) (set_worker w (Executed item) (run_work_item item results p)))
      with (@nil PipelineWorkItem).
    change (thread_pool (replayer (set_worker w (Executed item) (run_work_item item results p))))
      with (<[w := Executed item]> (thread_pool (replayer (run_work_item item results p)))).
    change (vk_trace (set_worker w (Executed item) (run_work_item item results p)))
      with (vk_trace (run_work_item item results p)).
    change (loop_count (replayer (set_worker w (Executed item) (run_work_item item results p))))
      with (loop_count (replayer (run_work_item item results p))).
    rewrite Fl, Fp, Hcreates, Hloops. fold loops. split; [reflexivity |].
    unfold awaiting in *. cbn [is_awaiting map List.filter length] in *.
    destruct (bool_decide (tag item = c)); nia.
  - pose proof (count_insert (is_awaiting c) _ w (Executed item) Waiting Hw) as Hcount.
    split; [exact Hloops |].
    change (took (LDone w) _) with (@nil PipelineWorkItem).
    unfold awaiting in *. unfold creates in *. cbn in *. nia.
Qed.

Lemma main_attempts hw argv db p0 ls c : forall p,
  main hw argv db = inr p0 -> run ls p0 = Some p -> attempts c p0 ls p.
Proof.
  induction ls as [| l ls IH] using rev_ind; intros p Hmain Hrun.
  - cbn in Hrun. injection Hrun as <-.
    apply main_started in Hmain as (o & g & c' & -> & _).
    split; [reflexivity |]. cbn. unfold awaiting.
    assert (List.filter (is_awaiting c) (repeat Waiting (Z.to_nat (Options.num_threads o))) = []) as ->.
    { induction (Z.to_nat (Options.num_threads o)); [done | by cbn]. }
    cbn. unfold creates. cbn. lia.
  - rewrite run_snoc in Hrun. destruct (run ls p0) as [q |] eqn:Hq; [| discriminate].
    destruct (main_history hw argv db p0 ls q Hmain Hq) as (_ & _ & pre & _ & _ & Hpend & _).
    apply (step_attempts c p0 ls q l p Hpend Hq Hrun). by apply IH.
Qed.

Lemma no_parse_no_push graphics compute ops :
  Forall (fun op => forall c, parses c op = false) ops -> omap (push_of graphics compute) ops = [].
Proof.
  induction 1 as [| op ops Hop _ IH]; [reflexivity |].
  change (op :: ops) with ([op] ++ ops). rewrite omap_app, IH, app_nil_r.
  destruct op as [c h blob | | | | |]; try reflexivity.
  specialize (Hop c). cbn in Hop. by rewrite bool_decide_eq_true_2 in Hop.
Qed.

(** ** Shader modules are created before pipelines *)

Lemma shaders_first_app tr calls :
  shaders_first (tr ++ calls) = true <->
  shaders_first tr = true /\ shaders_first calls = true
  /\ (existsb is_pipeline_create tr = true ->
      forallb (fun call' => negb (is_shader_create call')) calls = true).
Proof.
  induction tr as [| call tr IH]; cbn [app shaders_first existsb].
  - split; [intros H; repeat split; [exact H | discriminate] | by intros (_ & H & _)].
  - rewrite andb_true_iff, IH, andb_true_iff. destruct (is_pipeline_create call); cbn [orb].
    + rewrite forallb_app, andb_true_iff. split.
      * intros ((H1 & H2) & H3 & H4 & H5). auto.
      * intros ((H1 & H2) & H3 & H4). specialize (H4 eq_refl). auto.
    + split.
      * intros (_ & H3 & H4 & H5). auto.
      * intros ((_ & H2) & H3 & H4). auto.
Qed.

Lemma shaders_first_lookup tr : forall i j call call',
  shaders_first tr = true ->
  tr !! i = Some call -> tr !! j = Some call' ->
  is_pipeline_create call = true -> is_shader_create call' = true -> (j < i)%nat.
Proof.
  induction tr as [| x tr IH]; intros i j call call' Hs Hi Hj Hp Hc; [done |].
  cbn [shaders_first] in Hs. apply andb_true_iff in Hs as [Hx Hs].
  destruct i as [| i].
  - cbn in Hi. assert (x = call) by congruence. subst x. rewrite Hp in Hx.
    destruct j as [| j].
    + cbn in Hj. assert (call' = call) by congruence. subst call'.
      destruct call as [| c info r | |]; try discriminate.
      cbn in Hp, Hc. apply bool_decide_eq_true in Hc. by subst c.
    + cbn in Hj. rewrite forallb_forall in Hx.
      apply list_elem_of_lookup_2, list_elem_of_In, Hx in Hj. by rewrite Hc in Hj.
  - destruct j as [| j]; [lia |]. cbn in Hi, Hj. specialize (IH i j call call' Hs Hi Hj Hp Hc). lia.
Qed.

Lemma inline_calls_order calls :
  forallb is_inline_call calls = true ->
  shaders_first calls = true
  /\ forallb (fun call' => negb (is_shader_create call')) calls = true
  /\ existsb is_pipeline_create calls = false.
Proof.
  induction calls as [| call calls IH]; [done |]. cbn [forallb shaders_first existsb].
  intros [H1 H2]%andb_true_iff. destruct (IH H2) as (-> & -> & ->).
  by destruct call.
Qed.

Lemma worker_calls_order c calls :
  forallb (is_worker_call c) calls = true ->
  (c = RESOURCE_SHADER_MODULE ->
   shaders_first calls = true /\ existsb is_pipeline_create calls = false)
  /\ (c <> RESOURCE_SHADER_MODULE ->
      shaders_first calls = true
      /\ forallb (fun call' => negb (is_shader_create call')) calls = true).
Proof.
  induction calls as [| call calls IH]; [done |]. cbn [forallb shaders_first existsb].
  intros [H1 H2]%andb_true_iff. destruct (IH H2) as [IHs IHp]. split.
  - intros ->. destruct (IHs eq_refl) as [-> ->].
    destruct call as [| c' info r | c' h |]; try discriminate; cbn in *;
      apply bool_decide_eq_true in H1; subst c'; done.
  - intros Hc. destruct (IHp Hc) as [-> ->].
    destruct call as [| c' info r | c' h |]; try discriminate; cbn in *;
      apply bool_decide_eq_true in H1; subst c';
      rewrite ?(bool_decide_eq_false_2 (c = RESOURCE_SHADER_MODULE)) by done;
      by destruct (is_pipeline_tag c).
Qed.

Lemma replay_loop_calls n : forall i item results p,
  exists calls,
    vk_trace (replay_loop n i item results p) = vk_trace p ++ calls
    /\ forallb (is_worker_call (tag item)) calls = true.
Proof.
  induction n as [| n IH]; intros i item results p; cbn [replay_loop].
  - exists []. by rewrite app_nil_r.
  - destruct (IH (S i) item results (replay_once item (results i) p)) as (calls & Ht & Hall).
    exists (iteration_calls item (results i) p ++ calls).
    rewrite Ht, replay_once_trace, <- app_assoc. split; [reflexivity |].
    rewrite forallb_app, Hall, andb_true_r. unfold iteration_calls.
    destruct (bool_decide (entry_read _ p ≠ _)); cbn; by rewrite ?bool_decide_eq_true_2.
Qed.

Lemma run_work_item_calls item results p :
  exists calls,
    vk_trace (run_work_item item results p) = vk_trace p ++ calls
    /\ forallb (is_worker_call (tag item)) calls = true.
Proof.
  unfold run_work_item.
  destruct (tag item) eqn:Ht; try (exists []; by rewrite app_nil_r);
    destruct (replay_loop_calls (Z.to_nat (loop_count (replayer p))) 0 item results p)
      as (calls & Hc & Hall); exists calls; by rewrite Ht in Hall.
Qed.

Lemma pipeline_in_flight total p item :
  run_invariant total p -> item ∈ pending_items p -> is_pipeline_item item = true ->
  Forall (fun pending => is_shader_item pending = false) (pending_items p)
  /\ Forall (fun op => parses RESOURCE_SHADER_MODULE op = false) (script p).
Proof.
  intros (_ & _ & _ & (ph & Hph & Hhold & _) & _) Hin Hpipe.
  assert (Hnot : ~ Forall (fun pending => is_pipeline_item pending = false) (pending_items p)).
  { intros Hall. rewrite Forall_forall in Hall. specialize (Hall item Hin). congruence. }
  destruct ph; simpl in Hhold.
  - contradiction.
  - split; [exact Hhold |]. by apply (well_phased_no_shader AfterBarrier).
  - rewrite Hhold in Hin. by apply elem_of_nil in Hin.
  - destruct Hhold as [_ [Hall | Hall]]; [contradiction |].
    split; [exact Hall |]. by apply (well_phased_no_shader Closing).
Qed.

Lemma creates_ordered_keep p q :
  vk_trace q = vk_trace p ->
  (exists items, pending_items p ≡ₚ items ++ pending_items q) ->
  (exists ops, script p = ops ++ script q) ->
  creates_ordered p -> creates_ordered q.
Proof.
  intros Ht [items Hperm] [ops Hs] [Hsorted Hafter]. unfold creates_ordered. rewrite Ht.
  split; [exact Hsorted |]. intros Hex. destruct (Hafter Hex) as [Hpend Hscript]. split.
  - eapply Permutation_Forall in Hpend; [| exact Hperm]. by apply Forall_app in Hpend as [_ ?].
  - rewrite Hs in Hscript. by apply Forall_app in Hscript as [_ ?].
Qed.

Lemma step_creates_ordered total l p p' :
  run_invariant total p -> step l p = Some p' -> creates_ordered p -> creates_ordered p'.
Proof.
  intros Hinv Hstep Hord.
  destruct (step_inversion l p p' Hstep) as [Hex Hspec].
  destruct Hspec as [env c h blob rest p Hs | env rest p Hs Heq | env e rest p Hs | env rest p Hs
                    | env rest p Hs | env code rest p Hs Hall | w p Hw Hd | w item rest p Hw Hd Hq
                    | w results item p Hw | w item p Hw].
  - destruct (parse_effect env c h blob p) as [(_ & _ & Fp & _) Fpush].
    destruct (parse_trace env c h blob p) as (calls & Ht & Hinline & _).
    destruct (inline_calls_order calls Hinline) as (Hs1 & Hs2 & Hs3).
    destruct Hord as [Hsorted Hafter]. unfold creates_ordered.
    cbn [vk_trace script set_script]. rewrite Ht. split.
    + apply shaders_first_app. auto.
    + rewrite existsb_app, Hs3, orb_false_r. intros Hpipe.
      destruct (Hafter Hpipe) as [Hpend Hscript]. rewrite Hs in Hscript.
      apply Forall_cons in Hscript as [Hop Hscript]. split; [| exact Hscript].
      unfold pending_items in *. cbn [replayer set_script]. rewrite Fp.
      destruct (op_pushes _ _ _) eqn:Hpush.
      * destruct Fpush as (_ & item & Htag & _ & -> & _). rewrite <- app_assoc.
        apply Forall_app in Hpend as [H1 H2]. apply Forall_app. split; [exact H1 |].
        apply Forall_cons. split; [| exact H2]. unfold is_shader_item. rewrite Htag.
        cbn in Hop. exact Hop.
      * destruct Fpush as [-> _]. exact Hpend.
  - apply (creates_ordered_keep p); [reflexivity | by exists [] | | exact Hord].
    exists [OpSync]. by rewrite Hs.
  - apply (creates_ordered_keep p); [reflexivity | by exists [] | | exact Hord].
    exists [OpLog e]. by rewrite Hs.
  - apply (creates_ordered_keep p); [reflexivity | by exists [] | | exact Hord].
    exists [OpReport]. by rewrite Hs.
  - apply (creates_ordered_keep p); [reflexivity | by exists [] | | exact Hord].
    exists [OpShutdown]. by rewrite Hs.
  - apply (creates_ordered_keep p); [reflexivity | by exists [] | | exact Hord].
    exists [OpJoin code]. by rewrite Hs.
  - apply (creates_ordered_keep p); [reflexivity | | by exists [] | exact Hord].
    exists []. unfold pending_items. cbn.
    by rewrite (held_insert_same _ w Waiting Exited Hw eq_refl).
  - apply (creates_ordered_keep p); [reflexivity | | by exists [] | exact Hord].
    exists []. unfold pending_items. cbn. rewrite Hq.
    rewrite (held_insert_take _ w Waiting (Popped item) item Hw eq_refl eq_refl).
    cbn. by rewrite Permutation_middle.
  - destruct (run_work_item_schedule item results p)
      as (Fs & Fe & Fr & Fq & Fp & Fn & Fc & Fd & Fg & Ff & Fl).
    destruct (run_work_item_calls item results p) as (calls & Ht & Hall).
    destruct (worker_calls_order _ _ Hall) as [Hshader Hother].
    assert (Hin : item ∈ pending_items p).
    { unfold pending_items. apply elem_of_app. right. eapply held_pending; eauto. }
    assert (Hpending : pending_items (set_worker w (Executed item) (run_work_item item results p))
                       = pending_items p).
    { unfold pending_items. cbn. rewrite Fq, Fp.
      by rewrite (held_insert_same _ w (Popped item) (Executed item) Hw eq_refl). }
    destruct Hord as [Hsorted Hafter]. unfold creates_ordered. rewrite Hpending.
    cbn [vk_trace script set_worker upd_replayer set_replayer]. rewrite Ht, Fs.
    destruct (decide (tag item = RESOURCE_SHADER_MODULE)) as [Htag | Htag].
    + destruct (Hshader Htag) as [Hs1 Hs2].
      assert (Hno : existsb is_pipeline_create (vk_trace p) = false).
      { destruct (existsb is_pipeline_create (vk_trace p)) eqn:Hpipe; [| reflexivity].
        destruct (Hafter eq_refl) as [Hpend _]. rewrite Forall_forall in Hpend.
        specialize (Hpend item Hin). unfold is_shader_item in Hpend.
        by rewrite bool_decide_eq_true_2 in Hpend. }
      split.
      * apply shaders_first_app. rewrite Hno. split; [done | split; [done | discriminate]].
      * rewrite existsb_app, Hno, Hs2. discriminate.
    + destruct (Hother Htag) as [Hs1 Hs2]. split.
      * apply shaders_first_app. auto.
      * rewrite existsb_app. intros Hpipe. apply orb_true_iff in Hpipe as [Hpipe | Hpipe];
          [by apply Hafter |].
        apply (pipeline_in_flight total p item Hinv Hin).
        apply existsb_exists in Hpipe as (call & Hcall & Hp).
        rewrite forallb_forall in Hall. specialize (Hall call Hcall).
        destruct call as [| c' info r | |]; try discriminate. cbn in Hall, Hp.
        apply bool_decide_eq_true in Hall. subst c'. unfold is_pipeline_item.
        destruct (tag item); try discriminate; reflexivity.
  - apply (creates_ordered_keep p); [reflexivity | | by exists [] | exact Hord].
    exists [item]. unfold pending_items. cbn.
    rewrite (held_insert_release _ w (Executed item) Waiting item Hw eq_refl eq_refl).
    by rewrite Permutation_middle.
Qed.

Lemma main_creates_ordered hw argv db p0 ls : forall p,
  main hw argv db = inr p0 -> Z.of_nat (pushes_left p0) < 2 ^ 32 -> run ls p0 = Some p ->
  creates_ordered p.
Proof.
  induction ls as [| l ls IH] using rev_ind; intros p Hmain Htot Hrun.
  - cbn in Hrun. injection Hrun as <-.
    apply main_started in Hmain as (o & g & c' & -> & _). split; [reflexivity | discriminate].
  - rewrite run_snoc in Hrun. destruct (run ls p0) as [q |] eqn:Hq; [| discriminate].
    destruct (main_run_invariant hw argv db p0 ls q Hmain Htot Hq) as [Hinv _].
    apply (step_creates_ordered _ l q p Hinv Hrun). by apply IH.
Qed.

(** ** The objects created in place *)

Lemma parse_hashes_app c ops1 ops2 :
  parse_hashes c (ops1 ++ ops2) = parse_hashes c ops1 ++ parse_hashes c ops2.
Proof. apply omap_app. Qed.

Lemma play_hashes_keys db c c' hashes :
  exists n, parse_hashes c (play_hashes db c' hashes).1
            = if decide (c' = c) then take n hashes else [].
Proof.
  induction hashes as [| h hashes [n IH]]; cbn [play_hashes].
  - exists 0%nat. by destruct (decide (c' = c)).
  - destruct (read_entry db c' h) as [blob |].
    + destruct (play_hashes db c' hashes) as [ops ok]. cbn [fst] in *.
      exists (S n). change (OpParse c' h blob :: ops) with ([OpParse c' h blob] ++ ops).
      rewrite parse_hashes_app, IH. unfold parse_hashes. cbn.
      by destruct (decide (c' = c)).
    + exists 0%nat. by destruct (decide (c' = c)).
Qed.

Lemma play_tags_keys db c tags :
  NoDup tags ->
  exists n, parse_hashes c (play_tags db tags).1
            = if decide (c ∈ tags)
              then take n (default [] (get_hash_list_for_resource_tag db c)) else [].
Proof.
  induction tags as [| c' tags IH]; intros Hnd; cbn [play_tags].
  - exists 0%nat. rewrite take_0. by destruct (decide (c ∈ [])).
  - apply NoDup_cons in Hnd as [Hnot Hnd]. destruct (IH Hnd) as [n Hn].
    destruct (get_hash_list_for_resource_tag db c') as [hashes |] eqn:Hlist.
    2: { exists 0%nat. rewrite take_0. by destruct (decide (c ∈ c' :: tags)). }
    destruct (play_hashes_keys db c c' hashes) as [m Hm].
    destruct (play_hashes db c' hashes) as [ops ok]. cbn [fst] in Hm.
    assert (Hfirst : exists k, parse_hashes c ops
                               = if decide (c = c')
                                 then take k (default [] (get_hash_list_for_resource_tag db c))
                                 else []).
    { exists m. rewrite Hm. destruct (decide (c' = c)) as [-> |].
      - rewrite decide_True by done. by rewrite Hlist.
      - by rewrite decide_False by done. }
    destruct Hfirst as [k Hk].
    destruct ok.
    + destruct (play_tags db tags) as [ops' ok']. cbn [fst] in *.
      rewrite !parse_hashes_app, Hk, Hn.
      assert (parse_hashes c (if decide (c' = RESOURCE_RENDER_PASS) then [OpSync] else []) = [])
        as -> by (by destruct (decide (c' = RESOURCE_RENDER_PASS))).
      destruct (decide (c = c')) as [-> | Hne].
      * exists k. destruct (decide (c' ∈ c' :: tags)) as [_ | Hno];
          [| exfalso; apply Hno, list_elem_of_here].
        destruct (decide (c' ∈ tags)); [done |]. by rewrite app_nil_r.
      * destruct (decide (c ∈ tags)) as [Hin | Hin].
        -- exists n. destruct (decide (c ∈ c' :: tags)) as [_ | Hno]; [done |].
           exfalso. apply Hno. by apply elem_of_cons; right.
        -- exists 0%nat. rewrite take_0. by destruct (decide (c ∈ c' :: tags)).
    + cbn [fst]. rewrite Hk. destruct (decide (c = c')) as [-> | Hne].
      * exists k. destruct (decide (c' ∈ c' :: tags)) as [_ | Hno]; [done |].
        exfalso. apply Hno, list_elem_of_here.
      * exists 0%nat. rewrite take_0. by destruct (decide (c ∈ c' :: tags)).
Qed.

Lemma main_script_keys db c :
  distinct_hashes db -> NoDup (parse_hashes c (main_script db)).
Proof.
  intros Hdb. unfold main_script. destruct (prepare db); [| apply NoDup_nil_2].
  assert (Hnd : NoDup playback_order).
  { unfold playback_order.
    repeat (apply NoDup_cons; split;
              [intros Hin;
               repeat (apply elem_of_cons in Hin as [Hin | Hin]; [discriminate |]);
               by apply elem_of_nil in Hin |]).
    apply NoDup_nil_2. }
  destruct (play_tags_keys db c playback_order Hnd) as [n Hn].
  destruct (play_tags db playback_order) as [ops ok]. cbn [fst] in Hn.
  assert (NoDup (parse_hashes c ops)) as Hops.
  { rewrite Hn. destruct (decide _); [| apply NoDup_nil_2].
    destruct (get_hash_list_for_resource_tag db c) as [hashes |] eqn:Hl; cbn [default].
    - specialize (Hdb c hashes Hl). rewrite <- (take_drop n hashes) in Hdb.
      by apply NoDup_app in Hdb as [? _].
    - rewrite take_nil. apply NoDup_nil_2. }
  destruct ok; rewrite parse_hashes_app; cbn; by rewrite app_nil_r.
Qed.

Lemma inline_successes_app c tr1 tr2 :
  inline_successes c (tr1 ++ tr2) = (inline_successes c tr1 + inline_successes c tr2)%nat.
Proof. apply count_calls_app. Qed.

Lemma inline_balanced_same c pre op p q :
  inline_successes c (vk_trace q) = inline_successes c (vk_trace p) ->
  registry (replayer q) c = registry (replayer p) c ->
  inline_balanced c pre p -> inline_balanced c (pre ++ [op]) q.
Proof.
  intros Ht Hr [Hb Hd]. unfold inline_balanced. rewrite Ht, Hr. split; [exact Hb |].
  intros h Hh. rewrite parse_hashes_app. apply elem_of_app. left. by apply Hd.
Qed.

Lemma inline_balanced_worker c pre p q :
  inline_successes c (vk_trace q) = inline_successes c (vk_trace p) ->
  registry (replayer q) c = registry (replayer p) c ->
  inline_balanced c pre p -> inline_balanced c pre q.
Proof. intros Ht Hr [Hb Hd]. unfold inline_balanced. by rewrite Ht, Hr. Qed.

Lemma set_application_info_inline c env p :
  inline_successes c (vk_trace (set_application_info env p)) = inline_successes c (vk_trace p)
  /\ registry (replayer (set_application_info env p)) = registry (replayer p).
Proof.
  destruct (set_application_info_trace env p) as (calls & Ht & _ & Hno & Hr & _).
  split; [| exact Hr]. rewrite Ht, inline_successes_app.
  assert (inline_successes c calls = 0%nat) as ->; [| lia].
  unfold inline_successes. clear Ht. induction calls as [| call calls IH]; [reflexivity |].
  cbn. rewrite IH.
  - destruct call as [c' info r | | |]; try reflexivity.
    exfalso. apply (Hno c' info r). apply list_elem_of_here.
  - intros c' info r Hin. apply (Hno c' info r). by apply elem_of_cons; right.
Qed.

Lemma parse_inline_balanced c env c0 h blob pre p :
  is_inline c = true ->
  (forall v, inline_result env = VkSuccess v -> v <> VK_NULL_HANDLE) ->
  (c0 = c -> h ∉ parse_hashes c pre) ->
  inline_balanced c pre p ->
  inline_balanced c (pre ++ [OpParse c0 h blob]) (parse env c0 h blob p).
Proof.
  intros Hc Henv Hfresh Hb.
  assert (Hentry : forall c1, is_inline c1 = false ->
            registry (replayer (map_entry c1 h p)) c = registry (replayer p) c
            /\ vk_trace (map_entry c1 h p) = vk_trace p).
  { intros c1 Hc1. unfold map_entry. destruct (_ !! _); [done |]. cbn.
    rewrite upd_other; [done |]. intros ->. congruence. }
  assert (Hinline : forall c1 info out, c1 = c0 -> is_inline c1 = true ->
            inline_balanced c (pre ++ [OpParse c0 h (BlobRecord info out)])
              (enqueue_create_inline c1 h info out (inline_result env) p).1).
  { intros c1 info out -> Hc1. destruct (inline_result env) as [v |] eqn:Hres; cbn.
    2: { apply (inline_balanced_same c pre _ p); [| reflexivity | exact Hb].
         unfold inline_successes. cbn. rewrite count_calls_app. cbn. lia. }
    destruct (decide (c0 = c)) as [-> | Hne].
    - destruct Hb as [Hcount Hdom]. split.
      + unfold inline_successes in *. cbn. rewrite count_calls_app, upd_same. unfold read_output.
        cbn. rewrite lookup_insert_eq. cbn. rewrite bool_decide_eq_true_2 by done.
        pose proof (live_handles_insert (registry (replayer p) c) h v) as Hl.
        assert (registry (replayer p) c !! h = None) as Hnone.
        { apply not_elem_of_dom. intros Hin. by apply (Hfresh eq_refl), Hdom. }
        rewrite Hnone in Hl. cbn [default] in Hl.
        rewrite (bool_decide_eq_false_2 (VK_NULL_HANDLE ≠ VK_NULL_HANDLE)) in Hl by auto.
        rewrite (bool_decide_eq_true_2 (v ≠ VK_NULL_HANDLE)) in Hl by (by apply Henv). lia.
      + intros h'. cbn. rewrite upd_same, dom_insert_L, parse_hashes_app.
        intros [->%elem_of_singleton | Hin]%elem_of_union; apply elem_of_app.
        * right. cbn. rewrite decide_True by done. apply list_elem_of_here.
        * left. by apply Hdom.
    - apply (inline_balanced_same c pre _ p); [| | exact Hb].
      + unfold inline_successes. cbn. rewrite count_calls_app. cbn.
        rewrite bool_decide_eq_false_2 by done. lia.
      + cbn. by rewrite upd_other. }
  destruct blob as [| info out].
  { by apply (inline_balanced_same c pre _ p). }
  destruct c0; cbn [parse].
  - destruct (set_application_info_inline c (device_env env) p) as [Ht Hr].
    apply (inline_balanced_same c pre _ p); [exact Ht | by rewrite Hr | exact Hb].
  - by apply Hinline.
  - by apply Hinline.
  - by apply Hinline.
  - destruct (Hentry RESOURCE_SHADER_MODULE eq_refl) as [Hr Ht].
    apply (inline_balanced_same c pre _ p); [cbn; by rewrite Ht | exact Hr | exact Hb].
  - by apply Hinline.
  - unfold enqueue_create_graphics_pipeline. destruct (graphics_selected _ _); cbn [fst].
    + destruct (Hentry RESOURCE_GRAPHICS_PIPELINE eq_refl) as [Hr Ht].
      apply (inline_balanced_same c pre _ p); [cbn; by rewrite Ht | exact Hr | exact Hb].
    + by apply (inline_balanced_same c pre _ p).
  - unfold enqueue_create_compute_pipeline. destruct (compute_selected _ _); cbn [fst].
    + destruct (Hentry RESOURCE_COMPUTE_PIPELINE eq_refl) as [Hr Ht].
      apply (inline_balanced_same c pre _ p); [cbn; by rewrite Ht | exact Hr | exact Hb].
    + by apply (inline_balanced_same c pre _ p).
  - by apply (inline_balanced_same c pre _ p).
Qed.

Lemma replay_loop_inline c n : forall i item results p,
  hash_map_entry item = (tag item, hash item) -> tag item <> c ->
  inline_successes c (vk_trace (replay_loop n i item results p)) = inline_successes c (vk_trace p)
  /\ registry (replayer (replay_loop n i item results p)) c = registry (replayer p) c.
Proof.
  induction n as [| n IH]; intros i item results p Hentry Htag; [done |].
  cbn [replay_loop]. destruct (IH (S i) item results (replay_once item (results i) p) Hentry Htag)
    as [-> ->].
  rewrite replay_once_trace, replay_once_registry, Hentry, inline_successes_app. cbn [fst].
  rewrite decide_False by done. split; [| reflexivity].
  unfold inline_successes, iteration_calls. destruct (bool_decide _); cbn; lia.
Qed.

Lemma run_work_item_inline c item results p :
  is_inline c = true -> facade_item item ->
  inline_successes c (vk_trace (run_work_item item results p)) = inline_successes c (vk_trace p)
  /\ registry (replayer (run_work_item item results p)) c = registry (replayer p) c.
Proof.
  intros Hc [Hdef Hentry]. unfold run_work_item.
  assert (Hne : tag item <> c) by (intros <-; destruct (tag item); discriminate).
  destruct (tag item) eqn:Ht; try done; apply replay_loop_inline; congruence.
Qed.

Lemma main_inline_balanced hw argv db p0 ls c : forall p,
  main hw argv db = inr p0 -> distinct_hashes db -> is_inline c = true ->
  Forall delivers_handles ls -> run ls p0 = Some p ->
  exists pre, main_script db = pre ++ script p /\ inline_balanced c pre p.
Proof.
  induction ls as [| l ls IH] using rev_ind; intros p Hmain Hdb Hc Hls Hrun.
  - cbn in Hrun. injection Hrun as <-.
    apply main_started in Hmain as (o & g & c' & -> & _). exists []. split; [reflexivity |].
    split; cbn; [by rewrite live_handles_empty |]. intros h. by rewrite dom_empty_L.
  - rewrite run_snoc in Hrun. destruct (run ls p0) as [q |] eqn:Hq; [| discriminate].
    apply Forall_app in Hls as [Hls Hl]. apply Forall_inv in Hl.
    destruct (IH q Hmain Hdb Hc Hls eq_refl) as (pre & Hpre & Hb).
    destruct (main_history hw argv db p0 ls q Hmain Hq) as (_ & _ & _ & _ & _ & Hpend & _).
    destruct (step_inversion l q p Hrun) as [Hex Hspec].
    destruct Hspec as [env c0 h blob rest q Hs | env rest q Hs Heq | env e rest q Hs | env rest q Hs
                      | env rest q Hs | env code rest q Hs Hall | w q Hw Hd | w item rest q Hw Hd Hq'
                      | w results item q Hw | w item q Hw].
    + exists (pre ++ [OpParse c0 h blob]). cbn [script set_script].
      split; [by rewrite Hpre, Hs, <- app_assoc |].
      apply (inline_balanced_worker c _ (parse env c0 h blob q)); [reflexivity | reflexivity |].
      apply parse_inline_balanced; try done.
      intros -> Hin. pose proof (main_script_keys db c Hdb) as Hnd.
      rewrite Hpre, Hs, parse_hashes_app in Hnd. apply NoDup_app in Hnd as (_ & Hdisj & _).
      apply (Hdisj h Hin). cbn. rewrite decide_True by done. apply list_elem_of_here.
    + exists (pre ++ [OpSync]). split; [by rewrite Hpre, Hs, <- app_assoc |].
      by apply (inline_balanced_same c pre _ q).
    + exists (pre ++ [OpLog e]). split; [by rewrite Hpre, Hs, <- app_assoc |].
      by apply (inline_balanced_same c pre _ q).
    + exists (pre ++ [OpReport]). split; [by rewrite Hpre, Hs, <- app_assoc |].
      by apply (inline_balanced_same c pre _ q).
    + exists (pre ++ [OpShutdown]). split; [by rewrite Hpre, Hs, <- app_assoc |].
      by apply (inline_balanced_same c pre _ q).
    + exists (pre ++ [OpJoin code]). split; [by rewrite Hpre, Hs, <- app_assoc |].
      by apply (inline_balanced_same c pre _ q).
    + exists pre. split; [exact Hpre |]. by apply (inline_balanced_worker c pre q).
    + exists pre. split; [exact Hpre |]. by apply (inline_balanced_worker c pre q).
    + assert (Hitem : facade_item item).
      { rewrite Forall_forall in Hpend. apply Hpend. unfold pending_items. apply elem_of_app. right.
        eapply held_pending; eauto. }
      destruct (run_work_item_schedule item results q) as (Fs & _).
      destruct (run_work_item_inline c item results q Hc Hitem) as [Ht Hr].
      exists pre. split; [by rewrite Hpre, <- Fs |].
      by apply (inline_balanced_worker c pre q).
    + exists pre. split; [exact Hpre |]. by apply (inline_balanced_worker c pre q).
Qed.

(** ** The report *)

(** The constant of [double_1e_9] is the double nearest to 10^-9: it is
    within half a unit of the last place, 2^-83. *)
Lemma double_1e_9_nearest : 2 * Z.abs (4835703278458517 * 10 ^ 9 - 2 ^ 82) <= 10 ^ 9.
Proof. vm_compute. discriminate. Qed.

(** One and a half seconds are printed as 1.500, half a millisecond less
    than two milliseconds as 0.001, and the largest value of the atomic as
    18446744073.710. *)
Lemma printf_3f_samples :
  printf_3f (seconds 1500000000) = Decimal3 false 1500
  /\ printf_3f (seconds 1499999) = Decimal3 false 1
  /\ printf_3f (seconds (2 ^ 64 - 1)) = Decimal3 false 18446744073710.
Proof. vm_compute. done. Qed.

(** ** After the report *)





(** A schedule that can be run leads to the state [after] names. *)
Lemma run_after ls p : bool_decide (is_Some (run ls p)) = true -> run ls p = Some (after ls p).
Proof. intros H. apply bool_decide_eq_true in H as [q Hq]. unfold after. by rewrite Hq. Qed.



(** ** The records [main] parses *)

(** Every parse of [main]'s script is that of an entry the archive lists
    and delivers. *)
Lemma play_hashes_parse db c hashes c' h blob :
  OpParse c' h blob ∈ (play_hashes db c hashes).1 ->
  c' = c /\ h ∈ hashes /\ read_entry db c h = Some blob.
Proof.
  induction hashes as [| h0 hashes IH]; cbn [play_hashes fst].
  - intros Hin. by apply elem_of_nil in Hin.
  - destruct (read_entry db c h0) as [blob0 |] eqn:Hread.
    + destruct (play_hashes db c hashes) as [ops ok]. cbn [fst] in *.
      intros Hin. apply elem_of_cons in Hin as [[= -> -> ->] | Hin].
      * split; [done |]. split; [apply list_elem_of_here | done].
      * destruct (IH Hin) as (-> & Hh & Hr). split; [done |].
        split; [by apply elem_of_cons; right | done].
    + cbn [fst]. intros Hin. apply elem_of_cons in Hin as [[=] | Hin].
      by apply elem_of_nil in Hin.
Qed.

Lemma play_tags_parse db tags c h blob :
  OpParse c h blob ∈ (play_tags db tags).1 ->
  h ∈ default [] (get_hash_list_for_resource_tag db c) /\ read_entry db c h = Some blob.
Proof.
  induction tags as [| c0 tags IH]; cbn [play_tags fst].
  - intros Hin. by apply elem_of_nil in Hin.
  - destruct (get_hash_list_for_resource_tag db c0) as [hashes |] eqn:Hlist.
    2: { cbn [fst]. intros Hin. apply elem_of_cons in Hin as [[=] | Hin].
         by apply elem_of_nil in Hin. }
    pose proof (play_hashes_parse db c0 hashes c h blob) as Hh.
    destruct (play_hashes db c0 hashes) as [ops ok]. cbn [fst] in Hh.
    assert (Hops : OpParse c h blob ∈ ops ->
                   h ∈ default [] (get_hash_list_for_resource_tag db c)
                   /\ read_entry db c h = Some blob).
    { intros Hin. destruct (Hh Hin) as (-> & Hel & Hr). by rewrite Hlist. }
    destruct ok; [| exact Hops].
    destruct (play_tags db tags) as [ops' ok']. cbn [fst] in *.
    rewrite !elem_of_app. intros [Hin | [Hin | Hin]]; [by apply Hops | | by apply IH].
    destruct (decide (c0 = RESOURCE_RENDER_PASS)).
    + apply elem_of_cons in Hin as [[=] | Hin]. by apply elem_of_nil in Hin.
    + by apply elem_of_nil in Hin.
Qed.

Lemma main_script_parse db c h blob :
  OpParse c h blob ∈ main_script db ->
  h ∈ default [] (get_hash_list_for_resource_tag db c) /\ read_entry db c h = Some blob.
Proof.
  rewrite main_script_play. destruct (prepare db).
  - rewrite elem_of_app. intros [Hin | Hin]; [by apply (play_tags_parse db playback_order) |].
    unfold epilogue in Hin. destruct (play_tags db playback_order).2;
      repeat (apply elem_of_cons in Hin as [[=] | Hin]); by apply elem_of_nil in Hin.
  - intros Hin. repeat (apply elem_of_cons in Hin as [[=] | Hin]). by apply elem_of_nil in Hin.
Qed.

(** When the archive is read to the end, every entry it lists is parsed. *)
Lemma play_hashes_all db c hashes h :
  (play_hashes db c hashes).2 = true -> h ∈ hashes ->
  exists blob, OpParse c h blob ∈ (play_hashes db c hashes).1.
Proof.
  induction hashes as [| h0 hashes IH]; cbn [play_hashes].
  - intros _ Hin. by apply elem_of_nil in Hin.
  - destruct (read_entry db c h0) as [blob0 |]; [| discriminate].
    destruct (play_hashes db c hashes) as [ops ok]. cbn [fst snd] in *.
    intros Hok Hin. apply elem_of_cons in Hin as [-> | Hin].
    + exists blob0. apply list_elem_of_here.
    + destruct (IH Hok Hin) as [blob Hb]. exists blob. by apply elem_of_cons; right.
Qed.

Lemma play_tags_all db tags c h :
  (play_tags db tags).2 = true -> c ∈ tags ->
  h ∈ default [] (get_hash_list_for_resource_tag db c) ->
  exists blob, OpParse c h blob ∈ (play_tags db tags).1.
Proof.
  induction tags as [| c0 tags IH]; cbn [play_tags].
  - intros _ Hin. by apply elem_of_nil in Hin.
  - destruct (get_hash_list_for_resource_tag db c0) as [hashes |] eqn:Hlist; [| discriminate].
    pose proof (play_hashes_all db c0 hashes h) as Hh.
    destruct (play_hashes db c0 hashes) as [ops ok]. cbn [fst snd] in Hh.
    destruct ok; [| discriminate].
    destruct (play_tags db tags) as [ops' ok']. cbn [fst snd] in *.
    intros Hok Hc Hin. destruct (decide (c = c0)) as [-> | Hne].
    + rewrite Hlist in Hin. destruct (Hh eq_refl Hin) as [blob Hb].
      exists blob. rewrite elem_of_app. by left.
    + apply elem_of_cons in Hc as [-> | Hc]; [done |].
      destruct (IH Hok Hc Hin) as [blob Hb]. exists blob. rewrite !elem_of_app. auto.
Qed.

Lemma main_script_all db c h :
  prepare db = true -> (play_tags db playback_order).2 = true -> c ∈ playback_order ->
  h ∈ default [] (get_hash_list_for_resource_tag db c) ->
  exists blob, OpParse c h blob ∈ main_script db.
Proof.
  intros Hprep Hok Hc Hin. rewrite main_script_play, Hprep.
  destruct (play_tags_all db playback_order c h Hok Hc Hin) as [blob Hb].
  exists blob. rewrite elem_of_app. by left.
Qed.

(** The hashes pushed by a list of statements. *)
Lemma elem_of_pushed_hashes c graphics compute ops x :
  x ∈ pushed_hashes c (omap (push_of graphics compute) ops) <->
  exists blob, OpParse c x blob ∈ ops /\ op_pushes graphics compute (OpParse c x blob) = true.
Proof.
  induction ops as [| op ops IH].
  - cbn. split; [intros Hin; by apply elem_of_empty in Hin |].
    intros (blob & Hin & _). by apply elem_of_nil in Hin.
  - assert (Hone : omap (push_of graphics compute) [op]
                   = match op with
                     | OpParse c' h _ => if op_pushes graphics compute op then [(c', h)] else []
                     | _ => []
                     end).
    { destruct op as [c' h blob | | | | |]; try reflexivity.
      unfold push_of. cbn [omap list_omap]. by destruct (op_pushes _ _ _). }
    change (op :: ops) with ([op] ++ ops). rewrite omap_app, Hone.
    unfold pushed_hashes in *. rewrite List.filter_app, map_app, list_to_set_app_L, elem_of_union, IH.
    split.
    + intros [Hin | (blob & Hin & Hp)].
      * destruct op as [c' h blob | | | | |];
          try (cbn in Hin; by apply elem_of_empty in Hin).
        destruct (op_pushes graphics compute (OpParse c' h blob)) eqn:Hp; cbn in Hin;
          [| by apply elem_of_empty in Hin].
        destruct (bool_decide (c' = c)) eqn:Hc; cbn in Hin; [| by apply elem_of_empty in Hin].
        apply bool_decide_eq_true in Hc as ->.
        apply elem_of_union in Hin as [Hin | Hin]; [| by apply elem_of_empty in Hin].
        apply elem_of_singleton in Hin as ->.
        exists blob. split; [apply list_elem_of_here | done].
      * exists blob. split; [by apply elem_of_app; right | done].
    + intros (blob & Hin & Hp). apply elem_of_app in Hin as [Hin | Hin]; [| right; eauto].
      left. apply list_elem_of_singleton in Hin as <-. rewrite Hp. cbn.
      rewrite bool_decide_eq_true_2 by done. cbn. set_solver.
Qed.

Lemma pushed_hashes_app c keys1 keys2 :
  pushed_hashes c (keys1 ++ keys2) = pushed_hashes c keys1 ∪ pushed_hashes c keys2.
Proof. unfold pushed_hashes. by rewrite List.filter_app, map_app, list_to_set_app_L. Qed.

Lemma elem_of_archive_records db c h :
  h ∈ archive_records db c <->
  h ∈ default [] (get_hash_list_for_resource_tag db c)
  /\ exists info out, read_entry db c h = Some (BlobRecord info out).
Proof.
  unfold archive_records. rewrite elem_of_list_to_set, list_elem_of_In, List.filter_In,
    <- list_elem_of_In.
  unfold is_record. split; intros [Hin Hr]; (split; [done |]).
  - destruct (read_entry db c h) as [[| info out] |]; try discriminate. eauto.
  - destruct Hr as (info & out & ->). done.
Qed.

(** What reaches a worker of the graphics pipelines when a filter is set. *)
Lemma filtered_graphics_reach hw argv db p0 ls q :
  main hw argv db = inr p0 -> run ls p0 = Some q ->
  filter_graphics (replayer p0) <> ∅ ->
  reaching_worker RESOURCE_GRAPHICS_PIPELINE ls p0
  ⊆ filter_graphics (replayer p0) ∩ archive_records db RESOURCE_GRAPHICS_PIPELINE
  /\ (exited q = Some EXIT_SUCCESS -> pipeline_work_queue (replayer q) = [] ->
      reaching_worker RESOURCE_GRAPHICS_PIPELINE ls p0
      = filter_graphics (replayer p0) ∩ archive_records db RESOURCE_GRAPHICS_PIPELINE).
Proof.
  intros Hmain Hrun Hne.
  destruct (main_history hw argv db p0 ls q Hmain Hrun) as (_ & _ & pre & Hpre & Hkeys & _).
  rewrite map_app in Hkeys.
  set (g := filter_graphics (replayer p0)) in *. set (f := filter_compute (replayer p0)) in *.
  assert (Hsel : forall x blob,
            op_pushes g f (OpParse RESOURCE_GRAPHICS_PIPELINE x blob) = true ->
            x ∈ g /\ exists info out, blob = BlobRecord info out).
  { intros x [| info out] Hp; cbn in Hp; [discriminate |]. split; [| eauto].
    apply orb_true_iff in Hp as [Hp | Hp]; [| by apply bool_decide_eq_true in Hp].
    apply andb_true_iff in Hp as [Hp _]. by apply bool_decide_eq_true in Hp. }
  assert (Hsound : forall x, x ∈ pushed_hashes RESOURCE_GRAPHICS_PIPELINE (omap (push_of g f) pre) ->
                             x ∈ g ∩ archive_records db RESOURCE_GRAPHICS_PIPELINE).
  { intros x Hx. apply elem_of_pushed_hashes in Hx as (blob & Hin & Hp).
    destruct (Hsel x blob Hp) as (Hg & info & out & ->).
    assert (Hm : OpParse RESOURCE_GRAPHICS_PIPELINE x (BlobRecord info out) ∈ main_script db).
    { rewrite Hpre. by apply elem_of_app; left. }
    apply main_script_parse in Hm as [Hl Hr].
    apply elem_of_intersection. split; [done |]. apply elem_of_archive_records. eauto. }
  split.
  - intros x Hx. apply Hsound. rewrite <- Hkeys, pushed_hashes_app. apply elem_of_union. by left.
  - intros Hex Hq. apply set_eq. intros x. split.
    + intros Hx. apply Hsound. rewrite <- Hkeys, pushed_hashes_app. apply elem_of_union. by left.
    + intros Hx. apply elem_of_intersection in Hx as [Hg Hrec].
      apply elem_of_archive_records in Hrec as (Hl & info & out & Hr).
      destruct (main_outcome hw argv db p0 ls q Hmain Hrun) as [(pre' & Hpre' & _ & _ & Hend) _].
      rewrite Hex in Hend. destruct Hend as [[[=] _] | (_ & Hjoin & Hs & _)].
      rewrite Hs, app_nil_r in Hpre'. subst pre'.
      pose proof (main_script_end db EXIT_SUCCESS Hjoin) as Hcase.
      destruct (prepare db && (play_tags db playback_order).2) eqn:Hok;
        [| destruct Hcase as [[=] _]].
      apply andb_true_iff in Hok as [Hp Ht].
      assert (Hc : RESOURCE_GRAPHICS_PIPELINE ∈ playback_order).
      { unfold playback_order. do 6 apply list_elem_of_further. apply list_elem_of_here. }
      destruct (main_script_all db _ x Hp Ht Hc Hl) as [blob Hin].
      destruct (main_script_parse db _ x blob Hin) as [_ Hr'].
      assert (blob = BlobRecord info out) as -> by congruence.
      rewrite Hs, app_nil_r in Hpre. subst pre.
      rewrite Hq in Hkeys. cbn [map] in Hkeys. rewrite app_nil_r in Hkeys.
      unfold reaching_worker. rewrite Hkeys. apply elem_of_pushed_hashes.
      exists (BlobRecord info out). split; [exact Hin |]. cbn.
      apply orb_true_iff. right. by apply bool_decide_eq_true.
Qed.

(** ** When the device cannot be created *)

Lemma set_application_info_exits env p :
  exited p = None ->
  (exited (set_application_info env p) = None <->
   ~ (device_was_init (replayer p) = false /\ init_device env = false)).
Proof.
  intros Hex. unfold set_application_info.
  destruct (device_was_init (replayer p)); cbn [negb].
  { split; [intros _ [[=] _] | done]. }
  destruct (init_device env); cbn [negb].
  2: { cbn. split; [discriminate | intros H; by destruct H]. }
  cbn [upd_replayer set_replayer replayer set_device_was_init opts].
  split; [intros _ [_ [=]] | intros _].
  destruct (Options.pipeline_cache (opts (replayer p))); [| exact Hex].
  destruct (load_on_disk_cache _ env) as [data lines].
  destruct (create_cache_first env); [| destruct (create_cache_retry env)]; exact Hex.
Qed.

Lemma parse_exits env c h blob rest p :
  exited p = None -> script p = OpParse c h blob :: rest ->
  (exited (parse env c h blob p) = None <-> refuses_device (LMain env) p = false).
Proof.
  intros Hex Hs. unfold refuses_device. rewrite Hs.
  destruct blob as [| info out]; [by destruct c |].
  destruct c; cbn [parse];
    try (split; [done | intros _]);
    try (destruct (inline_result env); exact Hex).
  - rewrite (set_application_info_exits (device_env env) p Hex).
    destruct (device_was_init (replayer p)), (init_device (device_env env)); cbn;
      split; try done; try (intros H; by destruct H); try (by intros _ [[=] _]);
      try (by intros _ [_ [=]]); intros H; exfalso; by apply H.
  - cbn. unfold map_entry. by destruct (_ !! _).
  - unfold enqueue_create_graphics_pipeline. destruct (graphics_selected _ _); cbn [fst];
      cbn; unfold map_entry; try done; by destruct (_ !! _).
  - unfold enqueue_create_compute_pipeline. destruct (compute_selected _ _); cbn [fst];
      cbn; unfold map_entry; try done; by destruct (_ !! _).
Qed.

(** A move leaves the script as it is or takes its first statement. *)
Lemma step_script l p p' :
  step l p = Some p' -> script p' = script p \/ exists op, script p = op :: script p'.
Proof.
  intros Hstep. destruct (step_inversion l p p' Hstep) as [Hex Hspec].
  destruct Hspec as [env c h blob rest p Hs | env rest p Hs Heq | env e rest p Hs | env rest p Hs
                    | env rest p Hs | env code rest p Hs Hall | w p Hw Hd | w item rest p Hw Hd Hq
                    | w results item p Hw | w item p Hw];
    try (right; rewrite Hs; by eexists); try (by left).
  left. by destruct (run_work_item_schedule item results p) as (Fs & _).
Qed.

(** A move logs that the device could not be created exactly when it is
    the refused set-up. *)
Lemma step_device_line l p p' :
  (forall e, OpLog e ∈ script p -> e <> LogDeviceFailed) ->
  step l p = Some p' ->
  (LogDeviceFailed ∈ log p' <-> LogDeviceFailed ∈ log p \/ refuses_device l p = true).
Proof.
  intros Hlines Hstep. destruct (step_inversion l p p' Hstep) as [Hex Hspec].
  destruct Hspec as [env c h blob rest p Hs | env rest p Hs Heq | env e rest p Hs | env rest p Hs
                    | env rest p Hs | env code rest p Hs Hall | w p Hw Hd | w item rest p Hw Hd Hq
                    | w results item p Hw | w item p Hw];
    try (unfold refuses_device; try rewrite Hs; cbn; split; [by left | by intros [H | [=]]]).
  - destruct (parse_log env c h blob p Hex) as (lines & Hl & Hcase).
    pose proof (parse_exits env c h blob rest p Hex Hs) as Hiff.
    cbn [log set_script]. rewrite Hl, elem_of_app.
    destruct Hcase as [[Hnone Hno] | [Hsome Hyes]].
    + apply Hiff in Hnone. rewrite Hnone. split; [intros [H | H]; [by left | done] |].
      intros [H | [=]]. by left.
    + destruct (refuses_device (LMain env) p) eqn:Hr; [split; auto |].
      rewrite (proj2 Hiff eq_refl) in Hsome. discriminate.
  - unfold refuses_device. rewrite Hs. cbn. rewrite elem_of_app. split.
    + intros [H | H%list_elem_of_singleton]; [by left |]. exfalso.
      apply (Hlines e); [| done]. rewrite Hs. apply list_elem_of_here.
    + intros [H | [=]]. by left.
  - unfold refuses_device. cbn. split.
    + intros H. left. by destruct (run_work_item_log _ _ _ _ H).
    + intros [H | [=]]. by apply run_work_item_log_grows.
Qed.

Lemma run_device_line ls : forall p q,
  (forall e, OpLog e ∈ script p -> e <> LogDeviceFailed) ->
  run ls p = Some q ->
  (LogDeviceFailed ∈ log q <-> LogDeviceFailed ∈ log p \/ device_refused ls p = true).
Proof.
  induction ls as [| l ls IH]; intros p q Hlines Hrun.
  - cbn in Hrun. injection Hrun as <-. cbn. split; [by left | by intros [H | [=]]].
  - cbn [run device_refused] in *. destruct (step l p) as [p' |] eqn:Hstep; [| discriminate].
    assert (Hlines' : forall e, OpLog e ∈ script p' -> e <> LogDeviceFailed).
    { intros e He. apply Hlines. destruct (step_script l p p' Hstep) as [<- | [op ->]]; [done |].
      by apply elem_of_cons; right. }
    rewrite (IH p' q Hlines' Hrun), (step_device_line l p p' Hlines Hstep), orb_true_iff.
    tauto.
Qed.

Lemma main_device_line hw argv db p0 ls p :
  main hw argv db = inr p0 -> run ls p0 = Some p ->
  (LogDeviceFailed ∈ log p <-> device_refused ls p0 = true).
Proof.
  intros Hmain Hrun.
  rewrite (run_device_line ls p0 p); [| | exact Hrun].
  - apply main_started in Hmain as (o & g & c & -> & _). cbn.
    split; [intros [H | H]; [by apply elem_of_nil in H | done] | by right].
  - apply main_started in Hmain as (o & g & c & -> & _). cbn. apply main_script_lines.
Qed.

Lemma help_asked_fold cbs : forall v,
  ended (fold_left call_back cbs v) = help_asked cbs || ended v.
Proof.
  unfold help_asked. induction cbs as [| cb cbs IH]; intros v; [reflexivity |].
  cbn [fold_left existsb]. rewrite IH. destruct cb; cbn; try reflexivity.
  by rewrite orb_true_r.
Qed.

(** * The properties *)

(** C1.  The barrier after the render passes is there, in the words of
    [main], to "make sure the threaded shader modules have been created"
    before the pipelines; it compares two 32-bit counters and lets [main]
    through when [queued_count] has wrapped.  The archive holds 2^32 shader
    modules and one graphics pipeline, and the pool two threads.  [main]
    pushes every shader module before a worker moves; [queued_count] is back
    at zero, equal to [completed_count], so the barrier returns and the
    pipeline is pushed.  Worker 0 takes the first shader module and keeps it;
    worker 1 works through the others and pops the pipeline while that
    shader module is still pending. *)
Lemma barrier_passes_at_wrap :
  exists p0 ls p p' item item',
    main 8 argv_two_threads overflow_archive = inr p0
    /\ run ls p0 = Some p
    /\ step (LPop 1) p = Some p'
    /\ thread_pool (replayer p') !! 1%nat = Some (Popped item)
    /\ is_pipeline_item item = true
    /\ item' ∈ pending_items p
    /\ is_shader_item item' = true.
Proof.
  pose proof (observe_started options_two_threads overflow_archive) as Hobs.
  unfold overflow_archive in Hobs at 2. rewrite main_script_archive in Hobs.
  change (Options.loop_count options_two_threads) with 1 in Hobs.
  change (repeat Waiting (Z.to_nat (Options.num_threads options_two_threads)))
    with [Waiting; Waiting] in Hobs.
  destruct (observe_pushes RESOURCE_SHADER_MODULE _ _ _ _ _ _ _ _ _ eq_refl Hobs)
    as (q1 & items & Hr1 & Hall & Hlen & Ho1).
  rewrite overflow_shaders_length in Ho1. cbn [app] in Ho1.
  assert (Heq : wrap32 (0 + 2 ^ 32) = wrap32 0) by reflexivity.
  destruct (observe_sync _ _ _ _ _ _ _ _ Heq Ho1) as (q2 & Hs2 & Ho2).
  cbn [map app] in Ho2.
  destruct (observe_push _ _ RESOURCE_GRAPHICS_PIPELINE _ _ _ _ _ _ _ eq_refl Ho2)
    as (q3 & pipeline & Hs3 & Hptag & Ho3).
  destruct items as [| first items].
  { exfalso. pose proof overflow_shaders_length as Hl. rewrite <- Hlen in Hl.
    cbn [length Z.of_nat] in Hl. lia. }
  inversion Hall as [| ? ? Htag Hall']; subst.
  cbn [app] in Ho3.
  destruct ((fun H => observe_pop _ _ _ _ _ _ _ _ _ 0%nat H Ho3) eq_refl) as (q4 & Hs4 & Ho4).
  cbn [insert list_insert] in Ho4.
  destruct ((fun H => observe_drain 1%nat items _ _ _ _ _ _ _ _ Hall' H Ho4) eq_refl)
    as (q5 & Hr5 & Ho5).
  destruct ((fun H => observe_pop _ _ _ _ _ _ _ _ _ 1%nat H Ho5) eq_refl) as (q6 & Hs6 & Ho6).
  exists (started options_two_threads ∅ ∅ overflow_archive).
  destruct Hr1 as [ls1 Hrun1]. destruct Hr5 as [ls5 Hrun5].
  exists (ls1 ++ [LMain env0; LMain env0; LPop 0] ++ ls5), q5, q6, pipeline, first.
  split; [apply main_two_threads |].
  split.
  { rewrite run_app, Hrun1. cbn [run app]. rewrite Hs2, Hs3, Hs4. exact Hrun5. }
  split; [exact Hs6 |].
  destruct Ho5 as (_ & _ & _ & _ & _ & _ & _ & Hq5 & Hp5 & _).
  destruct Ho6 as (_ & _ & _ & _ & _ & _ & _ & _ & Hp6 & _).
  split; [rewrite Hp6; reflexivity |].
  split.
  { unfold is_pipeline_item. rewrite Hptag. reflexivity. }
  split.
  { unfold pending_items. rewrite Hq5, Hp5. apply elem_of_app. right.
    change (omap held [Popped first; Waiting]) with [first]. apply list_elem_of_here. }
  unfold is_shader_item. rewrite Htag. reflexivity.
Qed.

(** C2 (amended).  [enqueue_create_graphics_pipeline] appends a work item to
    the queue exactly when both filters are empty or the hash is in
    [filter_graphics], and [enqueue_create_compute_pipeline] exactly when
    both are empty or the hash is in [filter_compute]; the item carries the
    hash and the category and [queued_count] goes up by one; otherwise the
    replayer (queue, counters, registries) is unchanged and the output slot
    holds the null handle.  Hence, in a run of [main] with a non-empty
    [filter_graphics], the hashes of the graphics pipelines that a worker
    takes from the queue are, at any time, among those of [filter_graphics]
    that the archive lists and whose entry reads and parses; and they are
    all of these once the process has ended with [EXIT_SUCCESS] and the queue
    is empty. *)
Theorem filter_decides_push p h info out :
  ((exists item,
      pipeline_work_queue (replayer (enqueue_create_graphics_pipeline h info out p).1)
      = pipeline_work_queue (replayer p) ++ [item])
   <-> (filter_graphics (replayer p) = ∅ /\ filter_compute (replayer p) = ∅)
       \/ h ∈ filter_graphics (replayer p))
  /\ ((exists item,
         pipeline_work_queue (replayer (enqueue_create_compute_pipeline h info out p).1)
         = pipeline_work_queue (replayer p) ++ [item])
      <-> (filter_compute (replayer p) = ∅ /\ filter_graphics (replayer p) = ∅)
          \/ h ∈ filter_compute (replayer p))
  /\ (graphics_selected (replayer p) h = true ->
      pipeline_work_queue (replayer (enqueue_create_graphics_pipeline h info out p).1)
      = pipeline_work_queue (replayer p)
        ++ [{| hash := h; tag := RESOURCE_GRAPHICS_PIPELINE; create_info := info; output := out;
               hash_map_entry := (RESOURCE_GRAPHICS_PIPELINE, h) |}]
      /\ queued_count (replayer (enqueue_create_graphics_pipeline h info out p).1)
         = wrap32 (queued_count (replayer p) + 1))
  /\ (compute_selected (replayer p) h = true ->
      pipeline_work_queue (replayer (enqueue_create_compute_pipeline h info out p).1)
      = pipeline_work_queue (replayer p)
        ++ [{| hash := h; tag := RESOURCE_COMPUTE_PIPELINE; create_info := info; output := out;
               hash_map_entry := (RESOURCE_COMPUTE_PIPELINE, h) |}]
      /\ queued_count (replayer (enqueue_create_compute_pipeline h info out p).1)
         = wrap32 (queued_count (replayer p) + 1))
  /\ (graphics_selected (replayer p) h = false ->
      replayer (enqueue_create_graphics_pipeline h info out p).1 = replayer p
      /\ outputs (enqueue_create_graphics_pipeline h info out p).1
         = <[out := VK_NULL_HANDLE]> (outputs p))
  /\ (compute_selected (replayer p) h = false ->
      replayer (enqueue_create_compute_pipeline h info out p).1 = replayer p
      /\ outputs (enqueue_create_compute_pipeline h info out p).1
         = <[out := VK_NULL_HANDLE]> (outputs p))
  /\ (forall hw argv db p0 ls q,
        main hw argv db = inr p0 -> run ls p0 = Some q ->
        filter_graphics (replayer p0) <> ∅ ->
        reaching_worker RESOURCE_GRAPHICS_PIPELINE ls p0
        ⊆ filter_graphics (replayer p0) ∩ archive_records db RESOURCE_GRAPHICS_PIPELINE
        /\ (exited q = Some EXIT_SUCCESS -> pipeline_work_queue (replayer q) = [] ->
            reaching_worker RESOURCE_GRAPHICS_PIPELINE ls p0
            = filter_graphics (replayer p0) ∩ archive_records db RESOURCE_GRAPHICS_PIPELINE)).
Proof.
  pose proof (enqueue_graphics_queue h info out p) as Hg.
  pose proof (enqueue_compute_queue h info out p) as Hc.
  rewrite <- graphics_selected_iff, <- compute_selected_iff.
  split; [| split; [| split; [| split; [| split; [| split]]]]].
  - destruct (graphics_selected (replayer p) h); rewrite Hg.
    + split; [done | eauto].
    + split; [| discriminate]. intros [item Heq]. symmetry in Heq.
      by apply app_singleton_neq in Heq.
  - destruct (compute_selected (replayer p) h); rewrite Hc.
    + split; [done | eauto].
    + split; [| discriminate]. intros [item Heq]. symmetry in Heq.
      by apply app_singleton_neq in Heq.
  - intros Hsel. rewrite Hsel in Hg. split; [exact Hg |].
    unfold enqueue_create_graphics_pipeline. rewrite Hsel. cbn.
    by rewrite map_entry_queued_count.
  - intros Hsel. rewrite Hsel in Hc. split; [exact Hc |].
    unfold enqueue_create_compute_pipeline. rewrite Hsel. cbn.
    by rewrite map_entry_queued_count.
  - intros Hsel. unfold enqueue_create_graphics_pipeline. rewrite Hsel. done.
  - intros Hsel. unfold enqueue_create_compute_pipeline. rewrite Hsel. done.
  - intros hw argv db p0 ls q. apply filtered_graphics_reach.
Qed.

(** With [--filter-graphics 2 --filter-graphics 3] and the archive whose
    blob of 2 does not parse, the complete run hands the pipeline 3 to the
    worker, and nothing else. *)
Lemma filter_decides_push_witness :
  reaching_worker RESOURCE_GRAPHICS_PIPELINE schedule_malformed malformed_start
  = filter_graphics (replayer malformed_start)
    ∩ archive_records malformed_archive RESOURCE_GRAPHICS_PIPELINE.
Proof.
  refine (proj2 (proj2 (proj2 (proj2 (proj2 (proj2 (proj2
            (filter_decides_push malformed_start 0 0 0))))))
            8 argv_filtered malformed_archive malformed_start schedule_malformed
            (after schedule_malformed malformed_start) _ _ _) _ _).
  - vm_compute; reflexivity.
  - apply run_after; vm_compute; reflexivity.
  - apply (proj1 (bool_decide_eq_false _)). vm_compute; reflexivity.
  - vm_compute; reflexivity.
  - vm_compute; reflexivity.
Defined.

(** C2, as stated, fails when an entry of the archive does not parse or
    cannot be read.  With [--filter-graphics 2 --filter-graphics 3] and the
    graphics pipelines 2 and 3 in the archive, both would reach a worker.
    When the blob of 2 is malformed, [main] logs the exception and goes on,
    and the complete run, which ends with [EXIT_SUCCESS], hands only 3 to
    the worker; when the entry of 3 cannot be read, [main] returns
    [EXIT_FAILURE] there and only 2 has reached the worker. *)
Lemma filtered_hash_never_reaches_worker :
  (exists p,
     main 8 argv_filtered malformed_archive = inr malformed_start
     /\ run schedule_malformed malformed_start = Some p
     /\ exited p = Some EXIT_SUCCESS
     /\ log p = [LogParseException RESOURCE_GRAPHICS_PIPELINE 2]
     /\ filter_graphics (replayer malformed_start) <> ∅
     /\ reaching_worker RESOURCE_GRAPHICS_PIPELINE schedule_malformed malformed_start
        <> filter_graphics (replayer malformed_start)
           ∩ archive_hashes malformed_archive RESOURCE_GRAPHICS_PIPELINE)
  /\ (exists p,
        main 8 argv_filtered unread_archive = inr unread_start
        /\ run schedule_unread unread_start = Some p
        /\ exited p = Some EXIT_FAILURE
        /\ log p = [LogReadFailed]
        /\ filter_graphics (replayer unread_start) <> ∅
        /\ reaching_worker RESOURCE_GRAPHICS_PIPELINE schedule_unread unread_start
           <> filter_graphics (replayer unread_start)
              ∩ archive_hashes unread_archive RESOURCE_GRAPHICS_PIPELINE).
Proof.
  split.
  - exists (after schedule_malformed malformed_start).
    split; [vm_compute; reflexivity |].
    split; [apply run_after; vm_compute; reflexivity |].
    split; [vm_compute; reflexivity |].
    split; [vm_compute; reflexivity |].
    split; apply (proj1 (bool_decide_eq_false _)); vm_compute; reflexivity.
  - exists (after schedule_unread unread_start).
    split; [vm_compute; reflexivity |].
    split; [apply run_after; vm_compute; reflexivity |].
    split; [vm_compute; reflexivity |].
    split; [vm_compute; reflexivity |].
    split; apply (proj1 (bool_decide_eq_false _)); vm_compute; reflexivity.
Qed.

(** C3 (amended).  For a work item of a deferred category the worker runs
    the loop body once for each index below [loop_count]; an iteration
    destroys the handle in the registry slot when it is not null, and then
    calls the create entry point of the category once; after it the slot holds
    the new handle on success and the null handle on failure, and on success
    the output slot holds the new handle too.  So [loop_count] creates are
    called in all; nothing happens when [loop_count] is zero; and when
    [loop_count] is at least 1, the slot starts null and every create succeeds
    with a handle that is not null, there are [loop_count - 1] destroys and
    the slot ends with the handle of the last create. *)
Theorem work_item_repetitions item results p :
  is_deferred (tag item) = true ->
  run_work_item item results p
  = fold_left (fun q i => replay_once item (results i) q)
      (seq 0 (Z.to_nat (loop_count (replayer p)))) p
  /\ (forall result q,
        vk_trace (replay_once item result q) = vk_trace q ++ iteration_calls item result q
        /\ entry_read (hash_map_entry item) (replay_once item result q) = handle_of result
        /\ (forall h ns, result = Created h ns ->
              read_output (output item) (replay_once item result q) = h))
  /\ creates (tag item) (vk_trace (run_work_item item results p))
     = (creates (tag item) (vk_trace p) + Z.to_nat (loop_count (replayer p)))%nat
  /\ (loop_count (replayer p) <= 0 -> run_work_item item results p = p)
  /\ (1 <= loop_count (replayer p) ->
      entry_read (hash_map_entry item) p = VK_NULL_HANDLE ->
      (forall i, (i < Z.to_nat (loop_count (replayer p)))%nat ->
         exists h ns, results i = Created h ns /\ h <> VK_NULL_HANDLE) ->
      Z.of_nat (destroys (tag item) (vk_trace (run_work_item item results p)))
      = Z.of_nat (destroys (tag item) (vk_trace p)) + (loop_count (replayer p) - 1)
      /\ entry_read (hash_map_entry item) (run_work_item item results p)
         = handle_of (results (Z.to_nat (loop_count (replayer p)) - 1)%nat)).
Proof.
  intros Hdef.
  pose proof (run_work_item_loop item results p Hdef) as Hrun.
  split; [by apply run_work_item_deferred |].
  split.
  { intros result q. split; [apply replay_once_trace |].
    split; [apply replay_once_slot |]. intros h ns ->. apply replay_once_output. }
  split; [by apply run_work_item_creates |].
  split.
  { intros Hle. rewrite Hrun. replace (Z.to_nat (loop_count (replayer p))) with O by lia.
    reflexivity. }
  intros Hge Hnull Hall. rewrite Hrun.
  destruct (Z.to_nat (loop_count (replayer p))) as [| n] eqn:Hn; [lia |].
  split.
  - rewrite replay_loop_destroys by (intros j Hj; apply Hall; lia).
    rewrite Hnull, bool_decide_eq_false_2 by (intros H; by apply H). lia.
  - rewrite replay_loop_slot. f_equal. f_equal. lia.
Qed.

(** The shader module of the small archive, in the hands of the worker. *)
Lemma work_item_repetitions_witness :
  creates RESOURCE_SHADER_MODULE
    (vk_trace (run_work_item (shader_item 1) always_created (after schedule_taken small_start)))
  = (creates RESOURCE_SHADER_MODULE (vk_trace (after schedule_taken small_start))
     + Z.to_nat (loop_count (replayer (after schedule_taken small_start))))%nat.
Proof.
  exact (proj1 (proj2 (proj2 (work_item_repetitions (shader_item 1) always_created
                                (after schedule_taken small_start) eq_refl)))).
Defined.

(** C3, as stated, fails for [--loop 0]: nothing is created or destroyed,
    and the number of destroys, zero, is not [loop_count - 1]. *)
Lemma no_repetition_no_destroy :
  main 8 argv_no_loop (archive [10] []) = inr (started options_no_loop ∅ ∅ (archive [10] []))
  /\ loop_count (replayer (started options_no_loop ∅ ∅ (archive [10] []))) = 0
  /\ entry_read (hash_map_entry (shader_item 10)) (started options_no_loop ∅ ∅ (archive [10] []))
     = VK_NULL_HANDLE
  /\ (forall i, exists h ns, always_created i = Created h ns /\ h <> VK_NULL_HANDLE)
  /\ Z.of_nat (destroys RESOURCE_SHADER_MODULE
                 (vk_trace (run_work_item (shader_item 10) always_created
                              (started options_no_loop ∅ ∅ (archive [10] [])))))
     <> loop_count (replayer (started options_no_loop ∅ ∅ (archive [10] []))) - 1.
Proof.
  split; [reflexivity |]. split; [reflexivity |]. split; [reflexivity |].
  split; [intros i; exists 1, 1; split; [reflexivity | discriminate] |].
  discriminate.
Qed.

(** C4 (amended).  In a run that pushes fewer than 2^32 work items, in every
    reachable state [completed_count <= queued_count]; no move of any thread
    lowers either counter; and once [sync_worker_threads] has returned, the
    counters are equal and stay equal for as long as the main thread pushes
    nothing. *)
Theorem counters_monotone_below_wrap hw argv db p0 ls p :
  main hw argv db = inr p0 ->
  Z.of_nat (pushes_left p0) < 2 ^ 32 ->
  run ls p0 = Some p ->
  completed_count (replayer p) <= queued_count (replayer p)
  /\ (forall l p', step l p = Some p' ->
        queued_count (replayer p) <= queued_count (replayer p')
        /\ completed_count (replayer p) <= completed_count (replayer p'))
  /\ (forall env rest p' ls' p'',
        script p = OpSync :: rest -> step (LMain env) p = Some p' ->
        run ls' p' = Some p'' -> quiet ls' p' = true ->
        queued_count (replayer p'') = completed_count (replayer p'')).
Proof.
  intros Hmain Htot Hrun.
  destruct (main_run_invariant hw argv db p0 ls p Hmain Htot Hrun) as [Hinv Ht].
  split; [| split].
  - destruct Hinv as (_ & Hq & _). lia.
  - intros l p' Hstep. eapply step_monotone; eauto.
  - intros env rest p' ls' p'' Hs Hstep Hrun' Hquiet.
    assert (Heq : queued_count (replayer p') = completed_count (replayer p')).
    { unfold step in Hstep. destruct (exited p); [discriminate |].
      unfold main_step in Hstep. rewrite Hs in Hstep.
      destruct (Z.eqb_spec (queued_count (replayer p)) (completed_count (replayer p)));
        [| discriminate].
      injection Hstep as <-. assumption. }
    eapply (quiet_keeps_equal (Z.of_nat (pushes_left p0)) ls' p' p''); eauto.
    + eapply step_tally; eauto.
    + eapply step_invariant; eauto.
Qed.

(** A run of the small archive, up to the push of its pipeline. *)
Lemma counters_monotone_witness :
  completed_count (replayer (after schedule_pushed small_start))
  <= queued_count (replayer (after schedule_pushed small_start)).
Proof.
  refine (proj1 (counters_monotone_below_wrap 0 argv_one_thread small_archive small_start
                   schedule_pushed (after schedule_pushed small_start) _ _ _));
    vm_compute; reflexivity.
Defined.

(** C4, as stated, fails at the 2^32-th push.  After 2^32 - 1 pushes and
    one completion, the next push takes [queued_count] from 2^32 - 1 to zero,
    below [completed_count]. *)
Lemma queued_count_wraps :
  exists p0 ls p p',
    main 8 argv_two_threads overflow_archive = inr p0
    /\ run ls p0 = Some p
    /\ step (LMain env0) p = Some p'
    /\ queued_count (replayer p') < queued_count (replayer p)
    /\ queued_count (replayer p') < completed_count (replayer p').
Proof.
  pose proof (observe_started options_two_threads overflow_archive) as Hobs.
  unfold overflow_archive in Hobs at 2. rewrite main_script_archive in Hobs.
  unfold overflow_shaders in Hobs at 1. rewrite map_app, <- app_assoc in Hobs.
  change (Options.loop_count options_two_threads) with 1 in Hobs.
  change (repeat Waiting (Z.to_nat (Options.num_threads options_two_threads)))
    with [Waiting; Waiting] in Hobs.
  destruct (observe_pushes RESOURCE_SHADER_MODULE _ _ _ _ _ _ _ _ _ eq_refl Hobs)
    as (q1 & items & Hr1 & Hall & Hlen & Ho1).
  rewrite length_map, length_seq, Z2Nat.id in Ho1 by lia.
  cbn [app] in Ho1.
  destruct items as [| item items].
  { exfalso. rewrite length_map, length_seq in Hlen. cbn [length] in Hlen. lia. }
  inversion Hall as [| ? ? Htag Hall']; subst.
  destruct ((fun H => observe_pop _ _ _ _ _ _ _ _ _ 0%nat H Ho1) eq_refl) as (q2 & Hs2 & Ho2).
  assert (Hdef : is_deferred (tag item) = true) by (rewrite Htag; reflexivity).
  destruct ((fun H => observe_exec _ _ _ _ _ _ _ _ _ 0%nat Hdef H Ho2) eq_refl)
    as (q3 & Hs3 & Ho3).
  destruct ((fun H => observe_done _ _ _ _ _ _ _ _ _ 0%nat H Ho3) eq_refl) as (q4 & Hs4 & Ho4).
  cbn [map] in Ho4.
  destruct (observe_push _ _ RESOURCE_SHADER_MODULE _ _ _ _ _ _ _ eq_refl Ho4)
    as (q5 & item' & Hs5 & _ & Ho5).
  exists (started options_two_threads ∅ ∅ overflow_archive).
  destruct Hr1 as [ls1 Hrun1].
  exists (ls1 ++ [LPop 0; LExec 0 always_created; LDone 0]), q4, q5.
  split; [apply main_two_threads |].
  split.
  { rewrite run_app, Hrun1. simpl. by rewrite Hs2, Hs3, Hs4. }
  split; [exact Hs5 |].
  destruct Ho4 as (_ & _ & _ & _ & _ & _ & _ & _ & _ & Hn4 & Hm4 & _).
  destruct Ho5 as (_ & _ & _ & _ & _ & _ & _ & _ & _ & Hn5 & Hm5 & _).
  rewrite Hn4, Hn5, Hm5. unfold wrap32.
  replace (0 + (2 ^ 32 - 1) + 1) with (2 ^ 32) by lia.
  replace (0 + (2 ^ 32 - 1)) with (2 ^ 32 - 1) by lia.
  rewrite Z.mod_same, (Z.mod_small (2 ^ 32 - 1)), (Z.mod_small (0 + 1)) by lia. lia.
Qed.




(** C6.  [validate_pipeline_cache_header] accepts a blob exactly when it has
    at least [16 + VK_UUID_SIZE] bytes, its little-endian length field is
    [16 + VK_UUID_SIZE], its version field is 1, its vendor and device fields
    are those of the device, and the 16 bytes that follow are the device's
    [pipelineCacheUUID].  When the file read from disk is not accepted,
    [set_application_info] passes no initial data to
    [vkCreatePipelineCache], logs that a blank cache is created, does not
    end the process, and [main] goes on with the next record. *)
Theorem pipeline_cache_header_validation device blob :
  length (pipelineCacheUUID device) = Z.to_nat VK_UUID_SIZE ->
  ((validate_pipeline_cache_header device blob).1 = true <->
     16 + VK_UUID_SIZE <= Z.of_nat (length blob)
     /\ le_u32 blob 0 = 16 + VK_UUID_SIZE
     /\ le_u32 blob 4 = 1
     /\ le_u32 blob 8 = vendorID device
     /\ le_u32 blob 12 = deviceID device
     /\ header_uuid blob = pipelineCacheUUID device)
  /\ (forall env p h info out rest,
        props (device_env env) = device ->
        cache_file (device_env env) = Some blob ->
        init_device (device_env env) = true ->
        (validate_pipeline_cache_header device blob).1 = false ->
        exited p = None ->
        script p = OpParse RESOURCE_APPLICATION_INFO h (BlobRecord info out) :: rest ->
        exists p' calls,
          step (LMain env) p = Some p'
          /\ exited p' = None
          /\ script p' = rest
          /\ vk_trace p' = vk_trace p ++ calls
          /\ cache_created_blank calls
          /\ (device_was_init (replayer p) = false ->
              Options.pipeline_cache (opts (replayer p)) = true ->
              Options.on_disk_pipeline_cache_path (opts (replayer p)) <> EmptyString ->
              blob <> [] -> fread_complete (device_env env) = true ->
              LogBlankCache ∈ log p'
              /\ exists result more, calls = VkCreatePipelineCache [] result :: more)).
Proof.
  intros Hlen. split; [by apply validate_true_iff |].
  intros env p h info out rest Hprops Hfile Hinit Hbad Hex Hs.
  rewrite <- Hprops in Hbad.
  destruct (set_application_info_rejected (device_env env) p blob Hinit Hfile Hbad)
    as (Eex & Esc & calls & Etr & Hblank & Hlog).
  exists (set_script rest (set_application_info (device_env env) p)), calls.
  split.
  { unfold step. rewrite Hex. unfold main_step. rewrite Hs. reflexivity. }
  cbn [exited script vk_trace set_script log].
  split; [by rewrite Eex |]. split; [reflexivity |]. split; [exact Etr |].
  split; [exact Hblank |]. exact Hlog.
Qed.

(** A header written by the device itself, followed by two bytes of data. *)
Lemma pipeline_cache_header_validation_witness :
  (validate_pipeline_cache_header device0 blob0).1 = true <->
  16 + VK_UUID_SIZE <= Z.of_nat (length blob0)
  /\ le_u32 blob0 0 = 16 + VK_UUID_SIZE
  /\ le_u32 blob0 4 = 1
  /\ le_u32 blob0 8 = vendorID device0
  /\ le_u32 blob0 12 = deviceID device0
  /\ header_uuid blob0 = pipelineCacheUUID device0.
Proof. exact (proj1 (pipeline_cache_header_validation device0 blob0 eq_refl)). Defined.

(** C7.  When the create of iteration [i] fails in a worker, the iteration
    logs the hash of the item, leaves the registry slot null and calls the
    create once; the worker makes [loop_count] creates for the item whatever
    their results; and the item is then counted as completed, the worker
    waits again, and it takes the next item of the queue. *)
Theorem create_failure_is_isolated w item results p i :
  thread_pool (replayer p) !! w = Some (Popped item) ->
  exited p = None ->
  is_deferred (tag item) = true ->
  (i < Z.to_nat (loop_count (replayer p)))%nat ->
  results i = CreateFailed ->
  (log (replay_once item (results i)
          (fold_left (fun q j => replay_once item (results j) q) (seq 0 i) p))
   = log (fold_left (fun q j => replay_once item (results j) q) (seq 0 i) p)
     ++ [LogWorkerCreateFailed (tag item) (hash item)]
   /\ entry_read (hash_map_entry item)
        (replay_once item (results i)
           (fold_left (fun q j => replay_once item (results j) q) (seq 0 i) p))
      = VK_NULL_HANDLE
   /\ creates (tag item)
        (vk_trace (replay_once item (results i)
                     (fold_left (fun q j => replay_once item (results j) q) (seq 0 i) p)))
      = S (creates (tag item)
             (vk_trace (fold_left (fun q j => replay_once item (results j) q) (seq 0 i) p))))
  /\ LogWorkerCreateFailed (tag item) (hash item) ∈ log (run_work_item item results p)
  /\ creates (tag item) (vk_trace (run_work_item item results p))
     = (creates (tag item) (vk_trace p) + Z.to_nat (loop_count (replayer p)))%nat
  /\ exists p1 p2,
       step (LExec w results) p = Some p1
       /\ step (LDone w) p1 = Some p2
       /\ exited p2 = None
       /\ completed_count (replayer p2) = wrap32 (completed_count (replayer p) + 1)
       /\ thread_pool (replayer p2) !! w = Some Waiting
       /\ pipeline_work_queue (replayer p2) = pipeline_work_queue (replayer p)
       /\ (forall next rest,
             pipeline_work_queue (replayer p) = next :: rest ->
             shutting_down (replayer p) = false ->
             exists p3, step (LPop w) p2 = Some p3
                        /\ thread_pool (replayer p3) !! w = Some (Popped next)).
Proof.
  intros Hw Hex Hdef Hi Hfail.
  set (before := fold_left (fun q j => replay_once item (results j) q) (seq 0 i) p).
  assert (Hlt : (w < length (thread_pool (replayer p)))%nat) by (eapply lookup_lt_Some; eauto).
  split; [| split; [| split]].
  - rewrite Hfail. split; [apply replay_once_log |]. split; [apply replay_once_slot |].
    rewrite replay_once_trace. unfold creates at 1. rewrite count_calls_app.
    fold (creates (tag item) (vk_trace before)).
    fold (creates (tag item) (iteration_calls item CreateFailed before)).
    rewrite creates_iteration. lia.
  - rewrite run_work_item_deferred by exact Hdef.
    replace (Z.to_nat (loop_count (replayer p)))
      with (i + S (Z.to_nat (loop_count (replayer p)) - S i))%nat by lia.
    rewrite seq_app, fold_left_app. cbn [seq fold_left Nat.add]. fold before.
    apply fold_log_grows. rewrite replay_once_log, Hfail. apply elem_of_app. right.
    apply list_elem_of_here.
  - by apply run_work_item_creates.
  - destruct (run_work_item_schedule item results p)
      as (Fs & Fe & Fr & Fq & Fp & Fn & Fc & Fd & Fg & Ff & Fl).
    set (p1 := set_worker w (Executed item) (run_work_item item results p)).
    set (p2 := set_worker w Waiting
                 (upd_replayer (fun r => set_completed_count (wrap32 (completed_count r + 1)) r) p1)).
    assert (Hw1 : thread_pool (replayer p1) !! w = Some (Executed item)).
    { unfold p1. cbn. rewrite Fp. by apply list_lookup_insert_eq. }
    assert (Hlt1 : (w < length (thread_pool (replayer p1)))%nat) by (eapply lookup_lt_Some; eauto).
    exists p1, p2.
    split; [unfold step; rewrite Hex; unfold worker_exec; rewrite Hw; reflexivity |].
    split.
    { unfold step. change (exited p1) with (exited (run_work_item item results p)).
      rewrite Fe, Hex. unfold worker_done. rewrite Hw1. reflexivity. }
    split; [unfold p2, p1; cbn; by rewrite Fe |].
    split; [unfold p2, p1; cbn; by rewrite Fc |].
    assert (Hw2 : thread_pool (replayer p2) !! w = Some Waiting).
    { unfold p2. cbn. by apply list_lookup_insert_eq. }
    split; [exact Hw2 |].
    split; [unfold p2, p1; cbn; by rewrite Fq |].
    intros next rest Hqueue Hdown.
    exists (set_worker w (Popped next) (upd_replayer (set_pipeline_work_queue rest) p2)).
    split.
    + unfold step. assert (exited p2 = None) as -> by (unfold p2, p1; cbn; by rewrite Fe).
      unfold worker_pop. rewrite Hw2.
      assert (shutting_down (replayer p2) = false) as -> by (unfold p2, p1; cbn; by rewrite Fd).
      assert (pipeline_work_queue (replayer p2) = next :: rest) as ->
        by (unfold p2, p1; cbn; by rewrite Fq).
      reflexivity.
    + cbn. apply list_lookup_insert_eq. eapply lookup_lt_Some; eauto.
Qed.

(** The shader module of the small archive, with a driver that refuses it. *)
Lemma create_failure_is_isolated_witness :
  LogWorkerCreateFailed RESOURCE_SHADER_MODULE 1
  ∈ log (run_work_item (shader_item 1) never_created (after schedule_taken small_start)).
Proof.
  refine (proj1 (proj2 (create_failure_is_isolated 0%nat (shader_item 1) never_created
                          (after schedule_taken small_start) 0%nat _ _ _ _ _)));
    vm_compute; try reflexivity; lia.
Defined.

(** C8 (amended).  When [main] gets as far as constructing the replayer (the
    arguments parse, help is not asked for and a database is named), the pool
    has as many threads as the last [--num-threads] asks for, or as the
    hardware has when the option is absent, and one thread when that number
    is zero; every thread starts in the worker loop; so at least one thread
    is started. *)
Theorem worker_pool_size hw argv db p0 :
  main hw argv db = inr p0 ->
  num_worker_threads (replayer p0) = Z.max 1 (configured_threads hw (callbacks argv))
  /\ Z.of_nat (length (thread_pool (replayer p0)))
     = Z.max 1 (configured_threads hw (callbacks argv))
  /\ Forall (fun st => st = Waiting) (thread_pool (replayer p0))
  /\ (1 <= threads_started (main hw argv db))%nat.
Proof.
  intros Hmain. rewrite Hmain. cbn [threads_started].
  apply main_started in Hmain as (o & g & c & -> & ->).
  cbn [replayer num_worker_threads thread_pool ThreadedReplayer_new].
  rewrite adjust_options_threads, call_back_threads.
  cbn [main_vars_init replayer_opts Options.default Options.num_threads].
  rewrite repeat_length.
  split; [reflexivity |]. split; [lia |]. split; [| lia].
  apply Forall_forall. intros st Hin. apply list_elem_of_In in Hin.
  by apply repeat_spec in Hin.
Qed.

(** [--num-threads 0] on a machine that reports no hardware threads. *)
Lemma worker_pool_size_witness :
  (1 <= threads_started (main 0 argv_one_thread small_archive))%nat.
Proof.
  refine (proj2 (proj2 (proj2 (worker_pool_size 0 argv_one_thread small_archive small_start _))));
    vm_compute; reflexivity.
Defined.

(** C8, as stated, fails for an invocation without arguments: [main]
    returns [EXIT_FAILURE] before a replayer exists, and no thread is
    started. *)
Lemma no_database_no_threads :
  main 8 argv_empty (archive [] []) = inl EXIT_FAILURE
  /\ threads_started (main 8 argv_empty (archive [] [])) = 0%nat.
Proof. split; reflexivity. Qed.

(** C9.  For each of the four inline enqueue operations: when the create
    fails, the operation logs the index, answers [false] and leaves the
    replayer, registries included, as it was; when it succeeds, it answers
    [true], the registry of the category maps the index to the created
    handle, which is also in the output slot, and no other entry changes; in
    both cases [main] goes on with the next statement. *)
Theorem inline_enqueue_outcome c enqueue index info out p :
  (c, enqueue) ∈ [ (RESOURCE_SAMPLER, enqueue_create_sampler);
                   (RESOURCE_DESCRIPTOR_SET_LAYOUT, enqueue_create_descriptor_set_layout);
                   (RESOURCE_PIPELINE_LAYOUT, enqueue_create_pipeline_layout);
                   (RESOURCE_RENDER_PASS, enqueue_create_render_pass) ] ->
  ((enqueue index info out VkError p).2 = false
   /\ log (enqueue index info out VkError p).1 = log p ++ [LogTrivialCreateFailed c index]
   /\ replayer (enqueue index info out VkError p).1 = replayer p)
  /\ (forall handle,
        (enqueue index info out (VkSuccess handle) p).2 = true
        /\ registry (replayer (enqueue index info out (VkSuccess handle) p).1) c !! index
           = Some handle
        /\ (forall c' k, (c', k) <> (c, index) ->
              registry (replayer (enqueue index info out (VkSuccess handle) p).1) c' !! k
              = registry (replayer p) c' !! k)
        /\ outputs (enqueue index info out (VkSuccess handle) p).1 !! out = Some handle
        /\ log (enqueue index info out (VkSuccess handle) p).1 = log p)
  /\ (forall env rest,
        exited p = None ->
        script p = OpParse c index (BlobRecord info out) :: rest ->
        exists p', step (LMain env) p = Some p' /\ script p' = rest /\ exited p' = None).
Proof.
  intros Hin.
  assert (enqueue = enqueue_create_inline c /\ c <> RESOURCE_APPLICATION_INFO) as [-> Hc].
  { repeat (apply elem_of_cons in Hin as [[= -> ->] | Hin]; [split; [reflexivity | discriminate] |]).
    by apply elem_of_nil in Hin. }
  split; [apply enqueue_inline_failure |].
  split; [intros handle; apply enqueue_inline_success |].
  intros env rest Hex Hs. eapply parse_continues; eauto.
Qed.

(** A sampler whose creation fails. *)
Lemma inline_enqueue_outcome_witness :
  (enqueue_create_sampler 5 6 7 VkError small_start).2 = false
  /\ log (enqueue_create_sampler 5 6 7 VkError small_start).1
     = log small_start ++ [LogTrivialCreateFailed RESOURCE_SAMPLER 5]
  /\ replayer (enqueue_create_sampler 5 6 7 VkError small_start).1 = replayer small_start.
Proof.
  exact (proj1 (inline_enqueue_outcome RESOURCE_SAMPLER enqueue_create_sampler 5 6 7 small_start
                  (list_elem_of_here _ _))).
Defined.

(** C10.  [enqueue_create_shader_module], [enqueue_create_graphics_pipeline]
    and [enqueue_create_compute_pipeline] answer [true] on every input, the
    results of the later creates not being among their inputs; when the hash
    is filtered out only the output slot changes, to the null handle; and the
    four inline operations answer [false] exactly when their create fails. *)
Theorem deferred_enqueue_returns_true h info out p :
  (enqueue_create_shader_module h info out p).2 = true
  /\ (enqueue_create_graphics_pipeline h info out p).2 = true
  /\ (enqueue_create_compute_pipeline h info out p).2 = true
  /\ (graphics_selected (replayer p) h = false ->
      replayer (enqueue_create_graphics_pipeline h info out p).1 = replayer p
      /\ outputs (enqueue_create_graphics_pipeline h info out p).1
         = <[out := VK_NULL_HANDLE]> (outputs p)
      /\ vk_trace (enqueue_create_graphics_pipeline h info out p).1 = vk_trace p
      /\ log (enqueue_create_graphics_pipeline h info out p).1 = log p)
  /\ (compute_selected (replayer p) h = false ->
      replayer (enqueue_create_compute_pipeline h info out p).1 = replayer p
      /\ outputs (enqueue_create_compute_pipeline h info out p).1
         = <[out := VK_NULL_HANDLE]> (outputs p)
      /\ vk_trace (enqueue_create_compute_pipeline h info out p).1 = vk_trace p
      /\ log (enqueue_create_compute_pipeline h info out p).1 = log p)
  /\ (forall result,
        ((enqueue_create_sampler h info out result p).2 = false <-> result = VkError)
        /\ ((enqueue_create_descriptor_set_layout h info out result p).2 = false <-> result = VkError)
        /\ ((enqueue_create_pipeline_layout h info out result p).2 = false <-> result = VkError)
        /\ ((enqueue_create_render_pass h info out result p).2 = false <-> result = VkError)).
Proof.
  split; [reflexivity |].
  split; [unfold enqueue_create_graphics_pipeline; by destruct (graphics_selected _ _) |].
  split; [unfold enqueue_create_compute_pipeline; by destruct (compute_selected _ _) |].
  split; [intros Hsel; unfold enqueue_create_graphics_pipeline; rewrite Hsel; done |].
  split; [intros Hsel; unfold enqueue_create_compute_pipeline; rewrite Hsel; done |].
  intros result.
  unfold enqueue_create_sampler, enqueue_create_descriptor_set_layout,
    enqueue_create_pipeline_layout, enqueue_create_render_pass, enqueue_create_inline.
  destruct result; cbn; repeat split; congruence.
Qed.

(** * Further properties *)

(** X1.  [validate_pipeline_cache_header] looks at the first
    [16 + VK_UUID_SIZE] bytes only: two blobs that are long enough and agree
    on these bytes get the same verdict and the same log line, whatever
    follows the header. *)
Theorem validator_reads_header_only props blob blob' :
  16 + VK_UUID_SIZE <= Z.of_nat (length blob) ->
  16 + VK_UUID_SIZE <= Z.of_nat (length blob') ->
  take (Z.to_nat (16 + VK_UUID_SIZE)) blob = take (Z.to_nat (16 + VK_UUID_SIZE)) blob' ->
  validate_pipeline_cache_header props blob = validate_pipeline_cache_header props blob'.
Proof.
  intros Hlen Hlen' Heq.
  rewrite (validate_take props blob Hlen), (validate_take props blob' Hlen'). by rewrite Heq.
Qed.

(** The cache file of [device0] and a file with the same header. *)
Lemma validator_reads_header_only_witness :
  validate_pipeline_cache_header device0 blob0 = validate_pipeline_cache_header device0 blob1.
Proof.
  refine (validator_reads_header_only device0 blob0 blob1 _ _ _); vm_compute; try reflexivity;
    discriminate.
Defined.

(** X2.  Only the first call of [set_application_info] sets the device up:
    it leaves [device_was_init] raised, also when the pipeline cache could
    not be created, and a later call, whatever the driver would answer to
    it, changes nothing. *)
Theorem device_is_set_up_once env env' p :
  device_was_init (replayer (set_application_info env p)) = true
  /\ set_application_info env' (set_application_info env p) = set_application_info env p.
Proof.
  split; [apply set_application_info_init |].
  apply set_application_info_again, set_application_info_init.
Qed.



(** X4.  The replayer [main] constructs is configured by the command line
    as follows: the filters hold the hashes given to [--filter-graphics] and
    to [--filter-compute], all of them; [loop_count] is the value of the last
    [--loop], or 1, and is not floored; the cache path is that of the last
    [--on-disk-pipeline-cache]; and the pipeline cache is enabled when
    [--pipeline-cache] occurs or a cache path is given. *)
Theorem command_line_options hw argv db p0 :
  main hw argv db = inr p0 ->
  filter_graphics (replayer p0) = graphics_asked (callbacks argv)
  /\ filter_compute (replayer p0) = compute_asked (callbacks argv)
  /\ loop_count (replayer p0) = loop_asked (callbacks argv) 1
  /\ Options.on_disk_pipeline_cache_path (opts (replayer p0))
     = path_asked (callbacks argv) EmptyString
  /\ Options.pipeline_cache (opts (replayer p0))
     = cache_asked (callbacks argv)
       || negb (String.eqb (path_asked (callbacks argv) EmptyString) EmptyString).
Proof.
  intros Hmain. unfold main in Hmain.
  destruct (negb (parse_succeeds argv)); [discriminate |].
  destruct (ended _); [discriminate |].
  destruct (String.eqb _ _); [discriminate |].
  injection Hmain as <-.
  cbn [replayer filter_graphics filter_compute loop_count opts ThreadedReplayer_new].
  destruct (adjust_options_rest
              (replayer_opts (fold_left call_back (callbacks argv) (main_vars_init hw))))
    as (-> & -> & ->).
  destruct (call_back_fold (callbacks argv) (main_vars_init hw)) as (-> & -> & -> & -> & ->).
  cbn [main_vars_init replayer_opts Options.default Options.loop_count
       Options.on_disk_pipeline_cache_path Options.pipeline_cache main_filter_graphics
       main_filter_compute].
  rewrite orb_false_r, !(right_id_L ∅ (∪)). done.
Qed.

(** [--num-threads 0] and a database. *)
Lemma command_line_options_witness :
  filter_graphics (replayer small_start) = graphics_asked (callbacks argv_one_thread)
  /\ filter_compute (replayer small_start) = compute_asked (callbacks argv_one_thread)
  /\ loop_count (replayer small_start) = loop_asked (callbacks argv_one_thread) 1
  /\ Options.on_disk_pipeline_cache_path (opts (replayer small_start))
     = path_asked (callbacks argv_one_thread) EmptyString
  /\ Options.pipeline_cache (opts (replayer small_start))
     = cache_asked (callbacks argv_one_thread)
       || negb (String.eqb (path_asked (callbacks argv_one_thread) EmptyString) EmptyString).
Proof.
  refine (command_line_options 0 argv_one_thread small_archive small_start _);
    vm_compute; reflexivity.
Defined.

(** X5.  The work queue is first in, first out, and [main] pushes in the
    order of the archive: at any point of a run, the work items the workers
    have taken so far, in the order they took them, followed by those still
    queued, are the items of the statements [main] has executed so far that
    push one, in the order of [main]'s script. *)
Theorem work_items_in_archive_order hw argv db p0 ls p :
  main hw argv db = inr p0 -> run ls p0 = Some p ->
  exists pre,
    main_script db = pre ++ script p
    /\ map item_key (taken ls p0 ++ pipeline_work_queue (replayer p))
       = omap (push_of (filter_graphics (replayer p0)) (filter_compute (replayer p0))) pre.
Proof.
  intros Hmain Hrun.
  destruct (main_history hw argv db p0 ls p Hmain Hrun) as (_ & _ & pre & Hpre & Hkeys & _).
  by exists pre.
Qed.

(** The complete run of the small archive. *)
Lemma work_items_in_archive_order_witness :
  exists pre,
    main_script small_archive = pre ++ script (after schedule_exited small_start)
    /\ map item_key (taken schedule_exited small_start
                     ++ pipeline_work_queue (replayer (after schedule_exited small_start)))
       = omap (push_of (filter_graphics (replayer small_start))
                 (filter_compute (replayer small_start))) pre.
Proof.
  refine (work_items_in_archive_order 0 argv_one_thread small_archive small_start
            schedule_exited (after schedule_exited small_start) _ _);
    vm_compute; reflexivity.
Defined.

(** X6.  A shader module or a pipeline is in its registry from the moment
    it is enqueued, whether or not a worker has created it and whether or
    not the creation succeeds: at any point of a run the keys of the registry
    of a deferred category are the hashes of the work items of that category
    pushed so far, and [total_size], the count [main] prints, includes
    them. *)
Theorem deferred_registry_keys hw argv db p0 ls p c :
  main hw argv db = inr p0 -> run ls p0 = Some p -> is_deferred c = true ->
  dom (registry (replayer p) c)
  = pushed_hashes c (map item_key (taken ls p0 ++ pipeline_work_queue (replayer p)))
  /\ (size (pushed_hashes c (map item_key (taken ls p0 ++ pipeline_work_queue (replayer p))))
      <= total_size (replayer p))%nat.
Proof.
  intros Hmain Hrun Hc.
  destruct (main_history hw argv db p0 ls p Hmain Hrun) as (_ & _ & pre & _ & Hkeys & _ & Hdom).
  rewrite Hkeys, <- (Hdom c Hc), size_dom. split; [reflexivity |].
  unfold total_size, samplers, layouts, pipeline_layouts, shader_modules, render_passes,
    compute_pipelines, graphics_pipelines.
  destruct c; try discriminate; lia.
Qed.

(** The shader module of the small archive, pushed and never created. *)
Lemma deferred_registry_keys_witness :
  dom (registry (replayer (after [LMain env0] small_start)) RESOURCE_SHADER_MODULE)
  = pushed_hashes RESOURCE_SHADER_MODULE
      (map item_key (taken [LMain env0] small_start
                     ++ pipeline_work_queue (replayer (after [LMain env0] small_start)))).
Proof.
  refine (proj1 (deferred_registry_keys 0 argv_one_thread small_archive small_start
                   [LMain env0] (after [LMain env0] small_start) RESOURCE_SHADER_MODULE _ _ _));
    vm_compute; reflexivity.
Defined.

(** X7.  No shader module and no pipeline is lost, provided the archive
    names no hash twice in a category, so that no two work items share a
    registry slot.  When every create that succeeds delivers a handle, then
    at any point of a run between two moves, for each deferred category, the
    creates that succeeded are as many as the destroys made so far plus the
    handles the registry holds; and [~ThreadedReplayer] destroys exactly
    those, so that afterwards every object created has been destroyed.  (Two
    work items of one hash would use one slot, and two workers replaying
    them at once could each store a handle in it, of which one would be
    lost.) *)
Theorem no_deferred_handle_is_lost hw argv db p0 ls p env c :
  main hw argv db = inr p0 -> distinct_hashes db -> Forall delivers_handles ls ->
  run ls p0 = Some p -> is_deferred c = true ->
  successes c (vk_trace p)
  = (destroys c (vk_trace p) + live_handles (registry (replayer p) c))%nat
  /\ (destroys c (vk_trace p) + teardown_destroys c (ThreadedReplayer_delete env (replayer p)))%nat
     = successes c (vk_trace p).
Proof.
  intros Hmain _ Hls Hrun Hc.
  pose proof (main_balanced hw argv db p0 ls p Hmain Hls Hrun c Hc) as Hb.
  split; [exact Hb |].
  rewrite delete_destroys by (intros ->; discriminate). by rewrite Hb.
Qed.

(** The complete run of the small archive, and a destructor that saves the
    cache. *)
Lemma no_deferred_handle_is_lost_witness :
  (destroys RESOURCE_SHADER_MODULE (vk_trace (after schedule_exited small_start))
   + teardown_destroys RESOURCE_SHADER_MODULE
       (ThreadedReplayer_delete env_saved (replayer (after schedule_exited small_start))))%nat
  = successes RESOURCE_SHADER_MODULE (vk_trace (after schedule_exited small_start)).
Proof.
  refine (proj2 (no_deferred_handle_is_lost 0 argv_one_thread small_archive small_start
                   schedule_exited (after schedule_exited small_start) env_saved
                   RESOURCE_SHADER_MODULE _ _ _ _ _)).
  - vm_compute; reflexivity.
  - intros c hashes Hlist. unfold small_archive, archive in Hlist. cbn in Hlist.
    destruct (decide (c = RESOURCE_SHADER_MODULE));
      [| destruct (decide (c = RESOURCE_GRAPHICS_PIPELINE))];
      injection Hlist as <-; [apply NoDup_singleton | apply NoDup_singleton | apply NoDup_nil_2].
  - repeat (apply Forall_cons; split;
              [cbn; try done; try (intros h [= <-]; discriminate);
               intros i h ns [= <- _]; discriminate |]).
    apply Forall_nil. done.
  - vm_compute; reflexivity.
  - reflexivity.
Defined.

(** X8.  After the threads are joined, [~ThreadedReplayer] destroys every
    handle that one of the seven registries holds, once for each entry that
    holds it, and never a null handle; it destroys the pipeline cache exactly
    when there is one; and it writes the cache file only when the cache
    exists, a path was given, both queries of the driver succeeded and the
    file could be opened, the buffer written having the size the first query
    reported.  What happens while the file is saved does not change what is
    destroyed. *)
Theorem destructor_destroys_what_is_held env r :
  (forall c h,
     DestroyObject c h ∈ ThreadedReplayer_delete env r <->
     c <> RESOURCE_APPLICATION_INFO /\ c <> RESOURCE_COUNT
     /\ h <> VK_NULL_HANDLE /\ exists k, registry r c !! k = Some h)
  /\ (forall c, c <> RESOURCE_APPLICATION_INFO -> c <> RESOURCE_COUNT ->
        teardown_destroys c (ThreadedReplayer_delete env r) = live_handles (registry r c))
  /\ (forall h, DestroyPipelineCache h ∈ ThreadedReplayer_delete env r <->
                h = pipeline_cache r /\ h <> VK_NULL_HANDLE)
  /\ (forall buffer n,
        WriteCacheFile buffer n ∈ ThreadedReplayer_delete env r ->
        pipeline_cache r <> VK_NULL_HANDLE
        /\ Options.on_disk_pipeline_cache_path (opts r) <> EmptyString
        /\ cache_size_result env = Some (length buffer)
        /\ is_Some (cache_data_result env) /\ fopen_wb env = true).
Proof.
  destruct (delete_calls env r) as (Hobj & Hcache & Hwrite).
  split; [exact Hobj |]. split; [| split; [exact Hcache | exact Hwrite]].
  intros c Hc1 Hc2. by apply delete_destroys.
Qed.

(** X9.  The replayer cannot get stuck.  From every state that a run
    pushing fewer than 2^32 work items reaches, and with any driver, the
    threads have a schedule that brings the process to its end: the workers
    complete what they hold and drain the queue, so that every barrier of
    [main] passes, and they leave their loops when the destructor asks, so
    that the join returns.  The floor of one thread is what makes the queue
    drain. *)
Theorem every_run_can_finish hw argv db p0 ls p env results :
  main hw argv db = inr p0 -> Z.of_nat (pushes_left p0) < 2 ^ 32 -> run ls p0 = Some p ->
  exists ls' p' code,
    run ls' p = Some p' /\ Forall (answered_by env results) ls' /\ exited p' = Some code.
Proof.
  intros Hmain Htot Hrun.
  destruct (main_run_invariant hw argv db p0 ls p Hmain Htot Hrun) as [Hinv Ht].
  apply (finish env results (Z.of_nat (pushes_left p0)) (length (script p)) p); try done.
  eapply run_closes; [| exact Hrun]. by eapply main_closes.
Qed.

(** The small archive, when the worker has just taken the shader module,
    with a driver that creates nothing. *)
Lemma every_run_can_finish_witness :
  exists ls' p' code,
    run ls' (after schedule_taken small_start) = Some p'
    /\ Forall (answered_by env0 never_created) ls' /\ exited p' = Some code.
Proof.
  refine (every_run_can_finish 0 argv_one_thread small_archive small_start schedule_taken
            (after schedule_taken small_start) env0 never_created _ _ _);
    vm_compute; reflexivity.
Defined.

(** X10.  What the exit code of [main] says.  An invocation that stops
    before the replayer is constructed returns [EXIT_SUCCESS] when the
    arguments parse and [--help] is among them, and [EXIT_FAILURE] otherwise
    (the arguments do not parse, or no database is named).  Once the replayer
    is constructed, the process ends with [EXIT_SUCCESS] or [EXIT_FAILURE],
    and with [EXIT_SUCCESS] exactly when the database could be prepared,
    every list of hashes and every entry could be read, and no move of the
    run was a set-up of the device on which [init_device] failed; the report
    has then been printed and every worker has left its loop.  With
    [EXIT_FAILURE], the log says why.  A create that fails, in a worker or on
    the main thread, a blob that does not parse and a pipeline cache that
    cannot be loaded or created do not change the exit code. *)
Theorem exit_code_meaning hw argv db :
  (forall code,
     main hw argv db = inl code ->
     (code = EXIT_SUCCESS \/ code = EXIT_FAILURE)
     /\ (code = EXIT_SUCCESS <->
         parse_succeeds argv = true /\ help_asked (callbacks argv) = true))
  /\ (forall p0 ls p code,
        main hw argv db = inr p0 -> run ls p0 = Some p -> exited p = Some code ->
        (code = EXIT_SUCCESS \/ code = EXIT_FAILURE)
        /\ (code = EXIT_SUCCESS <->
            prepare db = true /\ (play_tags db playback_order).2 = true
            /\ device_refused ls p0 = false)
        /\ (code = EXIT_SUCCESS ->
            is_Some (reported p) /\ all_exited (thread_pool (replayer p)) = true
            /\ script p = [])
        /\ (code = EXIT_FAILURE -> failure_logged p)).
Proof.
  split.
  - intros code. unfold main. rewrite help_asked_fold. cbn [main_vars_init ended].
    rewrite orb_false_r.
    destruct (parse_succeeds argv); cbn [negb].
    2: { intros [= <-]. split; [by right |]. split; [discriminate | by intros [[=] _]]. }
    destruct (help_asked (callbacks argv)).
    { intros [= <-]. split; [by left | done]. }
    destruct (String.eqb _ _); [| discriminate].
    intros [= <-]. split; [by right |]. split; [discriminate | by intros [_ [=]]].
  - intros p0 ls p code Hmain Hrun Hex.
    pose proof (main_device_line hw argv db p0 ls p Hmain Hrun) as Hline.
    assert (Hrefused : LogDeviceFailed ∉ log p <-> device_refused ls p0 = false).
    { rewrite Hline. by destruct (device_refused ls p0). }
    destruct (main_outcome hw argv db p0 ls p Hmain Hrun)
      as [(pre & Hpre & Hlog & Hrep & Hend) _].
    rewrite Hex in Hend. destruct Hend as [[-> Hdev] | (Hdev & Hjoin & Hs & Hall)].
    + split; [by right |]. split; [| split].
      * split; [discriminate |]. intros (_ & _ & H). by apply Hrefused in H.
      * discriminate.
      * intros _. by left.
    + rewrite Hs, app_nil_r in Hpre. subst pre.
      pose proof (main_script_end db code Hjoin) as Hcase.
      destruct (prepare db && (play_tags db playback_order).2) eqn:Hok.
      * destruct Hcase as [-> Hreport]. apply andb_true_iff in Hok as [Hp Ht].
        split; [by left |]. split; [| split; [| discriminate]].
        -- split; [intros _ | done]. split; [done |]. split; [done |]. by apply Hrefused.
        -- intros _. split; [by apply Hrep | done].
      * destruct Hcase as (-> & e & He & Hreason).
        split; [by right |]. split; [| split].
        -- split; [discriminate |]. intros (Hp & Ht & _). by rewrite Hp, Ht in Hok.
        -- discriminate.
        -- intros _. apply Hlog in He. unfold failure_logged.
           destruct Hreason as [-> | [-> | ->]]; auto.
Qed.

(** The complete run of the small archive ends with [EXIT_SUCCESS]; the
    run of an archive with an application info on a driver without a device
    ends with [EXIT_FAILURE] at its first move; [--help] ends with
    [EXIT_SUCCESS] before anything is replayed. *)
Lemma exit_code_meaning_witness :
  (is_Some (reported (after schedule_exited small_start))
   /\ all_exited (thread_pool (replayer (after schedule_exited small_start))) = true
   /\ script (after schedule_exited small_start) = [])
  /\ failure_logged (after [LMain env_no_device] app_start)
  /\ (parse_succeeds argv_help = true /\ help_asked (callbacks argv_help) = true).
Proof.
  split; [| split].
  - refine (proj1 (proj2 (proj2 (proj2 (exit_code_meaning 0 argv_one_thread small_archive)
                                   small_start schedule_exited
                                   (after schedule_exited small_start) EXIT_SUCCESS _ _ _)))
              eq_refl);
      [vm_compute; reflexivity | apply run_after; vm_compute; reflexivity
      | vm_compute; reflexivity].
  - refine (proj2 (proj2 (proj2 (proj2 (exit_code_meaning 0 argv_one_thread app_archive)
                                   app_start [LMain env_no_device]
                                   (after [LMain env_no_device] app_start) EXIT_FAILURE _ _ _)))
              eq_refl);
      [vm_compute; reflexivity | apply run_after; vm_compute; reflexivity
      | vm_compute; reflexivity].
  - refine (proj1 (proj2 (proj1 (exit_code_meaning 8 argv_help small_archive) EXIT_SUCCESS _))
              eq_refl).
    vm_compute; reflexivity.
Defined.

(** X11.  Once the destructor has raised [shutting_down], no worker takes
    another work item: whatever the threads do from then on, the queue stays
    as it is, so that what is still queued, as after a failed read, is never
    created; and nothing is pushed any more. *)
Theorem nothing_is_taken_after_shutdown hw argv db p0 ls p ls' p' :
  main hw argv db = inr p0 -> run ls p0 = Some p ->
  shutting_down (replayer p) = true -> run ls' p = Some p' ->
  shutting_down (replayer p') = true
  /\ pipeline_work_queue (replayer p') = pipeline_work_queue (replayer p)
  /\ queued_count (replayer p') = queued_count (replayer p)
  /\ taken ls' p = [].
Proof.
  intros Hmain Hrun Hd Hrun'.
  apply (run_shut ls' p p'); try done.
  eapply run_closes; [| exact Hrun]. by eapply main_closes.
Qed.

(** The archive whose second shader module cannot be read: the first one is
    still queued when the process ends. *)
Lemma nothing_is_taken_after_shutdown_witness :
  shutting_down (replayer (after [LPop 0; LMain env0] (after schedule_broken broken_start))) = true
  /\ pipeline_work_queue
       (replayer (after [LPop 0; LMain env0] (after schedule_broken broken_start)))
     = pipeline_work_queue (replayer (after schedule_broken broken_start))
  /\ queued_count (replayer (after [LPop 0; LMain env0] (after schedule_broken broken_start)))
     = queued_count (replayer (after schedule_broken broken_start))
  /\ taken [LPop 0; LMain env0] (after schedule_broken broken_start) = [].
Proof.
  refine (nothing_is_taken_after_shutdown 0 argv_one_thread broken_archive broken_start
            schedule_broken (after schedule_broken broken_start) [LPop 0; LMain env0]
            (after [LPop 0; LMain env0] (after schedule_broken broken_start)) _ _ _ _);
    vm_compute; reflexivity.
Defined.

(** X12.  When the report is printed, every work item that was pushed has
    been replayed [loop_count] times, whatever the results: in a run that
    pushes fewer than 2^32 work items, the timed creates of a deferred
    category are then [loop_count] times the statements of [main]'s script
    that push a work item of that category. *)
Theorem every_item_replayed_loop_count_times hw argv db p0 ls p c :
  main hw argv db = inr p0 -> Z.of_nat (pushes_left p0) < 2 ^ 32 -> run ls p0 = Some p ->
  is_Some (reported p) ->
  creates c (vk_trace p)
  = (Z.to_nat (loop_count (replayer p0))
     * pushes_of c (omap (push_of (filter_graphics (replayer p0)) (filter_compute (replayer p0)))
                      (main_script db)))%nat.
Proof.
  intros Hmain Htot Hrun Hrep.
  destruct (main_run_invariant hw argv db p0 ls p Hmain Htot Hrun) as [Hinv _].
  destruct Hinv as (_ & _ & _ & (ph & Hph & Hhold & Hclosing) & _).
  specialize (Hclosing Hrep). subst ph. destruct Hhold as [Hnil _]. specialize (Hnil Hrep).
  unfold pending_items in Hnil. apply app_eq_nil in Hnil as [Hqueue Hheld].
  destruct (main_history hw argv db p0 ls p Hmain Hrun) as (_ & _ & pre & Hpre & Hkeys & _).
  destruct (main_attempts hw argv db p0 ls c p Hmain Hrun) as [_ Hatt].
  rewrite (awaiting_idle c _ Hheld) in Hatt. rewrite Hqueue, app_nil_r in Hkeys.
  rewrite Hkeys in Hatt. rewrite Hpre, omap_app.
  assert (omap (push_of (filter_graphics (replayer p0)) (filter_compute (replayer p0))) (script p)
          = []) as ->.
  { apply no_parse_no_push. by apply (well_phased_no_parse Closing); [right |]. }
  rewrite app_nil_r. lia.
Qed.

(** The complete run of the small archive. *)
Lemma every_item_replayed_witness :
  creates RESOURCE_GRAPHICS_PIPELINE (vk_trace (after schedule_reported small_start))
  = (Z.to_nat (loop_count (replayer small_start))
     * pushes_of RESOURCE_GRAPHICS_PIPELINE
         (omap (push_of (filter_graphics (replayer small_start))
                  (filter_compute (replayer small_start)))
            (main_script small_archive)))%nat.
Proof.
  refine (every_item_replayed_loop_count_times 0 argv_one_thread small_archive small_start
            schedule_reported (after schedule_reported small_start) RESOURCE_GRAPHICS_PIPELINE
            _ _ _ _);
    vm_compute; try reflexivity; eauto.
Defined.



(** X14.  In the order in which the driver is called, every create of a
    shader module comes before every create of a pipeline: in a run that
    pushes fewer than 2^32 work items, no [vkCreateShaderModule] is made
    after a [vkCreateGraphicsPipelines] or a [vkCreateComputePipelines]. *)
Theorem shader_creates_precede_pipeline_creates hw argv db p0 ls p i j call call' :
  main hw argv db = inr p0 -> Z.of_nat (pushes_left p0) < 2 ^ 32 -> run ls p0 = Some p ->
  vk_trace p !! i = Some call -> vk_trace p !! j = Some call' ->
  is_pipeline_create call = true -> is_shader_create call' = true ->
  (j < i)%nat.
Proof.
  intros Hmain Htot Hrun Hi Hj Hp Hs.
  destruct (main_creates_ordered hw argv db p0 ls p Hmain Htot Hrun) as [Hsorted _].
  by apply (shaders_first_lookup (vk_trace p) i j call call').
Qed.

(** The two creates of the complete run of the small archive. *)
Lemma shader_creates_precede_witness : (0 < 1)%nat.
Proof.
  refine (shader_creates_precede_pipeline_creates 0 argv_one_thread small_archive small_start
            schedule_reported (after schedule_reported small_start) 1 0
            (VkCreateTimed RESOURCE_GRAPHICS_PIPELINE 2 (Created 1 1))
            (VkCreateTimed RESOURCE_SHADER_MODULE 1 (Created 1 1)) _ _ _ _ _ _ _);
    vm_compute; reflexivity.
Defined.

(** X15.  The objects created in place are destroyed too, provided the
    archive names no hash twice in a category.  When every create that
    succeeds delivers a handle, then at any point of a run the successful
    creates of a sampler, a descriptor set layout, a pipeline layout or a
    render pass are as many as the handles their registry holds, which are
    those [~ThreadedReplayer] destroys.  (An index enqueued a second time
    would replace the handle in the registry.) *)
Theorem inline_objects_are_destroyed hw argv db p0 ls p env c :
  main hw argv db = inr p0 -> distinct_hashes db -> Forall delivers_handles ls ->
  run ls p0 = Some p -> is_inline c = true ->
  inline_successes c (vk_trace p) = live_handles (registry (replayer p) c)
  /\ teardown_destroys c (ThreadedReplayer_delete env (replayer p))
     = inline_successes c (vk_trace p).
Proof.
  intros Hmain Hdb Hls Hrun Hc.
  destruct (main_inline_balanced hw argv db p0 ls c p Hmain Hdb Hc Hls Hrun) as (pre & _ & Hb & _).
  split; [exact Hb |].
  rewrite delete_destroys by (intros ->; discriminate). by rewrite Hb.
Qed.

(** The archive with one sampler. *)
Lemma inline_objects_are_destroyed_witness :
  teardown_destroys RESOURCE_SAMPLER
    (ThreadedReplayer_delete env_saved (replayer (after schedule_sampler sampler_start)))
  = inline_successes RESOURCE_SAMPLER (vk_trace (after schedule_sampler sampler_start)).
Proof.
  refine (proj2 (inline_objects_are_destroyed 0 argv_one_thread sampler_archive sampler_start
                   schedule_sampler (after schedule_sampler sampler_start) env_saved
                   RESOURCE_SAMPLER _ _ _ _ _)).
  - vm_compute; reflexivity.
  - intros c hashes Hlist. unfold sampler_archive in Hlist. cbn in Hlist.
    destruct (decide (c = RESOURCE_SAMPLER)); injection Hlist as <-;
      [apply NoDup_singleton | apply NoDup_nil_2].
  - repeat (apply Forall_cons; split;
              [cbn; try done; intros h [= <-]; discriminate |]).
    apply Forall_nil. done.
  - vm_compute; reflexivity.
  - reflexivity.
Defined.

(** X16.  The barriers of [main] below the wrap of the counters.  In a run
    that pushes fewer than 2^32 work items: when the archive is read to the
    end, [main] parses the records of the first six categories, issues the
    barrier right after the render passes, parses the graphics and compute
    pipelines, and issues the final barrier before the report; in every run
    each parse of a pipeline record is preceded by the
    barrier, with nothing but parses of non-pipeline records before the
    barrier and nothing but parses of pipeline records between the barrier
    and it; and whenever a worker pops a pipeline work item, no shader-module
    work item is in the queue or in the hands of a worker, and [main] has no
    shader-module record left to parse. *)
Theorem barrier_before_pipelines hw argv db p0 :
  main hw argv db = inr p0 ->
  Z.of_nat (pushes_left p0) < 2 ^ 32 ->
  (prepare db = true -> (play_tags db playback_order).2 = true ->
   script p0 =
     category_ops db RESOURCE_APPLICATION_INFO
     ++ category_ops db RESOURCE_SHADER_MODULE
     ++ category_ops db RESOURCE_SAMPLER
     ++ category_ops db RESOURCE_DESCRIPTOR_SET_LAYOUT
     ++ category_ops db RESOURCE_PIPELINE_LAYOUT
     ++ category_ops db RESOURCE_RENDER_PASS
     ++ OpSync
     :: category_ops db RESOURCE_GRAPHICS_PIPELINE
     ++ category_ops db RESOURCE_COMPUTE_PIPELINE
     ++ [OpSync; OpReport; OpShutdown; OpJoin EXIT_SUCCESS]
   /\ Forall (fun c => Forall (fun op => parses c op = true) (category_ops db c)) playback_order)
  /\ (forall pre op post,
        script p0 = pre ++ op :: post -> parses_pipeline op = true ->
        exists before between,
          pre = before ++ OpSync :: between
          /\ Forall (fun o => exists c h blob, o = OpParse c h blob /\ is_pipeline_tag c = false)
               before
          /\ Forall (fun o => parses_pipeline o = true) between)
  /\ (forall ls p w p' item,
        run ls p0 = Some p -> step (LPop w) p = Some p' ->
        thread_pool (replayer p') !! w = Some (Popped item) ->
        is_pipeline_item item = true ->
        Forall (fun pending => is_shader_item pending = false) (pending_items p)
        /\ Forall (fun op => parses RESOURCE_SHADER_MODULE op = false) (script p)).
Proof.
  intros Hmain Htot.
  assert (Hscript : script p0 = main_script db).
  { apply main_started in Hmain as (o & g & c & -> & _). reflexivity. }
  split; [| split].
  - intros Hprep Hok. rewrite Hscript. by apply complete_script.
  - intros pre op post Heq Hop.
    eapply well_phased_before_split; eauto.
    rewrite Hscript. apply main_script_well_phased.
  - intros ls p w p' item Hrun Hstep Hw Hpipe.
    destruct (main_run_invariant hw argv db p0 ls p Hmain Htot Hrun) as [Hinv _].
    destruct Hinv as (_ & _ & _ & (ph & Hph & Hhold & _) & _).
    destruct (pop_takes_front w p p' item Hstep Hw) as [rest Hqueue].
    assert (Hin : item ∈ pending_items p).
    { unfold pending_items. rewrite Hqueue. apply elem_of_app. left. apply list_elem_of_here. }
    assert (Hnot : ~ Forall (fun pending => is_pipeline_item pending = false) (pending_items p)).
    { intros Hall. rewrite Forall_forall in Hall. specialize (Hall item Hin). congruence. }
    destruct ph; simpl in Hhold.
    + contradiction.
    + split; [exact Hhold |]. by apply (well_phased_no_shader AfterBarrier).
    + rewrite Hhold in Hin. by apply elem_of_nil in Hin.
    + destruct Hhold as [_ [Hall | Hall]]; [contradiction |].
      split; [exact Hall |]. by apply (well_phased_no_shader Closing).
Qed.

(** A run of the small archive up to the push of its pipeline: the worker
    then pops the pipeline and the theorem applies. *)
Lemma barrier_before_pipelines_witness :
  Forall (fun pending => is_shader_item pending = false)
    (pending_items (after schedule_pushed small_start))
  /\ Forall (fun op => parses RESOURCE_SHADER_MODULE op = false)
       (script (after schedule_pushed small_start)).
Proof.
  refine (proj2 (proj2 (barrier_before_pipelines 0 argv_one_thread small_archive small_start _ _))
            schedule_pushed (after schedule_pushed small_start) 0%nat
            (after (schedule_pushed ++ [LPop 0]) small_start) (graphics_item 2) _ _ _ _);
    vm_compute; reflexivity.
Defined.
